(** * Push-up analysis core: repetition segmentation and form scoring

    A shallow embedding of
      - [backend/analysis/dtw_engine.py]   (distance, heuristic and blended scoring),
      - [backend/analysis/rep_splitter.py] (valley based repetition segmentation),
      - the set-level aggregation of [backend/api/server.py],
    together with the properties stated about them.

    Modelling conventions.
      - A Python [float] is a [pyfloat]: an exact rational, or one of the three
        non-finite values.  Rounding of finite arithmetic is not modelled; the
        special values follow IEEE-754 (without signed zeros).
      - A Python [int] is a [Z]; list indices and lengths are [nat].
      - A call that raises is [None]; [try/except] is written out where the
        source has one.
      - [scipy.signal.find_peaks] and [fastdtw.fastdtw] are third-party
        functions; the embedded functions take them as arguments. *)

From Stdlib Require Import ZArith QArith Qround Qabs Qminmax Lqa List String Bool Lia Sorted.
Import ListNotations.

Local Open Scope Z_scope.

(* ------------------------------------------------------------------ *)
(** ** Python floats                                                   *)
(* ------------------------------------------------------------------ *)

Module PyFloat.

Inductive pyfloat : Type :=
| Finite (q : Q)
| PosInf
| NegInf
| NaN.

(** [math.isfinite] / [np.isfinite]. *)
Definition isfinite (x : pyfloat) : bool :=
  match x with Finite _ => true | _ => false end.

Definition Qlt_bool (a b : Q) : bool := negb (Qle_bool b a).

(** [a <= b]; every comparison with [NaN] is false. *)
Definition fle (a b : pyfloat) : bool :=
  match a, b with
  | NaN, _ | _, NaN => false
  | NegInf, _ => true
  | _, PosInf => true
  | Finite x, Finite y => Qle_bool x y
  | _, _ => false
  end.

(** [a < b]. *)
Definition flt (a b : pyfloat) : bool :=
  match a, b with
  | NaN, _ | _, NaN => false
  | NegInf, NegInf => false
  | NegInf, _ => true
  | PosInf, _ => false
  | Finite _, PosInf => true
  | Finite _, NegInf => false
  | Finite x, Finite y => Qlt_bool x y
  end.

Definition fge (a b : pyfloat) : bool := fle b a.
Definition fgt (a b : pyfloat) : bool := flt b a.

Definition fneg (a : pyfloat) : pyfloat :=
  match a with
  | Finite x => Finite (- x)
  | PosInf => NegInf
  | NegInf => PosInf
  | NaN => NaN
  end.

Definition fadd (a b : pyfloat) : pyfloat :=
  match a, b with
  | NaN, _ | _, NaN => NaN
  | Finite x, Finite y => Finite (x + y)
  | PosInf, NegInf | NegInf, PosInf => NaN
  | PosInf, _ | _, PosInf => PosInf
  | NegInf, _ | _, NegInf => NegInf
  end.

Definition fsub (a b : pyfloat) : pyfloat := fadd a (fneg b).

(** An infinity of the sign of [s * t], where [t] is the sign of the
    infinite factor; [NaN] when [s] is zero. *)
Definition inf_of_sign (s : Q) (positive : bool) : pyfloat :=
  if Qlt_bool 0 s then (if positive then PosInf else NegInf)
  else if Qlt_bool s 0 then (if positive then NegInf else PosInf)
  else NaN.

Definition fmul (a b : pyfloat) : pyfloat :=
  match a, b with
  | NaN, _ | _, NaN => NaN
  | Finite x, Finite y => Finite (x * y)
  | Finite x, PosInf | PosInf, Finite x => inf_of_sign x true
  | Finite x, NegInf | NegInf, Finite x => inf_of_sign x false
  | PosInf, PosInf | NegInf, NegInf => PosInf
  | PosInf, NegInf | NegInf, PosInf => NegInf
  end.

(** Float division.  Python raises [ZeroDivisionError] on a zero divisor;
    no division of the embedded code can meet one (the divisors are non-zero
    constants, or a threshold already tested to be positive), and the total
    function below answers [NaN] there. *)
Definition fdiv (a b : pyfloat) : pyfloat :=
  match a, b with
  | NaN, _ | _, NaN => NaN
  | Finite x, Finite y => if Qeq_bool y 0 then NaN else Finite (x / y)
  | Finite _, _ => Finite 0
  | PosInf, Finite y => if Qeq_bool y 0 then NaN else inf_of_sign y true
  | NegInf, Finite y => if Qeq_bool y 0 then NaN else inf_of_sign y false
  | _, _ => NaN
  end.

(** [int(x)]: truncation towards zero; [ValueError] on [NaN] and
    [OverflowError] on an infinity. *)
Definition py_int (x : pyfloat) : option Z :=
  match x with
  | Finite q => Some (Z.quot (Qnum q) (Z.pos (Qden q)))
  | _ => None
  end.

(** [round(q)] of a finite float: the nearest integer, ties to the even one. *)
Definition py_round (q : Q) : Z :=
  let f := Qfloor q in
  let r := (q - inject_Z f)%Q in
  match Qcompare r (1 # 2) with
  | Lt => f
  | Gt => f + 1
  | Eq => if Z.even f then f else f + 1
  end.

(** The builtin [min] keeps the first of its candidates and replaces it only
    by an element that compares strictly smaller; [max] likewise. *)
Fixpoint py_min_from (cur : pyfloat) (l : list pyfloat) : pyfloat :=
  match l with
  | [] => cur
  | x :: t => py_min_from (if flt x cur then x else cur) t
  end.

Fixpoint py_max_from (cur : pyfloat) (l : list pyfloat) : pyfloat :=
  match l with
  | [] => cur
  | x :: t => py_max_from (if fgt x cur then x else cur) t
  end.

(** The finite values of a list, when all of them are finite
    ([np.all(np.isfinite(...))]). *)
Fixpoint all_finite (l : list pyfloat) : option (list Q) :=
  match l with
  | [] => Some []
  | Finite q :: t =>
      match all_finite t with Some qs => Some (q :: qs) | None => None end
  | _ :: _ => None
  end.

End PyFloat.

Export PyFloat.

(** [max(0, min(100, i))]. *)
Definition clamp_0_100 (i : Z) : Z := Z.max 0 (Z.min 100 i).

(* ------------------------------------------------------------------ *)
(** ** analysis/dtw_engine.py                                          *)
(* ------------------------------------------------------------------ *)

Definition PENALTY_DISTANCE : pyfloat := Finite 9999.
Definition DTW_MAX_DIST_DEGREES : pyfloat := Finite 20.
Definition DTW_WEIGHT : Q := 1 # 2.
Definition HEURISTIC_WEIGHT : Q := 1 # 2.

(** What [fastdtw(u, g, dist=euclidean)] returns: the accumulated distance
    and the warping path, a list of index pairs. *)
Definition dtw_result : Type := (Q * list (nat * nat))%type.

Section DtwEngine.

(** The third-party alignment routine, on two finite one-dimensional series;
    [None] when it raises. *)
Variable fastdtw : list Q -> list Q -> option dtw_result.

(** [calculate_dtw_distance]: the path-normalised distance, or the penalty.
    Whatever the body of the [try] raises (the routine itself, or the
    division by [len(path)] on an empty path) the [except] turns into the
    penalty as well. *)
Definition calculate_dtw_distance (user_angles golden_angles : list pyfloat)
  : pyfloat :=
  match user_angles, golden_angles with
  | [], _ | _, [] => PENALTY_DISTANCE
  | _, _ =>
      match all_finite user_angles, all_finite golden_angles with
      | Some u, Some g =>
          match fastdtw u g with
          | Some (distance, (_ :: _) as path) =>
              Finite (distance / inject_Z (Z.of_nat (List.length path)))
          | _ => PENALTY_DISTANCE
          end
      | _, _ => PENALTY_DISTANCE
      end
  end.

(** [calculate_form_score]. *)
Definition calculate_form_score (dtw_distance max_acceptable_distance : pyfloat)
  : option Z :=
  if fle max_acceptable_distance (Finite 0) then Some 0
  else if fle dtw_distance (Finite 0) then Some 100
  else
    let raw :=
      fmul (Finite 100)
           (fsub (Finite 1) (fdiv dtw_distance max_acceptable_distance)) in
    option_map clamp_0_100 (py_int raw).

Definition DEPTH_FULL : pyfloat := Finite 90.
Definition DEPTH_ZERO : pyfloat := Finite 140.
Definition LOCK_FULL : pyfloat := Finite 160.
Definition LOCK_ZERO : pyfloat := Finite 130.
Definition ARC_FULL : pyfloat := Finite 70.
Definition ARC_ZERO : pyfloat := Finite 20.

Definition ERR_NO_DATA : string := "no angle data".
Definition ERR_DEPTH : string := "insufficient depth".
Definition ERR_LOCKOUT : string := "incomplete lockout".
Definition ERR_ROM : string := "very limited range of motion".

(** The running pair of the scorer: the points so far and the error list. *)
Definition tally : Type := (pyfloat * list string)%type.

(** Depth, 50 points. *)
Definition depth_component (min_angle : pyfloat) (st : tally) : tally :=
  let '(points, errors) := st in
  if fle min_angle DEPTH_FULL then (fadd points (Finite 50), errors)
  else if fge min_angle DEPTH_ZERO then (points, errors ++ [ERR_DEPTH])
  else
    let depth_pct :=
      fsub (Finite 1)
           (fdiv (fsub min_angle DEPTH_FULL) (fsub DEPTH_ZERO DEPTH_FULL)) in
    (fadd points (fmul (Finite 50) depth_pct),
     if flt depth_pct (Finite (1 # 2)) then errors ++ [ERR_DEPTH] else errors).

(** Lockout, 30 points. *)
Definition lockout_component (max_angle : pyfloat) (st : tally) : tally :=
  let '(points, errors) := st in
  if fge max_angle LOCK_FULL then (fadd points (Finite 30), errors)
  else if fle max_angle LOCK_ZERO then (points, errors ++ [ERR_LOCKOUT])
  else
    let lock_pct :=
      fdiv (fsub max_angle LOCK_ZERO) (fsub LOCK_FULL LOCK_ZERO) in
    (fadd points (fmul (Finite 30) lock_pct),
     if flt lock_pct (Finite (1 # 2)) then errors ++ [ERR_LOCKOUT] else errors).

(** Range of motion, 20 points. *)
Definition rom_component (arc : pyfloat) (st : tally) : tally :=
  let '(points, errors) := st in
  if fge arc ARC_FULL then (fadd points (Finite 20), errors)
  else if fle arc ARC_ZERO then (points, errors ++ [ERR_ROM])
  else
    let arc_pct := fdiv (fsub arc ARC_ZERO) (fsub ARC_FULL ARC_ZERO) in
    (fadd points (fmul (Finite 20) arc_pct), errors).

(** [score_rep_heuristic]. *)
Definition score_rep_heuristic (rep_elbow_angles : list pyfloat)
  : option (Z * list string) :=
  match rep_elbow_angles with
  | [] => Some (0, [ERR_NO_DATA])
  | x :: t =>
      let min_angle := py_min_from x t in
      let max_angle := py_max_from x t in
      let arc := fsub max_angle min_angle in
      let st0 : tally := (Finite 0, []) in
      let st1 := depth_component min_angle st0 in
      let st2 := lockout_component max_angle st1 in
      let '(points, errors) := rom_component arc st2 in
      match py_int points with
      | Some i => Some (clamp_0_100 i, errors)
      | None => None
      end
  end.

(** [score_rep_blended]. *)
Definition score_rep_blended (user_rep_angles golden_angles : list pyfloat)
  : option (Z * list string) :=
  let dtw_dist := calculate_dtw_distance user_rep_angles golden_angles in
  match calculate_form_score dtw_dist DTW_MAX_DIST_DEGREES with
  | None => None
  | Some dtw_score =>
      match score_rep_heuristic user_rep_angles with
      | None => None
      | Some (h_score, errors) =>
          let blended :=
            clamp_0_100
              (py_round (DTW_WEIGHT * inject_Z dtw_score
                         + HEURISTIC_WEIGHT * inject_Z h_score)%Q) in
          Some (blended, errors)
      end
  end.

(** A reference library: a [dict] from name to series, in insertion order.
    The keys of a [dict] are pairwise distinct. *)
Definition library : Type := list (string * list pyfloat).

(** [golden_library[name]]; [None] is [KeyError]. *)
Fixpoint dict_get (lib : library) (name : string) : option (list pyfloat) :=
  match lib with
  | [] => None
  | (k, v) :: rest => if String.eqb k name then Some v else dict_get rest name
  end.

(** One turn of the loop over [golden_library.items()]. *)
Definition best_step (user_rep_angles : list pyfloat)
  (best : string * pyfloat) (item : string * list pyfloat)
  : string * pyfloat :=
  let '(ref_name, ref_angles) := item in
  match ref_angles with
  | [] => best
  | _ =>
      let dist := calculate_dtw_distance user_rep_angles ref_angles in
      if flt dist (snd best) then (ref_name, dist) else best
  end.

(** [evaluate_against_library]. *)
Definition evaluate_against_library (user_rep_angles : list pyfloat)
  (golden_library : library) (max_acceptable_distance : pyfloat)
  : option (string * pyfloat * Z) :=
  match user_rep_angles with
  | [] => Some ("no_reference"%string, PENALTY_DISTANCE, 0)
  | _ =>
      match golden_library with
      | [] =>
          match score_rep_heuristic user_rep_angles with
          | Some (score, _) => Some ("heuristic"%string, Finite 0, score)
          | None => None
          end
      | _ =>
          let '(best_name, best_distance) :=
            fold_left (best_step user_rep_angles) golden_library
                      ("no_reference"%string, PosInf) in
          if String.eqb best_name "no_reference" || negb (isfinite best_distance)
          then
            match score_rep_heuristic user_rep_angles with
            | Some (score, _) =>
                Some ("no_reference"%string, PENALTY_DISTANCE, score)
            | None => None
            end
          else
            match dict_get golden_library best_name with
            | None => None
            | Some best_ref_angles =>
                match score_rep_blended user_rep_angles best_ref_angles with
                | Some (final_score, _) =>
                    Some (best_name, best_distance, final_score)
                | None => None
                end
            end
      end
  end.

End DtwEngine.

(* ------------------------------------------------------------------ *)
(** ** The shape distance of the design document                       *)
(* ------------------------------------------------------------------ *)

(** The per-step cost: the Euclidean distance of two one-dimensional points. *)
Definition euclidean (a b : Q) : Q := Qabs (a - b).

(** The cheaper of two alignments; the first one on a tie. *)
Definition cheaper (a b : dtw_result) : dtw_result :=
  if Qle_bool (fst a) (fst b) then a else b.

(** Prefix an alignment with the cell [(i, j)] of cost [d]. *)
Definition extend (d : Q) (cell : nat * nat) (r : dtw_result) : dtw_result :=
  ((d + fst r)%Q, cell :: snd r).

(** Modelled from the spec: [fastdtw] is a third-party routine whose code is
    not part of the repository.  The design document describes it as the
    minimum-cost elastic alignment of the two sequences under a per-step
    Euclidean cost, returning the total cost and the alignment path.
    [dtw_from i j u g] is the cheapest warping path from cell [(i, j)], the
    first elements of [u] and [g], to their last elements; each step advances
    one or both sequences by one.  On equal cost the diagonal step is
    preferred, then the step in [u]. *)
Fixpoint dtw_from (i j : nat) (u g : list Q) {struct u} : dtw_result :=
  match u with
  | [] => (0%Q, [])
  | x :: xs =>
      (fix along (j : nat) (g : list Q) {struct g} : dtw_result :=
         match g with
         | [] => (0%Q, [])
         | y :: ys =>
             let d := euclidean x y in
             match xs, ys with
             | [], [] => (d, [(i, j)])
             | [], _ :: _ => extend d (i, j) (along (S j) ys)
             | _ :: _, [] => extend d (i, j) (dtw_from (S i) j xs g)
             | _ :: _, _ :: _ =>
                 extend d (i, j)
                   (cheaper (dtw_from (S i) (S j) xs ys)
                      (cheaper (dtw_from (S i) j xs g) (along (S j) ys)))
             end
         end) j g
  end.

(** Modelled from the spec: the alignment routine as the design document
    describes it, exact dynamic time warping. *)
Definition fastdtw_exact (u g : list Q) : option dtw_result :=
  Some (dtw_from 0 0 u g).

(* ------------------------------------------------------------------ *)
(** ** analysis/rep_splitter.py                                        *)
(* ------------------------------------------------------------------ *)

Definition VALLEY_DEPTH_THRESHOLD : Q := 165.
Definition LOCKOUT_MIN_ANGLE : Q := 145.
Definition VALLEY_PROMINENCE : Q := 8.
Definition VALLEY_MIN_DISTANCE : nat := 10.

Definition FALLBACK_VALLEY_DEPTH_THRESHOLD : Q := 175.
Definition FALLBACK_LOCKOUT_MIN_ANGLE : Q := 120.
Definition FALLBACK_VALLEY_PROMINENCE : Q := 4.
Definition FALLBACK_VALLEY_MIN_DISTANCE : nat := 6.

(** [np.interp(x, xp, fp)] on the sample points [(x0, y0) :: pts], increasing
    in their first component: constant outside the samples, linear between
    two neighbours. *)
Fixpoint interp_from (x x0 y0 : Q) (pts : list (Q * Q)) : Q :=
  match pts with
  | [] => y0
  | (x1, y1) :: rest =>
      if Qlt_bool x x1 then ((y1 - y0) / (x1 - x0) * (x - x0) + y0)%Q
      else interp_from x x1 y1 rest
  end.

Definition np_interp (x : Q) (p0 : Q * Q) (pts : list (Q * Q)) : Q :=
  if Qle_bool x (fst p0) then snd p0 else interp_from x (fst p0) (snd p0) pts.

(** [indices[finite_mask]] paired with [result[finite_mask]], counting the
    indices from [i]. *)
Fixpoint finite_points (i : nat) (angles : list pyfloat) : list (Q * Q) :=
  match angles with
  | [] => []
  | Finite q :: t => (inject_Z (Z.of_nat i), q) :: finite_points (S i) t
  | _ :: t => finite_points (S i) t
  end.

(** The entries of [result] after the masked assignment. *)
Fixpoint patch (i : nat) (p0 : Q * Q) (pts : list (Q * Q))
  (angles : list pyfloat) : list Q :=
  match angles with
  | [] => []
  | Finite q :: t => q :: patch (S i) p0 pts t
  | _ :: t => np_interp (inject_Z (Z.of_nat i)) p0 pts :: patch (S i) p0 pts t
  end.

(** [_interpolate_nans]. *)
Definition _interpolate_nans (angles : list pyfloat) : list Q :=
  match finite_points 0 angles with
  | [] => map (fun _ => 0%Q) angles
  | p0 :: pts => patch 0 p0 pts angles
  end.

(** [angles[start:end]] for non-negative bounds. *)
Definition slice (angles : list Q) (start stop : nat) : list Q :=
  firstn (stop - start) (skipn start angles).

(** [np.max]; [None] is the [ValueError] on an empty array. *)
Definition np_max (l : list Q) : option Q :=
  match l with
  | [] => None
  | x :: t => Some (fold_left Qmax t x)
  end.

(** The comprehension selecting the deep valleys; [angles[idx]] raises
    [IndexError] beyond the end of the array. *)
Fixpoint deep_valleys_of (angles : list Q) (valley_depth_threshold : Q)
  (valley_indices : list nat) : option (list nat) :=
  match valley_indices with
  | [] => Some []
  | idx :: rest =>
      match nth_error angles idx with
      | None => None
      | Some a =>
          match deep_valleys_of angles valley_depth_threshold rest with
          | None => None
          | Some deep =>
              Some (if Qle_bool a valley_depth_threshold then idx :: deep
                    else deep)
          end
      end
  end.

(** [boundaries]: [0], the midpoint of every two consecutive deep valleys,
    and [n]. *)
Definition boundaries_of (n : nat) (deep_valleys : list nat) : list nat :=
  (0 :: map (fun i => (nth i deep_valleys 0 + nth (S i) deep_valleys 0) / 2)
            (seq 0 (List.length deep_valleys - 1)))%nat
  ++ [n].

(** The validation loop, [for i, valley_idx in enumerate(deep_valleys)],
    from index [i] on. *)
Fixpoint validate (angles : list Q) (lockout_min_angle : Q)
  (boundaries : list nat) (i : nat) (deep_valleys : list nat)
  : option (list (list Q)) :=
  match deep_valleys with
  | [] => Some []
  | _ :: rest =>
      match nth_error boundaries i, nth_error boundaries (S i) with
      | Some start, Some stop =>
          let rep_slice := slice angles start stop in
          match np_max rep_slice with
          | None => None
          | Some m =>
              match validate angles lockout_min_angle boundaries (S i) rest with
              | None => None
              | Some valid_reps =>
                  Some (if Qle_bool lockout_min_angle m
                        then rep_slice :: valid_reps else valid_reps)
              end
          end
      | _, _ => None
      end
  end.

(** The arguments of one detection pass. *)
Record pass_params : Type := mk_pass {
  valley_depth_threshold : Q;
  lockout_min_angle : Q;
  valley_prominence : Q;
  valley_min_distance : nat
}.

Definition PRIMARY : pass_params :=
  mk_pass VALLEY_DEPTH_THRESHOLD LOCKOUT_MIN_ANGLE
          VALLEY_PROMINENCE VALLEY_MIN_DISTANCE.

Definition FALLBACK : pass_params :=
  mk_pass FALLBACK_VALLEY_DEPTH_THRESHOLD FALLBACK_LOCKOUT_MIN_ANGLE
          FALLBACK_VALLEY_PROMINENCE FALLBACK_VALLEY_MIN_DISTANCE.

(** A computation that records the detection passes it runs. *)
Definition traced (A : Type) : Type := (list pass_params * A)%type.

Section RepSplitter.

(** [scipy.signal.find_peaks(x, prominence=..., distance=...)[0]]. *)
Variable find_peaks : list Q -> Q -> nat -> list nat.

(** [_detect_reps_by_valleys]. *)
Definition _detect_reps_by_valleys (angles : list Q) (p : pass_params)
  : option (list (list Q)) :=
  let n := List.length angles in
  let valley_indices :=
    find_peaks (map Qopp angles) (valley_prominence p) (valley_min_distance p) in
  match valley_indices with
  | [] => Some []
  | _ =>
      match deep_valleys_of angles (valley_depth_threshold p) valley_indices with
      | None => None
      | Some [] => Some []
      | Some deep_valleys =>
          validate angles (lockout_min_angle p) (boundaries_of n deep_valleys)
                   0 deep_valleys
      end
  end.

(** [segment_reps], with the passes it runs. *)
Definition segment_reps (elbow_angles : list pyfloat) (p : pass_params)
  : traced (option (list (list Q))) :=
  if (List.length elbow_angles <? 2)%nat then ([], Some [])
  else
    let angles :=
      match all_finite elbow_angles with
      | Some a => a
      | None => _interpolate_nans elbow_angles
      end in
    match _detect_reps_by_valleys angles p with
    | Some [] => ([p; FALLBACK], _detect_reps_by_valleys angles FALLBACK)
    | reps => ([p], reps)
    end.

End RepSplitter.

(* ------------------------------------------------------------------ *)
(** ** api/server.py: the set-level score                              *)
(* ------------------------------------------------------------------ *)

Definition DTW_MAX_ACCEPTABLE_DISTANCE : pyfloat := Finite 1.

(** [sum(all_scores)]. *)
Definition py_sum (l : list Z) : Z := fold_left Z.add l 0.

(** [average_score] of [run_analysis_pipeline]; [None] is the
    [ZeroDivisionError] on an empty score list. *)
Definition average_score (all_scores : list Z) : option Z :=
  match all_scores with
  | [] => None
  | s :: t =>
      let mean_score :=
        (inject_Z (py_sum all_scores)
         / inject_Z (Z.of_nat (List.length all_scores)))%Q in
      let worst_score := fold_left Z.min t s in
      Some (py_round (mean_score * (7 # 10) + inject_Z worst_score * (3 # 10))%Q)
  end.

(* ------------------------------------------------------------------ *)
(** ** Definitions used to state the properties                        *)
(* ------------------------------------------------------------------ *)

(** The distance-to-score map in the words of the design document:
    [0] for a non-positive threshold; otherwise [100] for [d <= 0], [0] for
    [d >= max_acceptable], and the floored, clamped interpolation between. *)
Definition form_score_spec (d max_acceptable : Q) : Z :=
  if Qle_bool max_acceptable 0 then 0
  else if Qle_bool d 0 then 100
  else if Qle_bool max_acceptable d then 0
  else clamp_0_100 (Qfloor (100 * (1 - d / max_acceptable))%Q).


(** The midpoints of every two consecutive indices. *)
Fixpoint midpoints (deep : list nat) : list nat :=
  match deep with
  | a :: ((b :: _) as rest) => ((a + b) / 2)%nat :: midpoints rest
  | _ => []
  end.

(** The candidate slices [[b_i, b_(i+1))], one per deep valley. *)
Definition candidates (n : nat) (deep : list nat) : list (nat * nat) :=
  match deep with
  | [] => []
  | _ => let bs := (0%nat :: midpoints deep) ++ [n] in combine bs (tl bs)
  end.

(** Candidate [j] is the pair of boundaries [j] and [j + 1]. *)
Definition candidate_at (bs : list nat) (j : nat) : nat * nat :=
  (nth j bs 0%nat, nth (S j) bs 0%nat).

(** A slice whose maximum reaches the lockout threshold. *)
Definition reaches_lockout (angles : list Q) (lockout : Q) (c : nat * nat)
  : bool :=
  match np_max (slice angles (fst c) (snd c)) with
  | Some m => Qle_bool lockout m
  | None => false
  end.

(** The deep valleys among the detected valley indices. *)
Definition deep_among (angles : list Q) (depth : Q) (valleys : list nat)
  : list nat :=
  filter (fun idx => Qle_bool (nth idx angles 0%Q) depth) valleys.

(** The array handed to the detection passes: the input itself when it is
    finite throughout, the interpolated copy otherwise. *)
Definition prepared (elbow_angles : list pyfloat) : list Q :=
  match all_finite elbow_angles with
  | Some a => a
  | None => _interpolate_nans elbow_angles
  end.

(** A distance, or the initial [inf] of the search. *)
Definition is_distance (x : pyfloat) : Prop :=
  x = PosInf \/ exists q, x = Finite q.

(* ------------------------------------------------------------------ *)
(** ** analysis/rep_splitter.py: counting                              *)
(* ------------------------------------------------------------------ *)

(** [count_reps]. *)
Definition count_reps (segmented_reps : list (list Q)) : nat :=
  match segmented_reps with
  | [] => 0%nat
  | _ => List.length segmented_reps
  end.

(* ------------------------------------------------------------------ *)
(** ** api/server.py: scoring the repetitions of a set                 *)
(* ------------------------------------------------------------------ *)

Definition HIP_SAG_THRESHOLD : pyfloat := Finite 160.
Definition HIP_SAG_FREQUENCY_THRESHOLD : Q := 30 # 100.

(** [l[start:stop]] for non-negative bounds, on any list. *)
Definition py_slice {A : Type} (l : list A) (start stop : nat) : list A :=
  firstn (stop - start) (skipn start l).

(** [hip_sag_this_rep] of [run_analysis_pipeline], from the hip slice of one
    repetition. *)
Definition hip_sag_this_rep (rep_hip_slice : list pyfloat) : bool :=
  match rep_hip_slice with
  | [] => false
  | _ =>
      let sag_count :=
        List.length (filter (fun a => flt a HIP_SAG_THRESHOLD) rep_hip_slice) in
      let sag_fraction :=
        (inject_Z (Z.of_nat sag_count)
         / inject_Z (Z.of_nat (List.length rep_hip_slice)))%Q in
      Qle_bool HIP_SAG_FREQUENCY_THRESHOLD sag_fraction
  end.

(** The values [rep_hip_slice] takes in the loop over the repetitions,
    [hip_cursor] advancing by the length of each repetition. *)
Fixpoint hip_slices (raw_hip_angles : list pyfloat) (hip_cursor : nat)
  (segmented_reps : list (list Q)) : list (list pyfloat) :=
  match segmented_reps with
  | [] => []
  | rep_elbow_angles :: rest =>
      let rep_frame_count := List.length rep_elbow_angles in
      py_slice raw_hip_angles hip_cursor (hip_cursor + rep_frame_count)
      :: hip_slices raw_hip_angles (hip_cursor + rep_frame_count) rest
  end.

Section Pipeline.

Variable fastdtw : list Q -> list Q -> option dtw_result.



End Pipeline.

(* ------------------------------------------------------------------ *)
(** ** core/geometry.py and core/pose_detector.py                      *)
(* ------------------------------------------------------------------ *)

(** A normalised image position [(x, y)]. *)
Definition point : Type := (pyfloat * pyfloat)%type.

(** The landmark [dict], from joint name to position. *)
Definition landmarks_dict : Type := list (string * point).

(** [key in landmarks]. *)
Definition has_key (d : landmarks_dict) (key : string) : bool :=
  existsb (String.eqb key) (map fst d).

(** [landmarks[key]]; [None] is [KeyError]. *)
Fixpoint get_item (d : landmarks_dict) (key : string) : option point :=
  match d with
  | [] => None
  | (k, v) :: rest => if String.eqb k key then Some v else get_item rest key
  end.

Definition _ELBOW_KEYS : list string := ["shoulder"; "elbow"; "wrist"]%string.
Definition _BODY_ALIGNMENT_KEYS : list string :=
  ["shoulder"; "hip"; "ankle"]%string.

(** [_validate_landmarks]. *)
Definition _validate_landmarks (landmarks : option landmarks_dict)
  (required_keys : list string) : bool :=
  match landmarks with
  | None => false
  | Some d => forallb (has_key d) required_keys
  end.

(** [LANDMARK_INDICES], with the values of the MediaPipe enumeration that the
    source gives in its comments. *)
Definition LANDMARK_INDICES : list (string * nat) :=
  [("shoulder", 12); ("elbow", 14); ("wrist", 16); ("hip", 24);
   ("ankle", 28)]%string%nat.

(** The comprehension of [extract_landmarks] over the items of an index
    table; [None] is the [IndexError] of [all_landmarks[index]]. *)
Fixpoint extract_items (all_landmarks : list point)
  (indices : list (string * nat)) : option landmarks_dict :=
  match indices with
  | [] => Some []
  | (joint_name, index) :: rest =>
      match nth_error all_landmarks index with
      | None => None
      | Some pt =>
          match extract_items all_landmarks rest with
          | None => None
          | Some d => Some ((joint_name, pt) :: d)
          end
      end
  end.

(** [PoseDetector.extract_landmarks], from [results.pose_landmarks], the
    answer of the pose model on the frame: [Some None] is the return value
    [None], and the outer [None] an exception. *)
Definition extract_landmarks (pose_landmarks : option (list point))
  : option (option landmarks_dict) :=
  match pose_landmarks with
  | None => Some None
  | Some all_landmarks =>
      match extract_items all_landmarks LANDMARK_INDICES with
      | None => None
      | Some extracted => Some (Some extracted)
      end
  end.

Section Geometry.

(** [calculate_angle], trigonometry on floats, is kept abstract. *)
Variable calculate_angle : point -> point -> point -> pyfloat.

(** The angle at the joint [b] of a landmark [dict]; [None] is [KeyError]. *)
Definition angle_at (d : landmarks_dict) (a b c : string) : option pyfloat :=
  match get_item d a, get_item d b, get_item d c with
  | Some pa, Some pb, Some pc => Some (calculate_angle pa pb pc)
  | _, _, _ => None
  end.

(** [get_elbow_angle]: [Some None] is the return value [None], and the outer
    [None] an exception. *)
Definition get_elbow_angle (landmarks : option landmarks_dict)
  : option (option pyfloat) :=
  if negb (_validate_landmarks landmarks _ELBOW_KEYS) then Some None
  else
    match landmarks with
    | None => None
    | Some d => option_map Some (angle_at d "shoulder" "elbow" "wrist")
    end.

(** [get_body_alignment_angle]. *)
Definition get_body_alignment_angle (landmarks : option landmarks_dict)
  : option (option pyfloat) :=
  if negb (_validate_landmarks landmarks _BODY_ALIGNMENT_KEYS) then Some None
  else
    match landmarks with
    | None => None
    | Some d => option_map Some (angle_at d "shoulder" "hip" "ankle")
    end.

(** Step 2 of [run_analysis_pipeline]: the loop that fills
    [raw_elbow_angles] and [raw_hip_angles], over the answers of the pose
    model on the extracted frames. *)
Fixpoint collect_angles (poses : list (option (list point)))
  (raw_elbow_angles raw_hip_angles : list pyfloat)
  : option (list pyfloat * list pyfloat) :=
  match poses with
  | [] => Some (raw_elbow_angles, raw_hip_angles)
  | pose_landmarks :: rest =>
      match extract_landmarks pose_landmarks with
      | None => None
      | Some None => collect_angles rest raw_elbow_angles raw_hip_angles
      | Some (Some landmarks) =>
          match get_elbow_angle (Some landmarks),
                get_body_alignment_angle (Some landmarks) with
          | Some elbow_angle, Some hip_angle =>
              collect_angles rest
                (match elbow_angle with
                 | Some a => raw_elbow_angles ++ [a]
                 | None => raw_elbow_angles
                 end)
                (match hip_angle with
                 | Some a => raw_hip_angles ++ [a]
                 | None => raw_hip_angles
                 end)
          | _, _ => None
          end
      end
  end.

End Geometry.

(* ------------------------------------------------------------------ *)
(** ** core/video_handler.py                                           *)
(* ------------------------------------------------------------------ *)

(** [round(x)] of a float; [ValueError] on [NaN], [OverflowError] on an
    infinity. *)
Definition py_round_float (x : pyfloat) : option Z :=
  match x with
  | Finite q => Some (py_round q)
  | _ => None
  end.

(** [frame_interval] of [extract_frames]; [None] when the computation
    raises ([ZeroDivisionError] on [target_fps = 0], or [round] on a
    non-finite quotient). *)
Definition frame_interval_of (native_fps : pyfloat) (target_fps : Z)
  : option Z :=
  if fle native_fps (Finite 0) then Some 1
  else if target_fps =? 0 then None
  else
    option_map (Z.max 1)
      (py_round_float (fdiv native_fps (Finite (inject_Z target_fps)))).

Section VideoHandler.

Context {frame : Type}.

(** [cv2.cvtColor(frame, cv2.COLOR_BGR2RGB)]. *)
Variable cvtColor : frame -> frame.

(** The extraction loop, on the frames the capture still has to deliver. *)
Fixpoint read_loop (frame_interval frame_index : Z) (source : list frame)
  : list frame :=
  match source with
  | [] => []
  | f :: rest =>
      if frame_index mod frame_interval =? 0
      then cvtColor f :: read_loop frame_interval (frame_index + 1) rest
      else read_loop frame_interval (frame_index + 1) rest
  end.

(** [extract_frames] on an opened capture that delivers [source] and reports
    [native_fps]: the frames it yields. *)
Definition extract_frames (source : list frame) (native_fps : pyfloat)
  (target_fps : Z) : option (list frame) :=
  option_map (fun frame_interval => read_loop frame_interval 0 source)
             (frame_interval_of native_fps target_fps).

End VideoHandler.

(* ------------------------------------------------------------------ *)
(** ** Definitions used to state further properties                    *)
(* ------------------------------------------------------------------ *)

(** The credit of each component of the heuristic scorer, as a function of
    the measurement. *)
Definition depth_points (min_angle : Q) : Q :=
  if Qle_bool min_angle 90 then 50
  else if Qle_bool 140 min_angle then 0
  else (50 * (1 - (min_angle - 90) / (140 - 90)))%Q.

Definition lockout_points (max_angle : Q) : Q :=
  if Qle_bool 160 max_angle then 30
  else if Qle_bool max_angle 130 then 0
  else (30 * ((max_angle - 130) / (160 - 130)))%Q.

Definition rom_points (arc : Q) : Q :=
  if Qle_bool 70 arc then 20
  else if Qle_bool arc 20 then 0
  else (20 * ((arc - 20) / (70 - 20)))%Q.

(** The labels of the heuristic scorer, as a function of the least and the
    greatest angle of a repetition. *)
Definition heuristic_labels (lo hi : Q) : list string :=
  (if Qlt_bool 115 lo then [ERR_DEPTH] else [])
  ++ (if Qlt_bool hi 145 then [ERR_LOCKOUT] else [])
  ++ (if Qle_bool (hi - lo) 20 then [ERR_ROM] else []).

(** A slice that passed the validation. *)
Definition valid_slice (angles : list Q) (lockout : Q) (r : list Q) : Prop :=
  r <> []
  /\ (exists q, In q r /\ (lockout <= q)%Q)
  /\ exists s e, r = slice angles s e.

(* ------------------------------------------------------------------ *)
(** ** Arithmetic of the float model                                   *)
(* ------------------------------------------------------------------ *)

Lemma Qle_bool_false (a b : Q) : Qle_bool a b = false -> (b < a)%Q.
Proof.
  intros H. apply Qnot_le_lt. intros Hle.
  apply Qle_bool_iff in Hle. congruence.
Qed.

Lemma Qle_bool_true (a b : Q) : Qle_bool a b = true -> (a <= b)%Q.
Proof. apply Qle_bool_iff. Qed.

Lemma Qle_bool_of_lt (a b : Q) : (b < a)%Q -> Qle_bool a b = false.
Proof.
  intros H. destruct (Qle_bool a b) eqn:E; [|reflexivity].
  apply Qle_bool_true in E. exfalso. exact (Qlt_not_le _ _ H E).
Qed.

Lemma Qeq_bool_of_lt (a : Q) : (0 < a)%Q -> Qeq_bool a 0 = false.
Proof.
  intros H. destruct (Qeq_bool a 0) eqn:E; [|reflexivity].
  apply Qeq_bool_iff in E. rewrite E in H. exfalso. exact (Qlt_irrefl _ H).
Qed.

Lemma clamp_range (i : Z) : 0 <= clamp_0_100 i <= 100.
Proof. unfold clamp_0_100. lia. Qed.

Lemma clamp_mono (i j : Z) : i <= j -> clamp_0_100 i <= clamp_0_100 j.
Proof. unfold clamp_0_100. lia. Qed.

Lemma clamp_id (i : Z) : 0 <= i <= 100 -> clamp_0_100 i = i.
Proof. unfold clamp_0_100. lia. Qed.

(** Truncation is the floor on a non-negative rational. *)
Lemma trunc_nonneg (q : Q) :
  (0 <= q)%Q -> Z.quot (Qnum q) (Z.pos (Qden q)) = Qfloor q.
Proof.
  intros H. destruct q as [n d]. unfold Qle in H. simpl in *.
  apply Z.quot_div_nonneg; lia.
Qed.

(** Truncation of a non-positive rational is non-positive. *)
Lemma trunc_nonpos (q : Q) :
  (q <= 0)%Q -> Z.quot (Qnum q) (Z.pos (Qden q)) <= 0.
Proof.
  intros H. destruct q as [n d]. unfold Qle in H. simpl in *.
  assert (Hn : n <= 0) by lia.
  replace n with (- (- n)) by lia. rewrite Z.quot_opp_l by lia.
  assert (0 <= (- n) ÷ Z.pos d) by (apply Z.quot_pos; lia). lia.
Qed.

Lemma Qfloor_nonneg (q : Q) : (0 <= q)%Q -> 0 <= Qfloor q.
Proof.
  intros H. change 0 with (Qfloor (inject_Z 0)) at 1.
  - apply Qfloor_resp_le. exact H.
Qed.

(** [round] stays between the floor and the floor plus one. *)
Lemma py_round_floor (q : Q) : Qfloor q <= py_round q <= Qfloor q + 1.
Proof.
  unfold py_round. destruct (Qcompare _ _); [destruct (Z.even _)| |]; lia.
Qed.

(** [round] does not leave an interval with integer ends. *)
Lemma py_round_between (a b : Z) (q : Q) :
  (inject_Z a <= q)%Q -> (q <= inject_Z b)%Q -> a <= py_round q <= b.
Proof.
  intros Ha Hb.
  assert (Hfa : a <= Qfloor q).
  { rewrite <- (Qfloor_Z a). apply Qfloor_resp_le. exact Ha. }
  assert (Hfb : Qfloor q <= b).
  { rewrite <- (Qfloor_Z b). apply Qfloor_resp_le. exact Hb. }
  pose proof (py_round_floor q) as Hr.
  split; [lia|].
  destruct (Z.eq_dec (Qfloor q) b) as [Heq|Hne]; [|lia].
  unfold py_round.
  destruct (Qcompare (q - inject_Z (Qfloor q)) (1 # 2)) eqn:Hc; [| lia |].
  - apply Qeq_alt in Hc. rewrite Heq in Hc.
    exfalso. apply (Qlt_irrefl q).
    apply Qle_lt_trans with (inject_Z b); [exact Hb|].
    setoid_replace q with (inject_Z b + (1 # 2))%Q.
    + rewrite <- (Qplus_0_r (inject_Z b)) at 1.
      apply Qplus_lt_r. reflexivity.
    + rewrite <- Hc. ring.
  - apply Qgt_alt in Hc. rewrite Heq in Hc.
    exfalso. apply (Qlt_irrefl q).
    apply Qle_lt_trans with (inject_Z b); [exact Hb|].
    apply Qlt_trans with (inject_Z b + (1 # 2))%Q.
    + rewrite <- (Qplus_0_r (inject_Z b)) at 1.
      apply Qplus_lt_r. reflexivity.
    + apply Qplus_lt_l with (- inject_Z b)%Q.
      setoid_replace (inject_Z b + (1 # 2) + - inject_Z b)%Q with (1 # 2)%Q by ring.
      exact Hc.
Qed.

(* ------------------------------------------------------------------ *)
(** ** The distance-to-score map                                       *)
(* ------------------------------------------------------------------ *)

(** With a positive threshold the interpolated value is at least [100]
    for a non-positive distance and at most [0] beyond the threshold. *)
Lemma raw_bounds (d m : Q) :
  (0 < m)%Q ->
  ((d <= 0)%Q -> (100 <= 100 * (1 - d / m))%Q)
  /\ ((m <= d)%Q -> (100 * (1 - d / m) <= 0)%Q)
  /\ ((0 <= d)%Q -> (100 * (1 - d / m) <= 100)%Q).
Proof.
  intros Hm.
  assert (Hinv : (0 < / m)%Q) by (apply Qinv_lt_0_compat; exact Hm).
  unfold Qdiv. repeat split; intros Hd.
  - assert (H : (d * / m <= 0)%Q).
    { rewrite <- (Qmult_0_l (/ m)). apply Qmult_le_compat_r; [exact Hd|].
      apply Qlt_le_weak; exact Hinv. }
    setoid_replace (100 * (1 - d * / m))%Q with (100 + 100 * - (d * / m))%Q by ring.
    rewrite <- (Qplus_0_r 100) at 1. apply Qplus_le_r.
    setoid_replace 0%Q with (100 * 0)%Q by ring.
    apply Qmult_le_l; [reflexivity|].
    apply Qopp_le_compat in H. exact H.
  - assert (H : (1 <= d * / m)%Q).
    { setoid_replace 1%Q with (m * / m)%Q
        by (symmetry; apply Qmult_inv_r; intros E; rewrite E in Hm;
            exact (Qlt_irrefl _ Hm)).
      apply Qmult_le_compat_r; [exact Hd|]. apply Qlt_le_weak; exact Hinv. }
    setoid_replace 0%Q with (100 * (1 - 1))%Q by ring.
    apply Qmult_le_l; [reflexivity|].
    apply Qplus_le_r. apply Qopp_le_compat. exact H.
  - assert (H : (0 <= d * / m)%Q).
    { apply Qmult_le_0_compat; [exact Hd|]. apply Qlt_le_weak; exact Hinv. }
    setoid_replace 100%Q with (100 * (1 - 0))%Q at 2 by ring.
    apply Qmult_le_l; [reflexivity|].
    apply Qplus_le_r. apply Qopp_le_compat. exact H.
Qed.


(** On finite arguments the scorer computes the map of the design document. *)
Lemma calculate_form_score_finite (d m : Q) :
  calculate_form_score (Finite d) (Finite m) = Some (form_score_spec d m).
Proof.
  unfold calculate_form_score, form_score_spec. cbn [fle].
  destruct (Qle_bool m 0) eqn:Hm; [reflexivity|].
  destruct (Qle_bool d 0) eqn:Hd; [reflexivity|].
  apply Qle_bool_false in Hm. apply Qle_bool_false in Hd.
  cbn [fdiv]. rewrite (Qeq_bool_of_lt m Hm). cbn [fsub fneg fadd fmul py_int option_map].
  change (100 * (1 + - (d / m)))%Q with (100 * (1 - d / m))%Q.
  destruct (raw_bounds d m Hm) as (_ & Hhi & Hlo).
  f_equal.
  destruct (Qle_bool m d) eqn:Hmd.
  - apply Qle_bool_true in Hmd.
    pose proof (trunc_nonpos _ (Hhi Hmd)) as Ht.
    unfold clamp_0_100. lia.
  - apply Qle_bool_false in Hmd.
    rewrite trunc_nonneg; [reflexivity|].
    setoid_replace 0%Q with (100 * (1 - 1))%Q by ring.
    apply Qmult_le_l; [reflexivity|].
    apply Qplus_le_r. apply Qopp_le_compat.
    apply Qle_shift_div_r; [exact Hm|].
    rewrite Qmult_1_l. apply Qlt_le_weak. exact Hmd.
Qed.




(* ------------------------------------------------------------------ *)
(** ** The set-level score                                             *)
(* ------------------------------------------------------------------ *)


Lemma fold_add_shift (l : list Z) (a : Z) :
  fold_left Z.add l a = a + fold_left Z.add l 0.
Proof.
  revert a. induction l as [|x l IH]; intros a; simpl; [lia|].
  rewrite (IH (a + x)), (IH x). lia.
Qed.

Lemma py_sum_cons (x : Z) (l : list Z) : py_sum (x :: l) = x + py_sum l.
Proof. unfold py_sum. simpl. apply fold_add_shift. Qed.


(** The running minimum is an element and a lower bound. *)
Lemma fold_min_spec (t : list Z) (s : Z) :
  In (fold_left Z.min t s) (s :: t)
  /\ (forall x, In x (s :: t) -> fold_left Z.min t s <= x).
Proof.
  revert s. induction t as [|y t IH]; intros s; simpl.
  - split; [left; reflexivity|]. intros x [<-|[]]. lia.
  - destruct (IH (Z.min s y)) as [Hin Hle]. split.
    + destruct Hin as [Heq|Hin].
      * assert (E : Z.min s y = s \/ Z.min s y = y) by lia.
        destruct E as [E|E]; [left|right; left]; congruence.
      * right. right. exact Hin.
    + intros x [<-|[<-|Hx]].
      * specialize (Hle (Z.min s y) (or_introl eq_refl)). lia.
      * specialize (Hle (Z.min s y) (or_introl eq_refl)). lia.
      * apply Hle. right. exact Hx.
Qed.




(* ------------------------------------------------------------------ *)
(** ** The heuristic scorer                                            *)
(* ------------------------------------------------------------------ *)

Lemma all_finite_cons (x : pyfloat) (t : list pyfloat) (qs : list Q) :
  all_finite (x :: t) = Some qs ->
  exists q qt, x = Finite q /\ qs = q :: qt /\ all_finite t = Some qt.
Proof.
  destruct x as [q| | |]; simpl; try discriminate.
  destruct (all_finite t) as [qt|]; [|discriminate].
  intros [= <-]. exists q, qt. repeat split.
Qed.

(** The builtin [min] and [max] of finite values are finite. *)
Lemma py_min_from_finite (t : list pyfloat) :
  forall (cur : Q) (qt : list Q),
    all_finite t = Some qt -> exists q, py_min_from (Finite cur) t = Finite q.
Proof.
  induction t as [|y t IH]; intros cur qt H; simpl.
  - exists cur. reflexivity.
  - destruct (all_finite_cons _ _ _ H) as (q & qt' & -> & _ & Ht).
    match goal with |- context [if ?b then _ else _] => destruct b end;
      eapply IH; exact Ht.
Qed.

Lemma py_max_from_finite (t : list pyfloat) :
  forall (cur : Q) (qt : list Q),
    all_finite t = Some qt -> exists q, py_max_from (Finite cur) t = Finite q.
Proof.
  induction t as [|y t IH]; intros cur qt H; simpl.
  - exists cur. reflexivity.
  - destruct (all_finite_cons _ _ _ H) as (q & qt' & -> & _ & Ht).
    match goal with |- context [if ?b then _ else _] => destruct b end;
      eapply IH; exact Ht.
Qed.

(** Each component keeps a finite tally finite on a finite measurement. *)
Lemma depth_component_finite (a p : Q) (errs : list string) :
  exists p', fst (depth_component (Finite a) (Finite p, errs)) = Finite p'.
Proof.
  unfold depth_component.
  destruct (fle (Finite a) DEPTH_FULL); [eexists; reflexivity|].
  destruct (fge (Finite a) DEPTH_ZERO); eexists; reflexivity.
Qed.

Lemma lockout_component_finite (a p : Q) (errs : list string) :
  exists p', fst (lockout_component (Finite a) (Finite p, errs)) = Finite p'.
Proof.
  unfold lockout_component.
  destruct (fge (Finite a) LOCK_FULL); [eexists; reflexivity|].
  destruct (fle (Finite a) LOCK_ZERO); eexists; reflexivity.
Qed.

Lemma rom_component_finite (a p : Q) (errs : list string) :
  exists p', fst (rom_component (Finite a) (Finite p, errs)) = Finite p'.
Proof.
  unfold rom_component.
  destruct (fge (Finite a) ARC_FULL); [eexists; reflexivity|].
  destruct (fle (Finite a) ARC_ZERO); eexists; reflexivity.
Qed.

(** What each component appends to the error list. *)
Lemma depth_component_errors (a : pyfloat) (st : tally) :
  exists extra,
    snd (depth_component a st) = snd st ++ extra
    /\ (extra = [] \/ extra = [ERR_DEPTH]).
Proof.
  destruct st as [p errs]. unfold depth_component.
  destruct (fle a DEPTH_FULL).
  { exists []. rewrite app_nil_r. auto. }
  destruct (fge a DEPTH_ZERO).
  { exists [ERR_DEPTH]. auto. }
  cbn [snd]. destruct (flt _ _).
  - exists [ERR_DEPTH]. auto.
  - exists []. rewrite app_nil_r. auto.
Qed.

Lemma lockout_component_errors (a : pyfloat) (st : tally) :
  exists extra,
    snd (lockout_component a st) = snd st ++ extra
    /\ (extra = [] \/ extra = [ERR_LOCKOUT]).
Proof.
  destruct st as [p errs]. unfold lockout_component.
  destruct (fge a LOCK_FULL).
  { exists []. rewrite app_nil_r. auto. }
  destruct (fle a LOCK_ZERO).
  { exists [ERR_LOCKOUT]. auto. }
  cbn [snd]. destruct (flt _ _).
  - exists [ERR_LOCKOUT]. auto.
  - exists []. rewrite app_nil_r. auto.
Qed.

(** Nothing at or below the zero-credit arc reaches the full-credit arc. *)
Lemma arc_zero_not_full (arc : pyfloat) :
  fle arc ARC_ZERO = true -> fge arc ARC_FULL = false.
Proof.
  unfold fge, ARC_ZERO, ARC_FULL. destruct arc as [q| | |]; simpl; try congruence.
  intros H. apply Qle_bool_true in H. apply Qle_bool_of_lt.
  apply Qle_lt_trans with 20%Q; [exact H|reflexivity].
Qed.

Lemma rom_component_errors (arc : pyfloat) (st : tally) :
  snd (rom_component arc st)
  = snd st ++ (if fle arc ARC_ZERO then [ERR_ROM] else []).
Proof.
  destruct st as [p errs]. unfold rom_component.
  destruct (fle arc ARC_ZERO) eqn:Hz.
  - rewrite (arc_zero_not_full _ Hz). reflexivity.
  - destruct (fge arc ARC_FULL); cbn [snd]; rewrite app_nil_r; reflexivity.
Qed.

(** The scorer returns on every finite repetition, with a score in
    [[0, 100]]. *)
Lemma score_rep_heuristic_finite (rep : list pyfloat) (qs : list Q) :
  all_finite rep = Some qs ->
  exists s errs, score_rep_heuristic rep = Some (s, errs) /\ 0 <= s <= 100.
Proof.
  intros H. destruct rep as [|x t].
  - exists 0, [ERR_NO_DATA]. split; [reflexivity|lia].
  - destruct (all_finite_cons _ _ _ H) as (q & qt & -> & _ & Ht).
    unfold score_rep_heuristic.
    destruct (py_min_from_finite t q qt Ht) as [lo ->].
    destruct (py_max_from_finite t q qt Ht) as [hi ->].
    cbn [fsub fneg fadd].
    destruct (depth_component_finite lo 0 []) as [p1 H1].
    destruct (depth_component (Finite lo) (Finite 0, [])) as [pt1 e1].
    cbn [fst] in H1. subst pt1.
    destruct (lockout_component_finite hi p1 e1) as [p2 H2].
    destruct (lockout_component (Finite hi) (Finite p1, e1)) as [pt2 e2].
    cbn [fst] in H2. subst pt2.
    destruct (rom_component_finite (hi + - lo) p2 e2) as [p3 H3].
    destruct (rom_component (Finite (hi + - lo)) (Finite p2, e2)) as [pt3 e3].
    cbn [fst] in H3. subst pt3. cbn [py_int].
    eexists _, e3. split; [reflexivity|]. apply clamp_range.
Qed.


(** C5, as the code has it.  The error list returned for a non-empty
    repetition holds only the labels ["insufficient depth"],
    ["incomplete lockout"] and ["very limited range of motion"]; the
    range-of-motion component emits its label exactly when the arc is at most
    [20] degrees.  The scorer returns on every finite repetition. *)
Theorem score_rep_heuristic_labels :
  forall (x : pyfloat) (t : list pyfloat),
    (forall qs, all_finite (x :: t) = Some qs ->
                exists s errs, score_rep_heuristic (x :: t) = Some (s, errs))
    /\ (forall s errs,
           score_rep_heuristic (x :: t) = Some (s, errs) ->
           (forall e, In e errs ->
                      e = ERR_DEPTH \/ e = ERR_LOCKOUT \/ e = ERR_ROM)
           /\ (In ERR_ROM errs
               <-> fle (fsub (py_max_from x t) (py_min_from x t)) ARC_ZERO
                   = true)).
Proof.
  intros x t. split.
  - intros qs H. destruct (score_rep_heuristic_finite _ _ H) as (s & errs & E & _).
    exists s, errs. exact E.
  - intros s errs. unfold score_rep_heuristic.
    set (lo := py_min_from x t). set (hi := py_max_from x t).
    set (st1 := depth_component lo (Finite 0, [])).
    set (st2 := lockout_component hi st1).
    pose proof (rom_component_errors (fsub hi lo) st2) as H3.
    destruct (rom_component (fsub hi lo) st2) as [p e3]. cbn [snd] in H3.
    destruct (py_int p); [|discriminate]. intros [= _ <-].
    destruct (lockout_component_errors hi st1) as (x2 & H2 & C2).
    fold st2 in H2. rewrite H2 in H3.
    destruct (depth_component_errors lo (Finite 0, [])) as (x1 & H1 & C1).
    fold st1 in H1. rewrite H1 in H3. cbn [snd app] in H3. subst e3.
    split.
    + intros e He. rewrite !in_app_iff in He.
      destruct He as [[He|He]|He].
      * destruct C1 as [->| ->]; simpl in He; intuition.
      * destruct C2 as [->| ->]; simpl in He; intuition.
      * destruct (fle (fsub hi lo) ARC_ZERO); simpl in He; intuition.
    + rewrite !in_app_iff. destruct (fle (fsub hi lo) ARC_ZERO); split; intros H.
      * reflexivity.
      * right. left. reflexivity.
      * exfalso. destruct H as [[H|H]|H].
        -- destruct C1 as [->| ->]; simpl in H; [exact H|].
           destruct H as [H|[]]. discriminate H.
        -- destruct C2 as [->| ->]; simpl in H; [exact H|].
           destruct H as [H|[]]. discriminate H.
        -- exact H.
      * discriminate H.
Qed.

Lemma score_rep_heuristic_labels_witness :
  score_rep_heuristic [Finite 100] = Some (40, [ERR_LOCKOUT; ERR_ROM])
  /\ (forall e, In e [ERR_LOCKOUT; ERR_ROM] ->
                e = ERR_DEPTH \/ e = ERR_LOCKOUT \/ e = ERR_ROM)
  /\ (In ERR_ROM [ERR_LOCKOUT; ERR_ROM]
      <-> fle (fsub (py_max_from (Finite 100) []) (py_min_from (Finite 100) []))
              ARC_ZERO = true).
Proof.
  assert (E : score_rep_heuristic [Finite 100] = Some (40, [ERR_LOCKOUT; ERR_ROM]))
    by reflexivity.
  split; [exact E|].
  exact (proj2 (score_rep_heuristic_labels (Finite 100) []) 40
               [ERR_LOCKOUT; ERR_ROM] E).
Defined.

(** C5, as stated, fails: the repetition [[150, 150]] has an arc of [0]
    degrees, and the scorer returns the range-of-motion label, which is
    neither the depth nor the lockout label. *)
Lemma score_rep_heuristic_rom_label :
  score_rep_heuristic [Finite 150; Finite 150] = Some (20, [ERR_DEPTH; ERR_ROM])
  /\ ~ (forall e, In e [ERR_DEPTH; ERR_ROM] -> e = ERR_DEPTH \/ e = ERR_LOCKOUT).
Proof.
  split; [reflexivity|].
  intros H. destruct (H ERR_ROM) as [E|E].
  - right. left. reflexivity.
  - discriminate E.
  - discriminate E.
Qed.

(* ------------------------------------------------------------------ *)
(** ** Evaluation against a reference library                          *)
(* ------------------------------------------------------------------ *)

(** C6, as the code has it.  For every non-empty repetition, evaluating it
    against an empty library returns the name ["heuristic"], the distance [0]
    and the score of the heuristic scorer; the evaluation returns on every
    finite repetition, and raises only where the heuristic scorer does. *)
Theorem evaluate_empty_library :
  forall (fastdtw : list Q -> list Q -> option dtw_result)
         (rep : list pyfloat) (max_acceptable_distance : pyfloat),
    rep <> [] ->
    (forall s errs,
        score_rep_heuristic rep = Some (s, errs) ->
        evaluate_against_library fastdtw rep [] max_acceptable_distance
        = Some ("heuristic"%string, Finite 0, s))
    /\ (score_rep_heuristic rep = None ->
        evaluate_against_library fastdtw rep [] max_acceptable_distance = None)
    /\ (forall qs,
           all_finite rep = Some qs ->
           exists s errs,
             score_rep_heuristic rep = Some (s, errs)
             /\ evaluate_against_library fastdtw rep [] max_acceptable_distance
                = Some ("heuristic"%string, Finite 0, s)).
Proof.
  intros fastdtw rep m Hne.
  destruct rep as [|x t]; [congruence|].
  assert (Hsome : forall s errs,
             score_rep_heuristic (x :: t) = Some (s, errs) ->
             evaluate_against_library fastdtw (x :: t) [] m
             = Some ("heuristic"%string, Finite 0, s)).
  { intros s errs E. unfold evaluate_against_library. rewrite E. reflexivity. }
  split; [exact Hsome|]. split.
  - intros E. unfold evaluate_against_library. rewrite E. reflexivity.
  - intros qs Hfin.
    destruct (score_rep_heuristic_finite _ _ Hfin) as (s & errs & E & _).
    exists s, errs. split; [exact E|]. exact (Hsome s errs E).
Qed.

Lemma evaluate_empty_library_witness :
  [Finite 90; Finite 165] <> []
  /\ score_rep_heuristic [Finite 90; Finite 165] = Some (100, [])
  /\ evaluate_against_library fastdtw_exact [Finite 90; Finite 165] []
       DTW_MAX_ACCEPTABLE_DISTANCE
     = Some ("heuristic"%string, Finite 0, 100).
Proof.
  assert (Hne : [Finite 90; Finite 165] <> []) by discriminate.
  assert (E : score_rep_heuristic [Finite 90; Finite 165] = Some (100, []))
    by reflexivity.
  refine (conj Hne (conj E _)).
  exact (proj1 (evaluate_empty_library fastdtw_exact [Finite 90; Finite 165]
                  DTW_MAX_ACCEPTABLE_DISTANCE Hne) 100 [] E).
Defined.

(** C6, as stated, fails on the empty repetition: the guard on the
    repetition comes first, and the result carries the name
    ["no_reference"] and the penalty distance, not ["heuristic"] and [0]. *)
Lemma evaluate_empty_rep_empty_library :
  evaluate_against_library fastdtw_exact [] [] DTW_MAX_DIST_DEGREES
  = Some ("no_reference"%string, Finite 9999, 0)
  /\ score_rep_heuristic [] = Some (0, [ERR_NO_DATA])
  /\ evaluate_against_library fastdtw_exact [] [] DTW_MAX_DIST_DEGREES
     <> Some ("heuristic"%string, Finite 0, 0).
Proof.
  split; [reflexivity|]. split; [reflexivity|]. discriminate.
Qed.

(** C7, the code at the failing input.  With the repetition [[100]] and a
    library whose only reference is [[nan]], the one comparison fails and is
    replaced by the penalty [9999]; since the penalty is finite and below the
    initial [inf], the reference is selected all the same: the result carries
    its name and the blended score [20], not ["no_reference"] and the
    heuristic-only score [40]. *)
Theorem evaluate_all_comparisons_failed :
  forall (fastdtw : list Q -> list Q -> option dtw_result)
         (max_acceptable_distance : pyfloat),
    calculate_dtw_distance fastdtw [Finite 100] [NaN] = PENALTY_DISTANCE
    /\ score_rep_heuristic [Finite 100] = Some (40, [ERR_LOCKOUT; ERR_ROM])
    /\ evaluate_against_library fastdtw [Finite 100] [("a"%string, [NaN])]
         max_acceptable_distance
       = Some ("a"%string, Finite 9999, 20)
    /\ evaluate_against_library fastdtw [Finite 100] [("a"%string, [NaN])]
         max_acceptable_distance
       <> Some ("no_reference"%string, PENALTY_DISTANCE, 40).
Proof.
  intros fastdtw m.
  split; [reflexivity|]. split; [reflexivity|].
  assert (E : evaluate_against_library fastdtw [Finite 100]
                [("a"%string, [NaN])] m
              = Some ("a"%string, Finite 9999, 20)) by reflexivity.
  split; [exact E|]. rewrite E. discriminate.
Qed.

(** C10. The result of [evaluate_against_library] does not depend on its
    [max_acceptable_distance] argument, in particular not on the [1.0] the
    server passes; whenever a reference is selected, the final score blends
    the heuristic score with the shape score computed under the fixed
    threshold of [20] degrees. *)
Theorem evaluate_ignores_max_acceptable_distance :
  forall (fastdtw : list Q -> list Q -> option dtw_result)
         (rep : list pyfloat) (lib : library),
    (forall m1 m2 : pyfloat,
        evaluate_against_library fastdtw rep lib m1
        = evaluate_against_library fastdtw rep lib m2)
    /\ evaluate_against_library fastdtw rep lib DTW_MAX_ACCEPTABLE_DISTANCE
       = evaluate_against_library fastdtw rep lib DTW_MAX_DIST_DEGREES
    /\ (forall m name d final,
           lib <> [] ->
           name <> "no_reference"%string ->
           evaluate_against_library fastdtw rep lib m = Some (name, d, final) ->
           exists ref shape h errs,
             dict_get lib name = Some ref
             /\ calculate_form_score (calculate_dtw_distance fastdtw rep ref)
                  (Finite 20) = Some shape
             /\ score_rep_heuristic rep = Some (h, errs)
             /\ final
                = clamp_0_100
                    (py_round ((1 # 2) * inject_Z shape
                               + (1 # 2) * inject_Z h)%Q)).
Proof.
  intros fastdtw rep lib. split; [reflexivity|]. split; [reflexivity|].
  intros m name d final Hlib Hname.
  unfold evaluate_against_library.
  destruct rep as [|x t].
  { intros [= <- _ _]. congruence. }
  destruct lib as [|item lib]; [congruence|].
  destruct (fold_left _ _ _) as [best_name best_distance].
  destruct (String.eqb best_name "no_reference" || negb (isfinite best_distance)).
  { destruct (score_rep_heuristic (x :: t)) as [[s e]|]; [|discriminate].
    intros [= <- _ _]. congruence. }
  destruct (dict_get (item :: lib) best_name) as [ref|] eqn:Hget; [|discriminate].
  unfold score_rep_blended.
  destruct (calculate_form_score _ DTW_MAX_DIST_DEGREES) as [shape|] eqn:Hs;
    [|discriminate].
  destruct (score_rep_heuristic (x :: t)) as [[h errs]|]; [|discriminate].
  intros [= <- _ <-].
  exists ref, shape, h, errs. repeat split; assumption.
Qed.

Lemma evaluate_ignores_max_acceptable_distance_witness :
  [("a"%string, [Finite 105; Finite 175])] <> []
  /\ "a"%string <> "no_reference"%string
  /\ evaluate_against_library fastdtw_exact [Finite 100; Finite 170]
       [("a"%string, [Finite 105; Finite 175])] DTW_MAX_ACCEPTABLE_DISTANCE
     = Some ("a"%string, Finite (10 # 2), 82)
  /\ exists ref shape h errs,
      dict_get [("a"%string, [Finite 105; Finite 175])] "a" = Some ref
      /\ calculate_form_score
           (calculate_dtw_distance fastdtw_exact [Finite 100; Finite 170] ref)
           (Finite 20) = Some shape
      /\ score_rep_heuristic [Finite 100; Finite 170] = Some (h, errs)
      /\ 82 = clamp_0_100
                (py_round ((1 # 2) * inject_Z shape + (1 # 2) * inject_Z h)%Q).
Proof.
  assert (Hlib : [("a"%string, [Finite 105; Finite 175])] <> []) by discriminate.
  assert (Hname : "a"%string <> "no_reference"%string) by discriminate.
  assert (E : evaluate_against_library fastdtw_exact [Finite 100; Finite 170]
                [("a"%string, [Finite 105; Finite 175])]
                DTW_MAX_ACCEPTABLE_DISTANCE
              = Some ("a"%string, Finite (10 # 2), 82)) by reflexivity.
  refine (conj Hlib (conj Hname (conj E _))).
  exact (proj2 (proj2 (evaluate_ignores_max_acceptable_distance fastdtw_exact
                         [Finite 100; Finite 170]
                         [("a"%string, [Finite 105; Finite 175])]))
               DTW_MAX_ACCEPTABLE_DISTANCE "a"%string (Finite (10 # 2)) 82
               Hlib Hname E).
Defined.

(* ------------------------------------------------------------------ *)
(** ** The shape distance of a series to itself                        *)
(* ------------------------------------------------------------------ *)

(** The recursion of [dtw_from] on two non-empty series, unfolded. *)
Lemma dtw_from_cons (i j : nat) (x y : Q) (xs ys : list Q) :
  dtw_from i j (x :: xs) (y :: ys)
  = match xs, ys with
    | [], [] => (euclidean x y, [(i, j)])
    | [], _ :: _ =>
        extend (euclidean x y) (i, j) (dtw_from i (S j) (x :: xs) ys)
    | _ :: _, [] =>
        extend (euclidean x y) (i, j) (dtw_from (S i) j xs (y :: ys))
    | _ :: _, _ :: _ =>
        extend (euclidean x y) (i, j)
          (cheaper (dtw_from (S i) (S j) xs ys)
             (cheaper (dtw_from (S i) j xs (y :: ys))
                      (dtw_from i (S j) (x :: xs) ys)))
    end.
Proof. destruct xs, ys; reflexivity. Qed.

Lemma dtw_from_nil_r (i j : nat) (u : list Q) : dtw_from i j u [] = (0%Q, []).
Proof. destruct u; reflexivity. Qed.

Lemma euclidean_nonneg (a b : Q) : (0 <= euclidean a b)%Q.
Proof. unfold euclidean. apply Qabs_nonneg. Qed.

Lemma euclidean_self (a : Q) : (euclidean a a == 0)%Q.
Proof.
  unfold euclidean. setoid_replace (a - a)%Q with 0%Q by ring. reflexivity.
Qed.

Lemma cheaper_cases (a b : dtw_result) : cheaper a b = a \/ cheaper a b = b.
Proof. unfold cheaper. destruct (Qle_bool _ _); auto. Qed.

Lemma cheaper_nonneg (a b : dtw_result) :
  (0 <= fst a)%Q -> (0 <= fst b)%Q -> (0 <= fst (cheaper a b))%Q.
Proof. intros Ha Hb. destruct (cheaper_cases a b) as [-> | ->]; assumption. Qed.

Lemma extend_nonneg (d : Q) (c : nat * nat) (r : dtw_result) :
  (0 <= d)%Q -> (0 <= fst r)%Q -> (0 <= fst (extend d c r))%Q.
Proof.
  intros Hd Hr. unfold extend. cbn [fst].
  setoid_replace 0%Q with (0 + 0)%Q by ring. apply Qplus_le_compat; assumption.
Qed.

(** No alignment has a negative cost. *)
Lemma dtw_from_nonneg (u : list Q) :
  forall (g : list Q) (i j : nat), (0 <= fst (dtw_from i j u g))%Q.
Proof.
  induction u as [|x xs IHu]; intros g.
  - intros i j. simpl. apply Qle_refl.
  - induction g as [|y ys IHg]; intros i j.
    + rewrite dtw_from_nil_r. apply Qle_refl.
    + rewrite dtw_from_cons.
      pose proof (euclidean_nonneg x y) as Hd.
      destruct xs as [|x' xs'], ys as [|y' ys'].
      * exact Hd.
      * apply extend_nonneg; [exact Hd|apply IHg].
      * apply extend_nonneg; [exact Hd|apply IHu].
      * apply extend_nonneg; [exact Hd|].
        apply cheaper_nonneg; [apply IHu|].
        apply cheaper_nonneg; [apply IHu|apply IHg].
Qed.

(** A free alignment is chosen against any other. *)
Lemma cheaper_zero (a b : dtw_result) :
  (fst a == 0)%Q -> (0 <= fst b)%Q -> cheaper a b = a.
Proof.
  intros Ha Hb. unfold cheaper.
  assert (H : Qle_bool (fst a) (fst b) = true).
  { apply Qle_bool_iff. rewrite Ha. exact Hb. }
  rewrite H. reflexivity.
Qed.

(** Aligning a series with itself costs nothing: the diagonal is free. *)
Lemma dtw_from_self (u : list Q) :
  forall i j : nat, (fst (dtw_from i j u u) == 0)%Q.
Proof.
  induction u as [|x xs IH]; intros i j.
  - reflexivity.
  - rewrite dtw_from_cons. destruct xs as [|x' xs'].
    + cbn [fst]. apply euclidean_self.
    + rewrite cheaper_zero.
      * unfold extend. cbn [fst]. rewrite euclidean_self, IH. reflexivity.
      * apply IH.
      * apply cheaper_nonneg; apply dtw_from_nonneg.
Qed.

(** The alignment of two non-empty series has a non-empty path. *)
Lemma dtw_from_path (i j : nat) (x y : Q) (xs ys : list Q) :
  exists rest, snd (dtw_from i j (x :: xs) (y :: ys)) = (i, j) :: rest.
Proof.
  rewrite dtw_from_cons. destruct xs, ys; eexists; reflexivity.
Qed.

(** Under exact alignment, the distance of a non-empty finite series to
    itself is zero. *)
Lemma dtw_distance_self (X : list pyfloat) (qs : list Q) :
  X <> [] -> all_finite X = Some qs ->
  exists d, calculate_dtw_distance fastdtw_exact X X = Finite d /\ (d == 0)%Q.
Proof.
  intros Hne Hfin. destruct X as [|x t]; [congruence|].
  unfold calculate_dtw_distance. rewrite Hfin.
  destruct (all_finite_cons _ _ _ Hfin) as (q & qt & _ & -> & _).
  unfold fastdtw_exact.
  destruct (dtw_from_path 0 0 q q qt qt) as [rest Hp].
  pose proof (dtw_from_self (q :: qt) 0%nat 0%nat) as Hc.
  destruct (dtw_from 0 0 (q :: qt) (q :: qt)) as [cost path].
  cbn [fst snd] in *. subst path.
  eexists. split; [reflexivity|].
  unfold Qdiv. rewrite Hc. ring.
Qed.

(** C8. For every non-empty, fully finite series [X], the path-normalised
    time-warped distance of [X] against itself is [0], the alignment being
    the exact one of the design document. *)
Theorem calculate_dtw_distance_self :
  forall (X : list pyfloat) (qs : list Q),
    X <> [] ->
    all_finite X = Some qs ->
    exists d,
      calculate_dtw_distance fastdtw_exact X X = Finite d /\ (d == 0)%Q.
Proof. exact dtw_distance_self. Qed.

Lemma calculate_dtw_distance_self_witness :
  [Finite 170; Finite 95; Finite 168] <> []
  /\ all_finite [Finite 170; Finite 95; Finite 168] = Some [170; 95; 168]%Q
  /\ exists d,
      calculate_dtw_distance fastdtw_exact [Finite 170; Finite 95; Finite 168]
        [Finite 170; Finite 95; Finite 168] = Finite d
      /\ (d == 0)%Q.
Proof.
  assert (Hne : [Finite 170; Finite 95; Finite 168] <> []) by discriminate.
  assert (Hfin : all_finite [Finite 170; Finite 95; Finite 168]
                 = Some [170; 95; 168]%Q) by reflexivity.
  refine (conj Hne (conj Hfin _)).
  exact (calculate_dtw_distance_self _ _ Hne Hfin).
Defined.

(* ------------------------------------------------------------------ *)
(** ** Selection of the closest reference                              *)
(* ------------------------------------------------------------------ *)

Lemma calculate_dtw_distance_is_finite
  (fastdtw : list Q -> list Q -> option dtw_result) (u g : list pyfloat) :
  exists q, calculate_dtw_distance fastdtw u g = Finite q.
Proof.
  unfold calculate_dtw_distance, PENALTY_DISTANCE.
  destruct u; [eexists; reflexivity|].
  destruct g; [eexists; reflexivity|].
  destruct (all_finite _); [|eexists; reflexivity].
  destruct (all_finite _); [|eexists; reflexivity].
  destruct (fastdtw _ _) as [[c [|cell pth]]|]; eexists; reflexivity.
Qed.

Lemma fle_refl (x : pyfloat) : is_distance x -> fle x x = true.
Proof.
  intros [-> | [q ->]]; simpl; [reflexivity|].
  apply Qle_bool_iff. apply Qle_refl.
Qed.

Lemma fle_trans (x y z : pyfloat) :
  fle x y = true -> fle y z = true -> fle x z = true.
Proof.
  destruct x as [a| | |], y as [b| | |], z as [c| | |]; simpl;
    try congruence.
  intros H1 H2. apply Qle_bool_iff. apply Qle_bool_iff in H1, H2.
  apply Qle_trans with b; assumption.
Qed.

Lemma flt_fle (x y : pyfloat) : flt x y = true -> fle x y = true.
Proof.
  destruct x as [a| | |], y as [b| | |]; simpl; try congruence.
  unfold Qlt_bool. intros H. apply Bool.negb_true_iff in H.
  apply Qle_bool_false in H. apply Qle_bool_iff. apply Qlt_le_weak. exact H.
Qed.

Lemma flt_false_fle (q : Q) (y : pyfloat) :
  is_distance y -> flt (Finite q) y = false -> fle y (Finite q) = true.
Proof.
  intros [-> | [b ->]]; simpl; [discriminate|].
  unfold Qlt_bool. intros H. apply Bool.negb_false_iff in H. exact H.
Qed.

(** What the search over the library leaves in [(best_name, best_distance)]:
    either its starting value, or the name and distance of a non-empty
    reference; a distance no greater than the starting one and than that of
    any non-empty reference. *)
Lemma best_fold_spec
  (fastdtw : list Q -> list Q -> option dtw_result) (rep : list pyfloat)
  (lib : library) :
  forall st : string * pyfloat,
    is_distance (snd st) ->
    let st' := fold_left (best_step fastdtw rep) lib st in
    is_distance (snd st')
    /\ (st' = st
        \/ exists ref,
            In (fst st', ref) lib /\ ref <> []
            /\ calculate_dtw_distance fastdtw rep ref = snd st')
    /\ fle (snd st') (snd st) = true
    /\ (forall name ref,
           In (name, ref) lib -> ref <> [] ->
           fle (snd st') (calculate_dtw_distance fastdtw rep ref) = true).
Proof.
  induction lib as [|[k v] lib IH]; intros st Hst; cbn [fold_left].
  - split; [exact Hst|]. split; [left; reflexivity|].
    split; [apply fle_refl; exact Hst|]. intros name ref [].
  - set (st1 := best_step fastdtw rep st (k, v)).
    assert (H1 : is_distance (snd st1)
                 /\ (st1 = st
                     \/ (v <> [] /\ st1 = (k, calculate_dtw_distance fastdtw rep v)))
                 /\ fle (snd st1) (snd st) = true
                 /\ (v <> [] ->
                     fle (snd st1) (calculate_dtw_distance fastdtw rep v) = true)).
    { unfold st1, best_step. destruct v as [|a v'].
      - split; [exact Hst|]. split; [left; reflexivity|].
        split; [apply fle_refl; exact Hst|]. congruence.
      - destruct (calculate_dtw_distance_is_finite fastdtw rep (a :: v'))
          as [q Hq].
        rewrite Hq.
        destruct (flt (Finite q) (snd st)) eqn:Hlt.
        + split; [right; exists q; reflexivity|].
          split; [right; split; [discriminate|reflexivity]|].
          split; [apply flt_fle; exact Hlt|].
          intros _. apply fle_refl. right. exists q. reflexivity.
        + split; [exact Hst|]. split; [left; reflexivity|].
          split; [apply fle_refl; exact Hst|].
          intros _. apply flt_false_fle; assumption. }
    destruct H1 as (Hd1 & Hor1 & Hle1 & Hv1).
    destruct (IH st1 Hd1) as (Hd & Hor & Hle & Hall).
    split; [exact Hd|]. split; [|split].
    + destruct Hor as [Heq | (ref & Hin & Hne & Hc)].
      * rewrite Heq. destruct Hor1 as [E | [Hv E]].
        -- left. exact E.
        -- right. exists v. rewrite E. cbn [fst snd].
           split; [left; reflexivity|]. split; [exact Hv|reflexivity].
      * right. exists ref. split; [right; exact Hin|]. split; assumption.
    + apply fle_trans with (snd st1); assumption.
    + intros name ref [E | Hin] Hne.
      * injection E as <- <-.
        apply fle_trans with (snd st1); [exact Hle|]. apply Hv1. exact Hne.
      * apply (Hall name ref Hin Hne).
Qed.

Lemma dict_get_in (lib : library) (k : string) (v : list pyfloat) :
  NoDup (map fst lib) -> In (k, v) lib -> dict_get lib k = Some v.
Proof.
  induction lib as [|[k' v'] lib IH]; intros Hnd Hin; [destruct Hin|].
  simpl in Hnd. inversion Hnd as [|? ? Hnotin Hnd']; subst.
  simpl. destruct Hin as [E | Hin].
  - injection E as -> ->. rewrite String.eqb_refl. reflexivity.
  - destruct (String.eqb k' k) eqn:Ek.
    + apply String.eqb_eq in Ek. subst k'. exfalso. apply Hnotin.
      apply in_map_iff. exists (k, v). split; [reflexivity|exact Hin].
    + apply IH; assumption.
Qed.

(** Blending a score with a saturated shape score does not lower it. *)
Lemma blend_saturated (h : Z) :
  0 <= h <= 100 ->
  h <= clamp_0_100
         (py_round (DTW_WEIGHT * inject_Z 100 + HEURISTIC_WEIGHT * inject_Z h)%Q).
Proof.
  intros Hh. unfold DTW_WEIGHT, HEURISTIC_WEIGHT.
  assert (Hq0 : (inject_Z h <= 100)%Q).
  { change 100%Q with (inject_Z 100). rewrite <- Zle_Qle. lia. }
  assert (Hb : h <= py_round ((1 # 2) * inject_Z 100 + (1 # 2) * inject_Z h)%Q
               <= 100).
  { apply py_round_between; change (inject_Z 100) with 100%Q; lra. }
  rewrite clamp_id; lia.
Qed.

(** Whenever some non-empty reference of the library lies at distance [0]
    of a finite repetition, the evaluation returns a score no lower than the
    heuristic one. *)
Lemma evaluate_with_free_reference
  (fastdtw : list Q -> list Q -> option dtw_result)
  (X : list pyfloat) (qs : list Q) (lib : library) (name : string)
  (ref : list pyfloat) (m : pyfloat) (d0 : Q) :
  X <> [] -> all_finite X = Some qs ->
  NoDup (map fst lib) -> In (name, ref) lib -> ref <> [] ->
  calculate_dtw_distance fastdtw X ref = Finite d0 -> (d0 == 0)%Q ->
  exists best d final h errs,
    evaluate_against_library fastdtw X lib m = Some (best, d, final)
    /\ score_rep_heuristic X = Some (h, errs)
    /\ h <= final.
Proof.
  intros Hne Hfin Hnd Hin Hrne Hd0 Hzero.
  destruct (score_rep_heuristic_finite _ _ Hfin) as (h & errs & Hh & Hrange).
  unfold evaluate_against_library.
  destruct X as [|x t]; [congruence|].
  destruct lib as [|item lib']; [destruct Hin|].
  set (lib := item :: lib') in *.
  assert (Hinit : is_distance (snd ("no_reference"%string, PosInf)))
    by (left; reflexivity).
  destruct (best_fold_spec fastdtw (x :: t) lib _ Hinit)
    as (_ & Hor & _ & Hall).
  destruct (fold_left (best_step fastdtw (x :: t)) lib
                      ("no_reference"%string, PosInf))
    as [best_name best_distance].
  cbn [fst snd] in *.
  destruct (String.eqb best_name "no_reference" || negb (isfinite best_distance)).
  { rewrite Hh. exists "no_reference"%string, PENALTY_DISTANCE, h, h, errs.
    repeat split; [lia]. }
  specialize (Hall name ref Hin Hrne). rewrite Hd0 in Hall.
  destruct Hor as [E | (bref & Hbin & Hbne & Hbd)].
  { injection E as _ ->. discriminate Hall. }
  rewrite (dict_get_in lib best_name bref Hnd Hbin).
  unfold score_rep_blended. rewrite Hbd.
  destruct (calculate_dtw_distance_is_finite fastdtw (x :: t) bref) as [b Hbq].
  rewrite Hbq in Hbd. subst best_distance. simpl in Hall.
  unfold DTW_MAX_DIST_DEGREES. rewrite calculate_form_score_finite.
  assert (Hb : Qle_bool b 0 = true).
  { apply Qle_bool_iff. apply Qle_bool_iff in Hall. rewrite <- Hzero. exact Hall. }
  assert (Hs : form_score_spec b 20 = 100).
  { unfold form_score_spec. rewrite Hb. reflexivity. }
  rewrite Hs, Hh.
  eexists best_name, (Finite b), _, h, errs.
  split; [reflexivity|]. split; [reflexivity|].
  apply blend_saturated. exact Hrange.
Qed.

(** C9. For every non-empty, fully finite repetition [X] and every library
    (a dictionary, its names pairwise distinct) holding [X] itself under
    some name, the evaluation returns, and the score it returns is at least
    the heuristic-only score of [X]; the alignment is the exact one of the
    design document, under which the smallest distance is [0] and the shape
    score saturates at [100]. *)
Theorem evaluate_identical_reference :
  forall (X : list pyfloat) (qs : list Q) (lib : library) (name : string)
         (max_acceptable_distance : pyfloat),
    X <> [] ->
    all_finite X = Some qs ->
    NoDup (map fst lib) ->
    In (name, X) lib ->
    exists best d final h errs,
      evaluate_against_library fastdtw_exact X lib max_acceptable_distance
      = Some (best, d, final)
      /\ score_rep_heuristic X = Some (h, errs)
      /\ h <= final.
Proof.
  intros X qs lib name m Hne Hfin Hnd Hin.
  destruct (dtw_distance_self X qs Hne Hfin) as (d0 & Hd0 & Hzero).
  exact (evaluate_with_free_reference fastdtw_exact X qs lib name X m d0
           Hne Hfin Hnd Hin Hne Hd0 Hzero).
Qed.

Lemma evaluate_identical_reference_witness :
  [Finite 100; Finite 170] <> []
  /\ all_finite [Finite 100; Finite 170] = Some [100; 170]%Q
  /\ NoDup (map fst [("shallow"%string, [Finite 150; Finite 160]);
                     ("same"%string, [Finite 100; Finite 170])])
  /\ In ("same"%string, [Finite 100; Finite 170])
        [("shallow"%string, [Finite 150; Finite 160]);
         ("same"%string, [Finite 100; Finite 170])]
  /\ exists best d final h errs,
      evaluate_against_library fastdtw_exact [Finite 100; Finite 170]
        [("shallow"%string, [Finite 150; Finite 160]);
         ("same"%string, [Finite 100; Finite 170])]
        DTW_MAX_ACCEPTABLE_DISTANCE
      = Some (best, d, final)
      /\ score_rep_heuristic [Finite 100; Finite 170] = Some (h, errs)
      /\ h <= final.
Proof.
  assert (Hne : [Finite 100; Finite 170] <> []) by discriminate.
  assert (Hfin : all_finite [Finite 100; Finite 170] = Some [100; 170]%Q)
    by reflexivity.
  assert (Hnd : NoDup (map fst [("shallow"%string, [Finite 150; Finite 160]);
                                ("same"%string, [Finite 100; Finite 170])])).
  { simpl. constructor.
    - simpl. intros [E|[]]. discriminate E.
    - constructor; [intros []|constructor]. }
  assert (Hin : In ("same"%string, [Finite 100; Finite 170])
                   [("shallow"%string, [Finite 150; Finite 160]);
                    ("same"%string, [Finite 100; Finite 170])]).
  { simpl. right. left. reflexivity. }
  refine (conj Hne (conj Hfin (conj Hnd (conj Hin _)))).
  exact (evaluate_identical_reference _ _ _ _ DTW_MAX_ACCEPTABLE_DISTANCE
           Hne Hfin Hnd Hin).
Defined.

(* ------------------------------------------------------------------ *)
(** ** The detection pass                                              *)
(* ------------------------------------------------------------------ *)

Section ListFacts.

Context {A : Type}.
Variable R : A -> A -> Prop.
Variable keep : A -> bool.

Lemma filter_Forall (P : A -> Prop) (l : list A) :
  Forall P l -> Forall P (filter keep l).
Proof.
  intros H. apply Forall_forall. intros a Ha.
  apply filter_In in Ha. destruct Ha as [Ha _].
  revert a Ha. apply Forall_forall. exact H.
Qed.

Lemma filter_StronglySorted (l : list A) :
  StronglySorted R l -> StronglySorted R (filter keep l).
Proof.
  induction 1 as [|a l Hs IH Hall]; simpl; [constructor|].
  destruct (keep a); [|exact IH].
  constructor; [exact IH|]. apply filter_Forall. exact Hall.
Qed.

End ListFacts.

(** The comprehension keeps the valleys that are deep, as long as every
    index lies within the array. *)
Lemma deep_valleys_of_filter (angles : list Q) (depth : Q) (valleys : list nat) :
  Forall (fun i => (i < List.length angles)%nat) valleys ->
  deep_valleys_of angles depth valleys = Some (deep_among angles depth valleys).
Proof.
  induction 1 as [|idx rest Hidx _ IH]; [reflexivity|].
  simpl. rewrite (nth_error_nth' angles 0%Q Hidx), IH.
  destruct (Qle_bool _ _); reflexivity.
Qed.

(** The boundary list of the source is [0], the midpoints, then [n]. *)
Lemma midpoints_by_index (deep : list nat) :
  map (fun i => ((nth i deep 0 + nth (S i) deep 0) / 2)%nat)
      (seq 0 (List.length deep - 1))
  = midpoints deep.
Proof.
  induction deep as [|a rest IH]; [reflexivity|].
  destruct rest as [|b r]; [reflexivity|].
  change (List.length (a :: b :: r) - 1)%nat with (S (List.length r)).
  rewrite <- cons_seq, <- seq_shift. cbn [map]. rewrite map_map.
  change (midpoints (a :: b :: r))
    with (((a + b) / 2)%nat :: midpoints (b :: r)).
  rewrite <- IH.
  change (List.length (b :: r) - 1)%nat with (List.length r - 0)%nat.
  rewrite Nat.sub_0_r. reflexivity.
Qed.

Lemma boundaries_of_midpoints (n : nat) (deep : list nat) :
  boundaries_of n deep = (0%nat :: midpoints deep) ++ [n].
Proof. unfold boundaries_of. rewrite midpoints_by_index. reflexivity. Qed.

Lemma midpoints_length (deep : list nat) :
  List.length (midpoints deep) = (List.length deep - 1)%nat.
Proof.
  induction deep as [|a rest IH]; [reflexivity|].
  destruct rest as [|b r]; [reflexivity|].
  change (midpoints (a :: b :: r)) with (((a + b) / 2)%nat :: midpoints (b :: r)).
  cbn [List.length] in *. rewrite IH. lia.
Qed.

Lemma combine_by_index (k : nat) :
  forall bs : list nat,
    List.length bs = S k ->
    combine bs (tl bs) = map (candidate_at bs) (seq 0 k).
Proof.
  induction k as [|k IH]; intros bs Hlen.
  - destruct bs as [|b0 [|b1 r]]; try discriminate. reflexivity.
  - destruct bs as [|b0 [|b1 r]]; try discriminate.
    change (combine (b0 :: b1 :: r) (tl (b0 :: b1 :: r)))
      with ((b0, b1) :: combine (b1 :: r) (tl (b1 :: r))).
    rewrite (IH (b1 :: r)) by (simpl in Hlen; simpl; lia).
    rewrite <- cons_seq, <- seq_shift. cbn [map]. rewrite map_map.
    reflexivity.
Qed.

(** A slice within the array has the length of its range. *)
Lemma slice_length (angles : list Q) (s e : nat) :
  (e <= List.length angles)%nat ->
  List.length (slice angles s e) = (e - s)%nat.
Proof.
  intros H. unfold slice. rewrite length_firstn, length_skipn. lia.
Qed.

Lemma np_max_nonempty (l : list Q) :
  l <> [] -> exists m, np_max l = Some m.
Proof. destruct l as [|x t]; [congruence|]. intros _. eexists. reflexivity. Qed.

(** The validation loop returns the slices of the candidates that reach the
    lockout threshold, provided every candidate is a non-empty range of the
    array. *)
Lemma validate_spec (angles : list Q) (lockout : Q) (bs : list nat) :
  forall (rest : list nat) (i : nat),
    (i + List.length rest < List.length bs)%nat ->
    Forall (fun c => (fst c < snd c <= List.length angles)%nat)
           (map (candidate_at bs) (seq i (List.length rest))) ->
    validate angles lockout bs i rest
    = Some (map (fun c => slice angles (fst c) (snd c))
                (filter (reaches_lockout angles lockout)
                        (map (candidate_at bs) (seq i (List.length rest))))).
Proof.
  induction rest as [|v rest IH]; intros i Hlen Hall; [reflexivity|].
  cbn [List.length seq map] in Hall. inversion Hall as [|c cs Hc Hcs]; subst.
  cbn [validate List.length seq map filter].
  cbn [List.length] in Hlen.
  rewrite (nth_error_nth' bs 0%nat) by lia.
  rewrite (nth_error_nth' bs 0%nat) by lia.
  rewrite (IH (S i)) by (try exact Hcs; lia).
  unfold candidate_at in Hc. cbn [fst snd] in Hc.
  destruct (np_max_nonempty (slice angles (nth i bs 0%nat) (nth (S i) bs 0%nat)))
    as [m Hm].
  { intros E. apply (f_equal (@List.length Q)) in E.
    rewrite slice_length in E by lia. simpl in E. lia. }
  assert (Hr : reaches_lockout angles lockout (candidate_at bs i)
               = Qle_bool lockout m).
  { unfold reaches_lockout, candidate_at. cbn [fst snd]. rewrite Hm.
    reflexivity. }
  rewrite Hr, Hm. destruct (Qle_bool lockout m); reflexivity.
Qed.

(** The boundaries increase strictly when the deep valleys do and lie
    strictly between the ends of the array. *)
Lemma midpoints_sorted (n : nat) (rest : list nat) :
  forall a : nat,
    Sorted Nat.lt (a :: rest) ->
    Forall (fun i => (i < n)%nat) (a :: rest) ->
    Sorted Nat.lt (midpoints (a :: rest) ++ [n])
    /\ HdRel Nat.le a (midpoints (a :: rest) ++ [n]).
Proof.
  induction rest as [|b r IH]; intros a Hs Hall.
  - simpl. inversion Hall; subst. split.
    + repeat constructor.
    + constructor. lia.
  - inversion Hs as [|? ? Hs' Hhd]; subst. inversion Hhd as [|? ? Hab]; subst.
    inversion Hall as [|? ? _ Hall']; subst.
    destruct (IH b Hs' Hall') as [Hsorted Hle].
    change (midpoints (a :: b :: r))
      with (((a + b) / 2)%nat :: midpoints (b :: r)).
    assert (Hlo : (a <= (a + b) / 2)%nat).
    { apply Nat.div_le_lower_bound; lia. }
    assert (Hhi : ((a + b) / 2 < b)%nat).
    { apply Nat.Div0.div_lt_upper_bound. lia. }
    split.
    + cbn [app]. constructor; [exact Hsorted|].
      destruct (midpoints (b :: r) ++ [n]) as [|h tl0]; [constructor|].
      inversion Hle; subst. constructor. unfold Nat.lt. lia.
    + cbn [app]. constructor. exact Hlo.
Qed.

Lemma boundaries_sorted (n : nat) (deep : list nat) :
  deep <> [] ->
  StronglySorted Nat.lt deep ->
  Forall (fun i => (0 < i < n)%nat) deep ->
  StronglySorted Nat.lt ((0%nat :: midpoints deep) ++ [n]).
Proof.
  intros Hne Hs Hall. destruct deep as [|a rest]; [congruence|].
  apply Sorted_StronglySorted; [exact Nat.lt_trans|].
  assert (Hall' : Forall (fun i => (i < n)%nat) (a :: rest)).
  { eapply Forall_impl; [|exact Hall]. simpl. intros i Hi. lia. }
  destruct (midpoints_sorted n rest a (StronglySorted_Sorted Hs) Hall')
    as [Hsorted Hle].
  cbn [app]. constructor; [exact Hsorted|].
  inversion Hall as [|? ? Ha _]; subst.
  destruct (midpoints (a :: rest) ++ [n]) as [|h tl0]; [constructor|].
  inversion Hle; subst. constructor. unfold Nat.lt. lia.
Qed.

(** In a strictly increasing list ending in [n], consecutive elements form
    non-empty ranges below [n], each ending no later than the next begins. *)
Lemma consecutive_ranges (n : nat) (bs : list nat) :
  StronglySorted Nat.lt bs ->
  Forall (fun b => (b <= n)%nat) bs ->
  Forall (fun c => (fst c < snd c <= n)%nat) (combine bs (tl bs))
  /\ StronglySorted (fun c c' => (snd c <= fst c')%nat) (combine bs (tl bs)).
Proof.
  induction 1 as [|b0 bs Hs IH Hlt]; intros Hn; [split; constructor|].
  inversion Hn as [|? ? _ Hn']; subst.
  destruct bs as [|b1 r]; [split; constructor|].
  destruct (IH Hn') as [IHr IHs].
  change (combine (b0 :: b1 :: r) (tl (b0 :: b1 :: r)))
    with ((b0, b1) :: combine (b1 :: r) (tl (b1 :: r))).
  inversion Hlt as [|? ? Hb01 _]; subst.
  inversion Hn' as [|? ? Hb1 _]; subst.
  split.
  - constructor; [|exact IHr]. cbn [fst snd]. unfold Nat.lt in Hb01. lia.
  - constructor; [exact IHs|].
    apply Forall_forall. intros [s e] Hin. cbn [fst snd].
    apply in_combine_l in Hin. destruct Hin as [<- | Hin]; [lia|].
    inversion Hs as [|? ? _ Hb1r]; subst.
    rewrite Forall_forall in Hb1r. specialize (Hb1r s Hin).
    unfold Nat.lt in Hb1r. lia.
Qed.

Lemma sorted_below_last (n : nat) (l : list nat) :
  StronglySorted Nat.lt (l ++ [n]) -> Forall (fun b => (b <= n)%nat) (l ++ [n]).
Proof.
  induction l as [|a l IH]; intros H.
  - repeat constructor.
  - cbn [app] in *. inversion H as [|? ? Hs Hall]; subst.
    constructor; [|apply IH; exact Hs].
    rewrite Forall_forall in Hall.
    assert (Hlt : (a < n)%nat).
    { apply Hall. apply in_or_app. right. left. reflexivity. }
    lia.
Qed.

(** C1. Let the valley indices returned by [find_peaks] increase strictly
    and lie strictly inside the array.  Then a detection pass returns exactly
    the candidate slices [[b_i, b_(i+1))] whose maximum reaches the lockout
    threshold of the pass, one candidate per deep valley, where [b_0 = 0],
    every interior boundary is the integer midpoint of two consecutive deep
    valleys and the last boundary is the length of the series.  The slices
    returned are non-empty, they do not overlap and they are ordered by their
    start; a dropped candidate is left out, not merged into a neighbour. *)
Theorem detect_reps_by_valleys_slices :
  forall (find_peaks : list Q -> Q -> nat -> list nat)
         (angles : list Q) (p : pass_params),
    let n := List.length angles in
    let valleys :=
      find_peaks (map Qopp angles) (valley_prominence p)
                 (valley_min_distance p) in
    let deep := deep_among angles (valley_depth_threshold p) valleys in
    let kept :=
      filter (reaches_lockout angles (lockout_min_angle p))
             (candidates n deep) in
    StronglySorted Nat.lt valleys ->
    Forall (fun i => (0 < i < n)%nat) valleys ->
    _detect_reps_by_valleys find_peaks angles p
    = Some (map (fun c => slice angles (fst c) (snd c)) kept)
    /\ List.length (candidates n deep) = List.length deep
    /\ Forall (fun c => (fst c < snd c <= n)%nat) kept
    /\ StronglySorted (fun c c' => (snd c <= fst c')%nat) kept.
Proof.
  intros find_peaks angles p n valleys deep kept Hsorted Hinside.
  assert (Hbelow : Forall (fun i => (i < n)%nat) valleys).
  { eapply Forall_impl; [|exact Hinside]. simpl. intros i Hi. lia. }
  assert (Hdeep_sorted : StronglySorted Nat.lt deep)
    by (apply filter_StronglySorted; exact Hsorted).
  assert (Hdeep_inside : Forall (fun i => (0 < i < n)%nat) deep)
    by (apply filter_Forall; exact Hinside).
  assert (Hcomp : deep_valleys_of angles (valley_depth_threshold p) valleys
                  = Some deep)
    by (apply deep_valleys_of_filter; exact Hbelow).
  unfold _detect_reps_by_valleys. fold n. fold valleys. rewrite Hcomp.
  destruct deep as [|a rest] eqn:Edeep.
  { change kept with (@nil (nat * nat)).
    destruct valleys; repeat split; constructor. }
  set (bs := (0%nat :: midpoints (a :: rest)) ++ [n]).
  assert (Hbs_len : List.length bs = S (List.length (a :: rest))).
  { unfold bs. rewrite length_app. cbn [List.length].
    rewrite midpoints_length. cbn [List.length]. lia. }
  assert (Hbs_sorted : StronglySorted Nat.lt bs).
  { apply boundaries_sorted; [discriminate|assumption|assumption]. }
  assert (Hcand : candidates n (a :: rest)
                  = map (candidate_at bs) (seq 0 (List.length (a :: rest)))).
  { unfold candidates. fold bs. apply combine_by_index. exact Hbs_len. }
  destruct (consecutive_ranges n bs Hbs_sorted (sorted_below_last n _ Hbs_sorted))
    as [Hranges Hordered].
  rewrite <- (combine_by_index _ bs Hbs_len) in Hcand.
  assert (Hvalid :
            validate angles (lockout_min_angle p) (boundaries_of n (a :: rest))
                     0 (a :: rest)
            = Some (map (fun c => slice angles (fst c) (snd c)) kept)).
  { rewrite boundaries_of_midpoints. fold bs.
    rewrite validate_spec.
    - rewrite <- (combine_by_index _ bs Hbs_len). unfold kept.
      rewrite Hcand. reflexivity.
    - rewrite Hbs_len. lia.
    - rewrite <- (combine_by_index _ bs Hbs_len). exact Hranges. }
  assert (Hkept : kept = filter (reaches_lockout angles (lockout_min_angle p))
                                (combine bs (tl bs)))
    by (unfold kept; rewrite Hcand; reflexivity).
  split.
  { destruct valleys as [|v vs]; [discriminate Hcomp|]. exact Hvalid. }
  split.
  { rewrite Hcand, (combine_by_index _ bs Hbs_len), length_map, length_seq.
    reflexivity. }
  rewrite Hkept. split.
  - apply filter_Forall. exact Hranges.
  - apply filter_StronglySorted. exact Hordered.
Qed.

Lemma detect_reps_by_valleys_slices_witness :
  StronglySorted Nat.lt [2; 6; 10]%nat
  /\ Forall (fun i => (0 < i < 13)%nat) [2; 6; 10]%nat
  /\ candidates 13 [2; 6; 10]%nat = [(0, 4); (4, 8); (8, 13)]%nat
  /\ _detect_reps_by_valleys (fun _ _ _ => [2; 6; 10]%nat)
       [170; 150; 100; 150; 140; 130; 100; 130; 140; 150; 100; 150; 170]%Q
       PRIMARY
     = Some [[170; 150; 100; 150]; [140; 150; 100; 150; 170]]%Q
  /\ Forall (fun c => (fst c < snd c <= 13)%nat) [(0, 4); (8, 13)]%nat
  /\ StronglySorted (fun c c' => (snd c <= fst c')%nat) [(0, 4); (8, 13)]%nat.
Proof.
  assert (Hs : StronglySorted Nat.lt [2; 6; 10]%nat).
  { repeat constructor; unfold Nat.lt; lia. }
  assert (Hi : Forall (fun i => (0 < i < 13)%nat) [2; 6; 10]%nat).
  { repeat constructor; lia. }
  refine (conj Hs (conj Hi (conj eq_refl _))).
  destruct (detect_reps_by_valleys_slices
              (fun _ _ _ => [2; 6; 10]%nat)
              [170; 150; 100; 150; 140; 130; 100; 130; 140; 150; 100; 150; 170]%Q
              PRIMARY Hs Hi)
    as (Hret & _ & Hranges & Hordered).
  exact (conj Hret (conj Hranges Hordered)).
Defined.

(* ------------------------------------------------------------------ *)
(** ** The two-pass policy                                             *)
(* ------------------------------------------------------------------ *)

(** C2. On a series of length at least [2], [segment_reps] returns the
    result of the primary pass (valley depth [165], lockout [145], prominence
    [8], minimum separation [10]) whenever that result is non-empty; the
    fallback pass (valley depth [175], lockout [120], prominence [4], minimum
    separation [6]) runs exactly when the primary pass yields no slice, and
    the overall result is empty exactly when both passes yield none.  A
    series of length below [2] yields the empty list and runs no pass. *)
Theorem segment_reps_two_pass :
  forall (find_peaks : list Q -> Q -> nat -> list nat)
         (elbow_angles : list pyfloat),
    let angles := prepared elbow_angles in
    let primary := _detect_reps_by_valleys find_peaks angles PRIMARY in
    let fallback := _detect_reps_by_valleys find_peaks angles FALLBACK in
    let run := segment_reps find_peaks elbow_angles PRIMARY in
    PRIMARY = mk_pass 165 145 8 10
    /\ FALLBACK = mk_pass 175 120 4 6
    /\ ((List.length elbow_angles < 2)%nat -> run = ([], Some []))
    /\ ((2 <= List.length elbow_angles)%nat ->
        (forall r rs, primary = Some (r :: rs) ->
                      run = ([PRIMARY], Some (r :: rs)))
        /\ (primary = Some [] -> run = ([PRIMARY; FALLBACK], fallback))
        /\ (primary = None -> run = ([PRIMARY], None))
        /\ (In FALLBACK (fst run) <-> primary = Some [])
        /\ (snd run = Some [] <-> primary = Some [] /\ fallback = Some [])).
Proof.
  intros find_peaks elbow_angles angles primary fallback run.
  split; [reflexivity|]. split; [reflexivity|].
  assert (Hdiff : FALLBACK <> PRIMARY) by discriminate.
  unfold run, segment_reps. fold (prepared elbow_angles). fold angles.
  fold primary. fold fallback.
  split.
  - intros Hlen. apply Nat.ltb_lt in Hlen. rewrite Hlen. reflexivity.
  - intros Hlen.
    assert (Hge : (List.length elbow_angles <? 2)%nat = false)
      by (apply Nat.ltb_ge; exact Hlen).
    rewrite Hge.
    destruct primary as [[|r rs]|]; cbn [fst snd].
    + split; [discriminate|]. split; [reflexivity|]. split; [discriminate|].
      split.
      * split; [reflexivity|]. intros _. right. left. reflexivity.
      * split; [intros H; split; [reflexivity|exact H]|intros [_ H]; exact H].
    + split; [intros r' rs' [= <- <-]; reflexivity|].
      split; [discriminate|]. split; [discriminate|]. split.
      * split; [|discriminate]. intros [E|[]]. symmetry in E. contradiction.
      * split; [discriminate|]. intros [H _]. discriminate H.
    + split; [discriminate|]. split; [discriminate|]. split; [reflexivity|].
      split.
      * split; [|discriminate]. intros [E|[]]. symmetry in E. contradiction.
      * split; [discriminate|]. intros [H _]. discriminate H.
Qed.

Lemma segment_reps_two_pass_witness :
  (2 <= List.length
          [Finite 170; NaN; Finite 160; Finite 165; PosInf; Finite 170])%nat
  /\ prepared [Finite 170; NaN; Finite 160; Finite 165; PosInf; Finite 170]
     = [170; 330 # 2; 160; 165; 335 # 2; 170]%Q
  /\ _detect_reps_by_valleys
       (fun _ prominence _ => if Qle_bool prominence 4 then [2]%nat else [])
       (prepared [Finite 170; NaN; Finite 160; Finite 165; PosInf; Finite 170])
       PRIMARY
     = Some []
  /\ segment_reps
       (fun _ prominence _ => if Qle_bool prominence 4 then [2]%nat else [])
       [Finite 170; NaN; Finite 160; Finite 165; PosInf; Finite 170] PRIMARY
     = ([PRIMARY; FALLBACK],
        Some [[170; 330 # 2; 160; 165; 335 # 2; 170]%Q]).
Proof.
  assert (Hlen : (2 <= List.length
                        [Finite 170; NaN; Finite 160; Finite 165; PosInf;
                         Finite 170])%nat) by (simpl; lia).
  assert (Hprimary :
            _detect_reps_by_valleys
              (fun _ prominence _ =>
                 if Qle_bool prominence 4 then [2]%nat else [])
              (prepared [Finite 170; NaN; Finite 160; Finite 165; PosInf;
                         Finite 170])
              PRIMARY
            = Some []) by reflexivity.
  refine (conj Hlen (conj eq_refl (conj Hprimary _))).
  destruct (segment_reps_two_pass
              (fun _ prominence _ =>
                 if Qle_bool prominence 4 then [2]%nat else [])
              [Finite 170; NaN; Finite 160; Finite 165; PosInf; Finite 170])
    as (_ & _ & _ & Hlong).
  destruct (Hlong Hlen) as (_ & Hfallback & _).
  exact (Hfallback Hprimary).
Defined.

(* ------------------------------------------------------------------ *)
(** ** The heuristic scorer as a function of the extreme angles        *)
(* ------------------------------------------------------------------ *)

Lemma Qlt_bool_true (a b : Q) : Qlt_bool a b = true -> (a < b)%Q.
Proof.
  unfold Qlt_bool. intros H. apply Bool.negb_true_iff in H.
  apply Qle_bool_false. exact H.
Qed.

Lemma Qlt_bool_false (a b : Q) : Qlt_bool a b = false -> (b <= a)%Q.
Proof.
  unfold Qlt_bool. intros H. apply Bool.negb_false_iff in H.
  apply Qle_bool_true. exact H.
Qed.

Lemma Qlt_bool_of_lt (a b : Q) : (a < b)%Q -> Qlt_bool a b = true.
Proof.
  intros H. unfold Qlt_bool. rewrite (Qle_bool_of_lt _ _ H). reflexivity.
Qed.

Lemma Qlt_bool_of_le (a b : Q) : (b <= a)%Q -> Qlt_bool a b = false.
Proof.
  intros H. unfold Qlt_bool. apply Qle_bool_iff in H. rewrite H. reflexivity.
Qed.

(** The builtin [min] of finite values is their least element. *)
Lemma py_min_from_least (t : list pyfloat) :
  forall (cur : Q) (qt : list Q),
    all_finite t = Some qt ->
    exists lo,
      py_min_from (Finite cur) t = Finite lo
      /\ In lo (cur :: qt)
      /\ (forall q, In q (cur :: qt) -> (lo <= q)%Q).
Proof.
  induction t as [|y t IH]; intros cur qt H.
  - injection H as <-. exists cur. split; [reflexivity|].
    split; [left; reflexivity|]. intros q [<-|[]]. apply Qle_refl.
  - destruct (all_finite_cons _ _ _ H) as (q & qt' & -> & -> & Ht).
    cbn [py_min_from flt].
    destruct (Qlt_bool q cur) eqn:E.
    + apply Qlt_bool_true in E.
      destruct (IH q qt' Ht) as (lo & Hlo & Hin & Hle).
      exists lo. split; [exact Hlo|]. split.
      * right. exact Hin.
      * intros z [<-|Hz]; [|apply Hle; exact Hz].
        apply Qle_trans with q; [apply Hle; left; reflexivity|].
        apply Qlt_le_weak. exact E.
    + apply Qlt_bool_false in E.
      destruct (IH cur qt' Ht) as (lo & Hlo & Hin & Hle).
      exists lo. split; [exact Hlo|]. split.
      * destruct Hin as [<-|Hin]; [left; reflexivity|right; right; exact Hin].
      * intros z [<-|[<-|Hz]].
        -- apply Hle. left. reflexivity.
        -- apply Qle_trans with cur; [apply Hle; left; reflexivity|exact E].
        -- apply Hle. right. exact Hz.
Qed.

(** The builtin [max] of finite values is their greatest element. *)
Lemma py_max_from_greatest (t : list pyfloat) :
  forall (cur : Q) (qt : list Q),
    all_finite t = Some qt ->
    exists hi,
      py_max_from (Finite cur) t = Finite hi
      /\ In hi (cur :: qt)
      /\ (forall q, In q (cur :: qt) -> (q <= hi)%Q).
Proof.
  induction t as [|y t IH]; intros cur qt H.
  - injection H as <-. exists cur. split; [reflexivity|].
    split; [left; reflexivity|]. intros q [<-|[]]. apply Qle_refl.
  - destruct (all_finite_cons _ _ _ H) as (q & qt' & -> & -> & Ht).
    cbn [py_max_from fgt flt].
    destruct (Qlt_bool cur q) eqn:E.
    + apply Qlt_bool_true in E.
      destruct (IH q qt' Ht) as (hi & Hhi & Hin & Hle).
      exists hi. split; [exact Hhi|]. split.
      * right. exact Hin.
      * intros z [<-|Hz]; [|apply Hle; exact Hz].
        apply Qle_trans with q; [|apply Hle; left; reflexivity].
        apply Qlt_le_weak. exact E.
    + apply Qlt_bool_false in E.
      destruct (IH cur qt' Ht) as (hi & Hhi & Hin & Hle).
      exists hi. split; [exact Hhi|]. split.
      * destruct Hin as [<-|Hin]; [left; reflexivity|right; right; exact Hin].
      * intros z [<-|[<-|Hz]].
        -- apply Hle. left. reflexivity.
        -- apply Qle_trans with cur; [exact E|apply Hle; left; reflexivity].
        -- apply Hle. right. exact Hz.
Qed.

(** The three credits, case by case. *)
Lemma depth_points_cases (a : Q) :
  ((a <= 90)%Q /\ (depth_points a == 50)%Q)
  \/ ((140 <= a)%Q /\ (depth_points a == 0)%Q)
  \/ ((90 < a)%Q /\ (a < 140)%Q /\ (depth_points a == 140 - a)%Q).
Proof.
  unfold depth_points.
  destruct (Qle_bool a 90) eqn:E1.
  { left. split; [apply Qle_bool_true; exact E1|reflexivity]. }
  destruct (Qle_bool 140 a) eqn:E2.
  { right. left. split; [apply Qle_bool_true; exact E2|reflexivity]. }
  right. right. split; [apply Qle_bool_false; exact E1|].
  split; [apply Qle_bool_false; exact E2|]. field.
Qed.

Lemma lockout_points_cases (a : Q) :
  ((160 <= a)%Q /\ (lockout_points a == 30)%Q)
  \/ ((a <= 130)%Q /\ (lockout_points a == 0)%Q)
  \/ ((130 < a)%Q /\ (a < 160)%Q /\ (lockout_points a == a - 130)%Q).
Proof.
  unfold lockout_points.
  destruct (Qle_bool 160 a) eqn:E1.
  { left. split; [apply Qle_bool_true; exact E1|reflexivity]. }
  destruct (Qle_bool a 130) eqn:E2.
  { right. left. split; [apply Qle_bool_true; exact E2|reflexivity]. }
  right. right. split; [apply Qle_bool_false; exact E2|].
  split; [apply Qle_bool_false; exact E1|]. field.
Qed.

Lemma rom_points_cases (arc : Q) :
  ((70 <= arc)%Q /\ (rom_points arc == 20)%Q)
  \/ ((arc <= 20)%Q /\ (rom_points arc == 0)%Q)
  \/ ((20 < arc)%Q /\ (arc < 70)%Q
      /\ (rom_points arc == (2 # 5) * (arc - 20))%Q).
Proof.
  unfold rom_points.
  destruct (Qle_bool 70 arc) eqn:E1.
  { left. split; [apply Qle_bool_true; exact E1|reflexivity]. }
  destruct (Qle_bool arc 20) eqn:E2.
  { right. left. split; [apply Qle_bool_true; exact E2|reflexivity]. }
  right. right. split; [apply Qle_bool_false; exact E2|].
  split; [apply Qle_bool_false; exact E1|]. field.
Qed.

(** Two strict comparisons that hold together or fail together. *)
Lemma Qlt_bool_ext (a b c d : Q) :
  ((a < b)%Q <-> (c < d)%Q) -> Qlt_bool a b = Qlt_bool c d.
Proof.
  intros H. destruct (Qlt_bool a b) eqn:E1, (Qlt_bool c d) eqn:E2;
    try reflexivity.
  - apply Qlt_bool_true in E1. apply Qlt_bool_false in E2.
    exfalso. apply (Qlt_not_le c d); [apply H; exact E1|exact E2].
  - apply Qlt_bool_false in E1. apply Qlt_bool_true in E2.
    exfalso. apply (Qlt_not_le a b); [apply H; exact E2|exact E1].
Qed.

Lemma fdiv_finite (x y : Q) :
  Qeq_bool y 0 = false -> fdiv (Finite x) (Finite y) = Finite (x / y).
Proof. intros H. cbn [fdiv]. rewrite H. reflexivity. Qed.

(** The depth component on a finite angle: its credit and its label. *)
Lemma depth_component_spec (a p : Q) (e : list string) :
  exists p',
    depth_component (Finite a) (Finite p, e)
    = (Finite p', e ++ (if Qlt_bool 115 a then [ERR_DEPTH] else []))
    /\ (p' == p + depth_points a)%Q.
Proof.
  unfold depth_component, depth_points, DEPTH_FULL, DEPTH_ZERO, fge.
  cbn [fle].
  destruct (Qle_bool a 90) eqn:E1.
  { apply Qle_bool_true in E1.
    rewrite Qlt_bool_of_le by lra. rewrite app_nil_r.
    eexists. split; reflexivity. }
  apply Qle_bool_false in E1.
  destruct (Qle_bool 140 a) eqn:E2.
  { apply Qle_bool_true in E2.
    rewrite Qlt_bool_of_lt by lra.
    exists p. split; [reflexivity|ring]. }
  apply Qle_bool_false in E2.
  cbn [fsub fneg fadd]. rewrite fdiv_finite by reflexivity.
  cbn [fadd fneg fmul flt].
  match goal with
  | |- context [Qlt_bool ?pct (1 # 2)] =>
      assert (Hpct : (pct == (140 - a) * (1 # 50))%Q) by field;
      rewrite (Qlt_bool_ext pct (1 # 2) 115 a)
  end.
  - destruct (Qlt_bool 115 a); [|rewrite app_nil_r];
      eexists; split; reflexivity.
  - rewrite Hpct. split; intros H; lra.
Qed.

(** The lockout component on a finite angle. *)
Lemma lockout_component_spec (a p : Q) (e : list string) :
  exists p',
    lockout_component (Finite a) (Finite p, e)
    = (Finite p', e ++ (if Qlt_bool a 145 then [ERR_LOCKOUT] else []))
    /\ (p' == p + lockout_points a)%Q.
Proof.
  unfold lockout_component, lockout_points, LOCK_FULL, LOCK_ZERO, fge.
  cbn [fle].
  destruct (Qle_bool 160 a) eqn:E1.
  { apply Qle_bool_true in E1.
    rewrite Qlt_bool_of_le by lra. rewrite app_nil_r.
    eexists. split; reflexivity. }
  apply Qle_bool_false in E1.
  destruct (Qle_bool a 130) eqn:E2.
  { apply Qle_bool_true in E2.
    rewrite Qlt_bool_of_lt by lra.
    exists p. split; [reflexivity|ring]. }
  apply Qle_bool_false in E2.
  cbn [fsub fneg fadd]. rewrite fdiv_finite by reflexivity.
  cbn [fadd fneg fmul flt].
  match goal with
  | |- context [Qlt_bool ?pct (1 # 2)] =>
      assert (Hpct : (pct == (a - 130) * (1 # 30))%Q) by field;
      rewrite (Qlt_bool_ext pct (1 # 2) a 145)
  end.
  - destruct (Qlt_bool a 145); [|rewrite app_nil_r];
      eexists; split; reflexivity.
  - rewrite Hpct. split; intros H; lra.
Qed.

(** The range-of-motion component on a finite arc. *)
Lemma rom_component_spec (arc p : Q) (e : list string) :
  exists p',
    rom_component (Finite arc) (Finite p, e)
    = (Finite p', e ++ (if Qle_bool arc 20 then [ERR_ROM] else []))
    /\ (p' == p + rom_points arc)%Q.
Proof.
  unfold rom_component, rom_points, ARC_FULL, ARC_ZERO, fge.
  cbn [fle].
  destruct (Qle_bool 70 arc) eqn:E1.
  { apply Qle_bool_true in E1.
    rewrite (Qle_bool_of_lt arc 20) by lra. rewrite app_nil_r.
    eexists. split; reflexivity. }
  destruct (Qle_bool arc 20) eqn:E2.
  { exists p. split; [reflexivity|ring]. }
  cbn [fsub fneg fadd]. rewrite fdiv_finite by reflexivity.
  cbn [fadd fneg fmul].
  rewrite app_nil_r. eexists. split; reflexivity.
Qed.

(** On a finite repetition the scorer is a function of the least and the
    greatest angle: the truncated sum of the three credits, and the labels
    of [heuristic_labels]. *)
Lemma score_rep_heuristic_extremes (x : pyfloat) (t : list pyfloat)
  (qs : list Q) :
  all_finite (x :: t) = Some qs ->
  exists lo hi pts,
    In lo qs /\ In hi qs
    /\ (forall q, In q qs -> (lo <= q)%Q /\ (q <= hi)%Q)
    /\ (pts == depth_points lo + lockout_points hi + rom_points (hi - lo))%Q
    /\ score_rep_heuristic (x :: t)
       = Some (clamp_0_100 (Z.quot (Qnum pts) (Z.pos (Qden pts))),
               heuristic_labels lo hi).
Proof.
  intros H.
  destruct (all_finite_cons _ _ _ H) as (q & qt & -> & -> & Ht).
  destruct (py_min_from_least t q qt Ht) as (lo & Hlo & Hlo_in & Hlo_le).
  destruct (py_max_from_greatest t q qt Ht) as (hi & Hhi & Hhi_in & Hhi_le).
  exists lo, hi.
  unfold score_rep_heuristic. rewrite Hlo, Hhi. cbn [fsub fneg fadd].
  destruct (depth_component_spec lo 0 []) as (p1 & E1 & Hp1). rewrite E1.
  destruct (lockout_component_spec hi p1
              ([] ++ (if Qlt_bool 115 lo then [ERR_DEPTH] else [])))
    as (p2 & E2 & Hp2).
  rewrite E2.
  destruct (rom_component_spec (hi + - lo) p2
              (([] ++ (if Qlt_bool 115 lo then [ERR_DEPTH] else []))
               ++ (if Qlt_bool hi 145 then [ERR_LOCKOUT] else [])))
    as (p3 & E3 & Hp3).
  rewrite E3. cbn [py_int].
  exists p3. split; [exact Hlo_in|]. split; [exact Hhi_in|]. split.
  { intros z Hz. split; [apply Hlo_le|apply Hhi_le]; exact Hz. }
  split.
  { rewrite Hp3, Hp2, Hp1. unfold Qminus. ring. }
  unfold heuristic_labels. cbn [app]. rewrite <- app_assoc. reflexivity.
Qed.

Lemma depth_points_antitone (a b : Q) :
  (a <= b)%Q -> (depth_points b <= depth_points a)%Q.
Proof.
  intros H.
  destruct (depth_points_cases a) as [[? Ea]|[[? Ea]|(? & ? & Ea)]];
    destruct (depth_points_cases b) as [[? Eb]|[[? Eb]|(? & ? & Eb)]];
    lra.
Qed.

Lemma lockout_points_monotone (a b : Q) :
  (a <= b)%Q -> (lockout_points a <= lockout_points b)%Q.
Proof.
  intros H.
  destruct (lockout_points_cases a) as [[? Ea]|[[? Ea]|(? & ? & Ea)]];
    destruct (lockout_points_cases b) as [[? Eb]|[[? Eb]|(? & ? & Eb)]];
    lra.
Qed.

Lemma rom_points_monotone (a b : Q) :
  (a <= b)%Q -> (rom_points a <= rom_points b)%Q.
Proof.
  intros H.
  destruct (rom_points_cases a) as [[? Ea]|[[? Ea]|(? & ? & Ea)]];
    destruct (rom_points_cases b) as [[? Eb]|[[? Eb]|(? & ? & Eb)]];
    lra.
Qed.

(** The credits of a repetition add up to at least [10] and at most [100]. *)
Lemma heuristic_points_bounds (lo hi : Q) :
  (lo <= hi)%Q ->
  (10 <= depth_points lo + lockout_points hi + rom_points (hi - lo))%Q
  /\ (depth_points lo + lockout_points hi + rom_points (hi - lo) <= 100)%Q.
Proof.
  intros H.
  destruct (depth_points_cases lo) as [[? Ea]|[[? Ea]|(? & ? & Ea)]];
    destruct (lockout_points_cases hi) as [[? Eb]|[[? Eb]|(? & ? & Eb)]];
    destruct (rom_points_cases (hi - lo)) as [[? Ec]|[[? Ec]|(? & ? & Ec)]];
    split; lra.
Qed.

Lemma trunc_comp_nonneg (q q' : Q) :
  (0 <= q)%Q -> (q == q')%Q ->
  Z.quot (Qnum q) (Z.pos (Qden q)) = Qfloor q'.
Proof.
  intros H E. rewrite trunc_nonneg by exact H. apply Qfloor_comp. exact E.
Qed.






(** X2. A finite repetition that goes down to [90] degrees or below and up
    to [160] degrees or above earns full credit: the score [100] and no
    label. *)
Theorem heuristic_full_credit :
  forall (rep : list pyfloat) (qs : list Q) (deep high : Q),
    all_finite rep = Some qs ->
    In deep qs -> (deep <= 90)%Q ->
    In high qs -> (160 <= high)%Q ->
    score_rep_heuristic rep = Some (100, []).
Proof.
  intros rep qs deep high Hfin Hdeep Hd Hhigh Hh.
  destruct rep as [|x t].
  { injection Hfin as <-. destruct Hdeep. }
  destruct (score_rep_heuristic_extremes x t qs Hfin)
    as (lo & hi & pts & Hlo & Hhi & Hbetween & Hpts & E).
  assert (Hlo90 : (lo <= 90)%Q).
  { apply Qle_trans with deep; [apply Hbetween; exact Hdeep|exact Hd]. }
  assert (Hhi160 : (160 <= hi)%Q).
  { apply Qle_trans with high; [exact Hh|apply Hbetween; exact Hhigh]. }
  assert (Hsum : (pts == 100)%Q).
  { rewrite Hpts.
    destruct (depth_points_cases lo) as [[? Ea]|[[? Ea]|(? & ? & Ea)]];
      destruct (lockout_points_cases hi) as [[? Eb]|[[? Eb]|(? & ? & Eb)]];
      destruct (rom_points_cases (hi - lo)) as [[? Ec]|[[? Ec]|(? & ? & Ec)]];
      lra. }
  rewrite E. f_equal. f_equal.
  - rewrite (trunc_comp_nonneg pts 100); [reflexivity| |exact Hsum].
    rewrite Hsum. discriminate.
  - unfold heuristic_labels.
    rewrite (Qlt_bool_of_le 115 lo) by lra.
    rewrite (Qlt_bool_of_le hi 145) by lra.
    rewrite (Qle_bool_of_lt (hi - lo) 20) by lra. reflexivity.
Qed.

Lemma heuristic_full_credit_witness :
  all_finite [Finite 170; Finite 120; Finite 88; Finite 130; Finite 165]
  = Some [170; 120; 88; 130; 165]%Q
  /\ In 88%Q [170; 120; 88; 130; 165]%Q /\ (88 <= 90)%Q
  /\ In 170%Q [170; 120; 88; 130; 165]%Q /\ (160 <= 170)%Q
  /\ score_rep_heuristic
       [Finite 170; Finite 120; Finite 88; Finite 130; Finite 165]
     = Some (100, []).
Proof.
  assert (Hfin : all_finite
                   [Finite 170; Finite 120; Finite 88; Finite 130; Finite 165]
                 = Some [170; 120; 88; 130; 165]%Q) by reflexivity.
  assert (H1 : In 88%Q [170; 120; 88; 130; 165]%Q)
    by (simpl; right; right; left; reflexivity).
  assert (H2 : (88 <= 90)%Q) by (vm_compute; discriminate).
  assert (H3 : In 170%Q [170; 120; 88; 130; 165]%Q)
    by (simpl; left; reflexivity).
  assert (H4 : (160 <= 170)%Q) by (vm_compute; discriminate).
  refine (conj Hfin (conj H1 (conj H2 (conj H3 (conj H4 _))))).
  exact (heuristic_full_credit _ _ 88%Q 170%Q Hfin H1 H2 H3 H4).
Defined.



(** X4. The heuristic score never drops when frames are added: if every
    angle of one finite repetition occurs in another, the other scores at
    least as much. *)
Theorem heuristic_more_frames :
  forall (rep rep' : list pyfloat) (qs qs' : list Q) (s s' : Z)
         (errs errs' : list string),
    rep <> [] ->
    all_finite rep = Some qs ->
    all_finite rep' = Some qs' ->
    incl qs qs' ->
    score_rep_heuristic rep = Some (s, errs) ->
    score_rep_heuristic rep' = Some (s', errs') ->
    s <= s'.
Proof.
  intros rep rep' qs qs' s s' errs errs' Hne Hfin Hfin' Hincl Hs Hs'.
  destruct rep as [|x t]; [congruence|].
  destruct (score_rep_heuristic_extremes x t qs Hfin)
    as (lo & hi & pts & Hlo & Hhi & Hbetween & Hpts & E).
  destruct rep' as [|x' t'].
  { injection Hfin' as <-. destruct (Hincl lo Hlo). }
  destruct (score_rep_heuristic_extremes x' t' qs' Hfin')
    as (lo' & hi' & pts' & Hlo' & Hhi' & Hbetween' & Hpts' & E').
  rewrite E in Hs. rewrite E' in Hs'.
  injection Hs as <- _. injection Hs' as <- _.
  assert (H1 : (lo' <= lo)%Q) by (apply Hbetween'; apply Hincl; exact Hlo).
  assert (H2 : (hi <= hi')%Q) by (apply Hbetween'; apply Hincl; exact Hhi).
  assert (Hle : (lo <= hi)%Q) by (apply Hbetween; exact Hlo).
  assert (Hle' : (lo' <= hi')%Q) by (apply Hbetween'; exact Hlo').
  destruct (heuristic_points_bounds lo hi Hle) as [H10 _].
  destruct (heuristic_points_bounds lo' hi' Hle') as [H10' _].
  pose proof (depth_points_antitone lo' lo H1) as Hd.
  pose proof (lockout_points_monotone hi hi' H2) as Hl.
  assert (Harc : (hi - lo <= hi' - lo')%Q) by lra.
  pose proof (rom_points_monotone _ _ Harc) as Hr.
  rewrite <- Hpts in H10. rewrite <- Hpts' in H10'.
  rewrite !trunc_nonneg by lra.
  apply clamp_mono. apply Qfloor_resp_le. rewrite Hpts, Hpts'. lra.
Qed.

Lemma heuristic_more_frames_witness :
  [Finite 120; Finite 150] <> []
  /\ all_finite [Finite 120; Finite 150] = Some [120; 150]%Q
  /\ all_finite [Finite 150; Finite 100; Finite 120] = Some [150; 100; 120]%Q
  /\ incl [120; 150]%Q [150; 100; 120]%Q
  /\ score_rep_heuristic [Finite 120; Finite 150] = Some (44, [ERR_DEPTH])
  /\ score_rep_heuristic [Finite 150; Finite 100; Finite 120] = Some (72, [])
  /\ 44 <= 72.
Proof.
  assert (Hne : [Finite 120; Finite 150] <> []) by discriminate.
  assert (Hfin : all_finite [Finite 120; Finite 150] = Some [120; 150]%Q)
    by reflexivity.
  assert (Hfin' : all_finite [Finite 150; Finite 100; Finite 120]
                  = Some [150; 100; 120]%Q) by reflexivity.
  assert (Hincl : incl [120; 150]%Q [150; 100; 120]%Q).
  { intros q [<-|[<-|[]]]; simpl; auto. }
  assert (E : score_rep_heuristic [Finite 120; Finite 150]
              = Some (44, [ERR_DEPTH])) by reflexivity.
  assert (E' : score_rep_heuristic [Finite 150; Finite 100; Finite 120]
               = Some (72, [])) by reflexivity.
  refine (conj Hne (conj Hfin (conj Hfin' (conj Hincl (conj E (conj E' _)))))).
  exact (heuristic_more_frames _ _ _ _ _ _ _ _ Hne Hfin Hfin' Hincl E E').
Defined.

(* ------------------------------------------------------------------ *)
(** ** The distance and the blend, for any alignment routine           *)
(* ------------------------------------------------------------------ *)







(** X6. With a positive finite threshold, [calculate_form_score] raises on
    a distance that is [NaN] or [+inf] (the conversion [int(raw)] fails),
    although [+inf] is beyond every threshold; on [-inf] it returns [100].
    A threshold of [NaN] is not rejected as degenerate: a positive finite
    distance then raises as well. *)
Theorem calculate_form_score_non_finite :
  forall m d : Q,
    (0 < m)%Q ->
    calculate_form_score NaN (Finite m) = None
    /\ calculate_form_score PosInf (Finite m) = None
    /\ calculate_form_score NegInf (Finite m) = Some 100
    /\ ((0 < d)%Q -> calculate_form_score (Finite d) NaN = None)
    /\ ((d <= 0)%Q -> calculate_form_score (Finite d) NaN = Some 100).
Proof.
  intros m d Hm.
  assert (Hm0 : Qle_bool m 0 = false) by (apply Qle_bool_of_lt; exact Hm).
  assert (Hpos : Qlt_bool 0 m = true) by (apply Qlt_bool_of_lt; exact Hm).
  unfold calculate_form_score. cbn [fle]. rewrite Hm0.
  cbn [fdiv fsub fneg fadd fmul py_int option_map].
  rewrite (Qeq_bool_of_lt m Hm). unfold inf_of_sign. rewrite Hpos.
  cbn [fneg fadd fmul py_int option_map].
  repeat split.
  - intros Hd. rewrite (Qle_bool_of_lt _ _ Hd). reflexivity.
  - intros Hd. apply Qle_bool_iff in Hd. rewrite Hd. reflexivity.
Qed.

Lemma calculate_form_score_non_finite_witness :
  (0 < 20)%Q
  /\ calculate_form_score NaN (Finite 20) = None
  /\ calculate_form_score PosInf (Finite 20) = None
  /\ calculate_form_score NegInf (Finite 20) = Some 100.
Proof.
  assert (Hm : (0 < 20)%Q) by reflexivity.
  destruct (calculate_form_score_non_finite 20 1 Hm) as (H1 & H2 & H3 & _).
  exact (conj Hm (conj H1 (conj H2 H3))).
Defined.



(* ------------------------------------------------------------------ *)
(** ** What the evaluation returns                                     *)
(* ------------------------------------------------------------------ *)

Lemma flt_fle_trans (a b c : pyfloat) :
  flt a b = true -> fle b c = true -> flt a c = true.
Proof.
  destruct a as [x| | |], b as [y| | |], c as [z| | |]; simpl;
    try congruence.
  intros H1 H2. apply Qlt_bool_true in H1. apply Qle_bool_true in H2.
  apply Qlt_bool_of_lt. apply Qlt_le_trans with y; assumption.
Qed.

(** One turn of the search: the state is kept, or replaced by a non-empty
    reference that is strictly closer. *)
Lemma best_step_cases
  (fastdtw : list Q -> list Q -> option dtw_result) (rep : list pyfloat)
  (st : string * pyfloat) (k : string) (v : list pyfloat) :
  is_distance (snd st) ->
  let st1 := best_step fastdtw rep st (k, v) in
  is_distance (snd st1)
  /\ fle (snd st1) (snd st) = true
  /\ ((st1 = st
       /\ (v <> [] ->
           fle (snd st) (calculate_dtw_distance fastdtw rep v) = true))
      \/ (v <> []
          /\ st1 = (k, calculate_dtw_distance fastdtw rep v)
          /\ flt (calculate_dtw_distance fastdtw rep v) (snd st) = true)).
Proof.
  intros Hst. unfold best_step. destruct v as [|a v'].
  - split; [exact Hst|]. split; [apply fle_refl; exact Hst|].
    left. split; [reflexivity|congruence].
  - destruct (calculate_dtw_distance_is_finite fastdtw rep (a :: v'))
      as [q Hq].
    rewrite Hq. destruct (flt (Finite q) (snd st)) eqn:Hlt.
    + split; [right; exists q; reflexivity|].
      split; [apply flt_fle; exact Hlt|].
      right. split; [discriminate|]. split; reflexivity.
    + split; [exact Hst|]. split; [apply fle_refl; exact Hst|].
      left. split; [reflexivity|]. intros _.
      apply flt_false_fle; assumption.
Qed.

(** The search keeps the first of the closest non-empty references: the
    state is unchanged and no reference is closer, or the library splits
    around the selected reference, strictly closer than the references
    before it and at least as close as those after it. *)
Lemma best_fold_first
  (fastdtw : list Q -> list Q -> option dtw_result) (rep : list pyfloat)
  (lib : library) :
  forall st : string * pyfloat,
    is_distance (snd st) ->
    let st' := fold_left (best_step fastdtw rep) lib st in
    (st' = st
     /\ forall k v, In (k, v) lib -> v <> [] ->
                    fle (snd st) (calculate_dtw_distance fastdtw rep v) = true)
    \/ (exists pre ref post,
           lib = pre ++ (fst st', ref) :: post
           /\ ref <> []
           /\ calculate_dtw_distance fastdtw rep ref = snd st'
           /\ flt (snd st') (snd st) = true
           /\ (forall k v, In (k, v) pre -> v <> [] ->
                 flt (snd st') (calculate_dtw_distance fastdtw rep v) = true)
           /\ (forall k v, In (k, v) post -> v <> [] ->
                 fle (snd st') (calculate_dtw_distance fastdtw rep v) = true)).
Proof.
  induction lib as [|[k v] lib IH]; intros st Hst; cbn [fold_left].
  - left. split; [reflexivity|]. intros k v [].
  - destruct (best_step_cases fastdtw rep st k v Hst) as (Hd1 & Hle1 & Hcase).
    set (st1 := best_step fastdtw rep st (k, v)) in *.
    destruct (IH st1 Hd1) as [[Heq Hall] | (pre & ref & post & Hsplit & Hne
                                             & Hdist & Hlt & Hpre & Hpost)].
    + rewrite Heq. destruct Hcase as [[E Hv] | (Hv & E & Hlt)].
      * left. split; [exact E|]. rewrite E in Hall.
        intros k' v' [Hin | Hin] Hne.
        -- injection Hin as <- <-. apply Hv. exact Hne.
        -- apply (Hall k' v' Hin Hne).
      * right. exists [], v, lib. rewrite E. cbn [fst snd app].
        split; [reflexivity|]. split; [exact Hv|]. split; [reflexivity|].
        split; [exact Hlt|]. split; [intros k' v' []|].
        rewrite E in Hall. exact Hall.
    + right. exists ((k, v) :: pre), ref, post.
      split; [rewrite Hsplit at 1; reflexivity|]. split; [exact Hne|].
      split; [exact Hdist|].
      split; [apply flt_fle_trans with (snd st1); assumption|].
      split; [|exact Hpost].
      intros k' v' [Hin | Hin] Hne'.
      * injection Hin as <- <-.
        destruct Hcase as [[E Hv] | (Hv & E & _)].
        -- apply flt_fle_trans with (snd st1); [exact Hlt|].
           rewrite E. apply Hv. exact Hne'.
        -- apply flt_fle_trans with (snd st1); [exact Hlt|].
           replace (calculate_dtw_distance fastdtw rep v) with (snd st1)
             by (rewrite E; reflexivity).
           apply fle_refl. exact Hd1.
      * apply (Hpre k' v' Hin Hne').
Qed.







(** X9. Ties between references are broken by position.  When the
    evaluation of a non-empty repetition against a non-empty library reports
    a name other than ["no_reference"], that name is the key of a non-empty
    reference, the distance reported is the distance to it, every non-empty
    reference before it in the library is strictly farther, and no
    non-empty reference after it is closer. *)
Theorem evaluate_first_minimum :
  forall (fastdtw : list Q -> list Q -> option dtw_result)
         (rep : list pyfloat) (lib : library) (m : pyfloat)
         (name : string) (d : pyfloat) (final : Z),
    rep <> [] ->
    lib <> [] ->
    name <> "no_reference"%string ->
    evaluate_against_library fastdtw rep lib m = Some (name, d, final) ->
    exists pre ref post,
      lib = pre ++ (name, ref) :: post
      /\ ref <> []
      /\ d = calculate_dtw_distance fastdtw rep ref
      /\ (forall k v, In (k, v) pre -> v <> [] ->
            flt d (calculate_dtw_distance fastdtw rep v) = true)
      /\ (forall k v, In (k, v) post -> v <> [] ->
            fle d (calculate_dtw_distance fastdtw rep v) = true).
Proof.
  intros fastdtw rep lib m name d final Hrep Hlib Hname.
  unfold evaluate_against_library.
  destruct rep as [|x t]; [congruence|].
  destruct lib as [|item lib']; [congruence|].
  set (lib := item :: lib') in *.
  assert (Hinit : is_distance (snd ("no_reference"%string, PosInf)))
    by (left; reflexivity).
  pose proof (best_fold_first fastdtw (x :: t) lib _ Hinit) as Hfirst.
  cbv zeta in Hfirst.
  destruct (fold_left (best_step fastdtw (x :: t)) lib
                      ("no_reference"%string, PosInf))
    as [best_name best_distance].
  cbn [fst snd] in Hfirst.
  destruct (String.eqb best_name "no_reference"
            || negb (isfinite best_distance)) eqn:Hcond.
  { destruct (score_rep_heuristic (x :: t)) as [[h errs]|]; [|discriminate].
    intros [= <- _ _]. congruence. }
  apply Bool.orb_false_iff in Hcond. destruct Hcond as [Hbn _].
  destruct Hfirst as [[E _] | (pre & ref & post & Hsplit & Hne & Hdist & _
                                & Hpre & Hpost)].
  { injection E as -> _. discriminate Hbn. }
  destruct (dict_get lib best_name) as [ref'|]; [|discriminate].
  destruct (score_rep_blended fastdtw (x :: t) ref') as [[fs e]|];
    [|discriminate].
  intros [= <- <- _].
  exists pre, ref, post. split; [exact Hsplit|]. split; [exact Hne|].
  split; [symmetry; exact Hdist|]. split; assumption.
Qed.

Lemma evaluate_first_minimum_witness :
  [Finite 100; Finite 170] <> []
  /\ [("far"%string, [Finite 150; Finite 160]);
      ("first"%string, [Finite 105; Finite 175]);
      ("second"%string, [Finite 105; Finite 175])] <> []
  /\ "first"%string <> "no_reference"%string
  /\ evaluate_against_library fastdtw_exact [Finite 100; Finite 170]
       [("far"%string, [Finite 150; Finite 160]);
        ("first"%string, [Finite 105; Finite 175]);
        ("second"%string, [Finite 105; Finite 175])] (Finite 1)
     = Some ("first"%string, Finite (10 # 2), 82)
  /\ exists pre ref post,
      [("far"%string, [Finite 150; Finite 160]);
       ("first"%string, [Finite 105; Finite 175]);
       ("second"%string, [Finite 105; Finite 175])]
      = pre ++ ("first"%string, ref) :: post
      /\ ref <> []
      /\ Finite (10 # 2)
         = calculate_dtw_distance fastdtw_exact [Finite 100; Finite 170] ref
      /\ (forall k v, In (k, v) pre -> v <> [] ->
            flt (Finite (10 # 2))
                (calculate_dtw_distance fastdtw_exact
                   [Finite 100; Finite 170] v) = true)
      /\ (forall k v, In (k, v) post -> v <> [] ->
            fle (Finite (10 # 2))
                (calculate_dtw_distance fastdtw_exact
                   [Finite 100; Finite 170] v) = true).
Proof.
  assert (Hrep : [Finite 100; Finite 170] <> []) by discriminate.
  assert (Hlib : [("far"%string, [Finite 150; Finite 160]);
                  ("first"%string, [Finite 105; Finite 175]);
                  ("second"%string, [Finite 105; Finite 175])] <> [])
    by discriminate.
  assert (Hname : "first"%string <> "no_reference"%string) by discriminate.
  assert (E : evaluate_against_library fastdtw_exact [Finite 100; Finite 170]
                [("far"%string, [Finite 150; Finite 160]);
                 ("first"%string, [Finite 105; Finite 175]);
                 ("second"%string, [Finite 105; Finite 175])] (Finite 1)
              = Some ("first"%string, Finite (10 # 2), 82)) by reflexivity.
  refine (conj Hrep (conj Hlib (conj Hname (conj E _)))).
  exact (evaluate_first_minimum _ _ _ _ _ _ _ Hrep Hlib Hname E).
Defined.

Lemma best_fold_all_empty
  (fastdtw : list Q -> list Q -> option dtw_result) (rep : list pyfloat)
  (lib : library) (st : string * pyfloat) :
  Forall (fun item => snd item = []) lib ->
  fold_left (best_step fastdtw rep) lib st = st.
Proof.
  induction 1 as [|[k v] lib Hv _ IH]; [reflexivity|].
  cbn [fold_left]. cbn [snd] in Hv. subst v. exact IH.
Qed.

(** X10. The name ["no_reference"] with the penalty distance and the
    heuristic-only score is what a non-empty repetition gets from a
    non-empty library all of whose references are empty lists: they are
    skipped, and no comparison is made. *)
Theorem evaluate_all_references_empty :
  forall (fastdtw : list Q -> list Q -> option dtw_result)
         (rep : list pyfloat) (lib : library) (m : pyfloat)
         (h : Z) (errs : list string),
    rep <> [] ->
    lib <> [] ->
    Forall (fun item => snd item = []) lib ->
    score_rep_heuristic rep = Some (h, errs) ->
    evaluate_against_library fastdtw rep lib m
    = Some ("no_reference"%string, PENALTY_DISTANCE, h).
Proof.
  intros fastdtw rep lib m h errs Hrep Hlib Hall Hh.
  unfold evaluate_against_library.
  destruct rep as [|x t]; [congruence|].
  destruct lib as [|item lib']; [congruence|].
  rewrite (best_fold_all_empty fastdtw (x :: t) (item :: lib') _ Hall).
  cbn [String.eqb orb]. rewrite Hh. reflexivity.
Qed.

Lemma evaluate_all_references_empty_witness :
  [Finite 100] <> []
  /\ [("a"%string, @nil pyfloat); ("b"%string, @nil pyfloat)] <> []
  /\ Forall (fun item : string * list pyfloat => snd item = [])
       [("a"%string, []); ("b"%string, [])]
  /\ score_rep_heuristic [Finite 100] = Some (40, [ERR_LOCKOUT; ERR_ROM])
  /\ evaluate_against_library fastdtw_exact [Finite 100]
       [("a"%string, []); ("b"%string, [])] (Finite 1)
     = Some ("no_reference"%string, PENALTY_DISTANCE, 40).
Proof.
  assert (Hrep : [Finite 100] <> []) by discriminate.
  assert (Hlib : [("a"%string, @nil pyfloat); ("b"%string, @nil pyfloat)] <> [])
    by discriminate.
  assert (Hall : Forall (fun item : string * list pyfloat => snd item = [])
                   [("a"%string, []); ("b"%string, [])])
    by (repeat constructor).
  assert (Hh : score_rep_heuristic [Finite 100]
               = Some (40, [ERR_LOCKOUT; ERR_ROM])) by reflexivity.
  refine (conj Hrep (conj Hlib (conj Hall (conj Hh _)))).
  exact (evaluate_all_references_empty fastdtw_exact _ _ (Finite 1) _ _
           Hrep Hlib Hall Hh).
Defined.

(* ------------------------------------------------------------------ *)
(** ** What a detection pass returns, for any peak finder              *)
(* ------------------------------------------------------------------ *)

Lemma fold_Qmax_in (t : list Q) :
  forall x : Q, In (fold_left Qmax t x) (x :: t).
Proof.
  induction t as [|y t IH]; intros x; cbn [fold_left].
  - left. reflexivity.
  - destruct (IH (Qmax x y)) as [E | Hin].
    + rewrite <- E. unfold Qmax, GenericMinMax.gmax.
      destruct (x ?= y)%Q; [left|right; left|left]; reflexivity.
    + right. right. exact Hin.
Qed.

Lemma np_max_in (l : list Q) (m : Q) : np_max l = Some m -> In m l.
Proof.
  destruct l as [|x t]; [discriminate|]. intros [= <-]. apply fold_Qmax_in.
Qed.

Lemma validate_valid (angles : list Q) (lockout : Q) (bs : list nat) :
  forall (deep : list nat) (i : nat) (reps : list (list Q)),
    validate angles lockout bs i deep = Some reps ->
    (List.length reps <= List.length deep)%nat
    /\ Forall (valid_slice angles lockout) reps.
Proof.
  induction deep as [|v deep IH]; intros i reps H.
  - injection H as <-. split; [apply Nat.le_refl|constructor].
  - cbn [validate] in H.
    destruct (nth_error bs i) as [start|]; [|discriminate].
    destruct (nth_error bs (S i)) as [stop|]; [|discriminate].
    destruct (np_max (slice angles start stop)) as [m|] eqn:Hm; [|discriminate].
    destruct (validate angles lockout bs (S i) deep) as [rest|] eqn:Hrest;
      [|discriminate].
    destruct (IH (S i) rest Hrest) as [Hlen Hall].
    destruct (Qle_bool lockout m) eqn:Hlock; injection H as <-.
    + split; [cbn [List.length]; lia|]. constructor; [|exact Hall].
      split; [|split].
      * intros E. rewrite E in Hm. discriminate Hm.
      * exists m. split; [apply np_max_in; exact Hm|].
        apply Qle_bool_true. exact Hlock.
      * exists start, stop. reflexivity.
    + split; [cbn [List.length]; lia|exact Hall].
Qed.

Lemma deep_valleys_of_length (angles : list Q) (depth : Q) :
  forall (valleys deep : list nat),
    deep_valleys_of angles depth valleys = Some deep ->
    (List.length deep <= List.length valleys)%nat.
Proof.
  induction valleys as [|idx rest IH]; intros deep H.
  - injection H as <-. apply Nat.le_refl.
  - cbn [deep_valleys_of] in H.
    destruct (nth_error angles idx); [|discriminate].
    destruct (deep_valleys_of angles depth rest) as [d|]; [|discriminate].
    specialize (IH d eq_refl).
    destruct (Qle_bool _ _); injection H as <-; cbn [List.length]; lia.
Qed.

Lemma detect_valid (find_peaks : list Q -> Q -> nat -> list nat)
  (angles : list Q) (p : pass_params) (reps : list (list Q)) :
  _detect_reps_by_valleys find_peaks angles p = Some reps ->
  (List.length reps
   <= List.length (find_peaks (map Qopp angles) (valley_prominence p)
                              (valley_min_distance p)))%nat
  /\ Forall (valid_slice angles (lockout_min_angle p)) reps.
Proof.
  unfold _detect_reps_by_valleys.
  set (valleys := find_peaks _ _ _).
  destruct valleys as [|v vs] eqn:Ev.
  { intros [= <-]. split; [apply Nat.le_refl|constructor]. }
  destruct (deep_valleys_of angles (valley_depth_threshold p) (v :: vs))
    as [deep|] eqn:Hdeep; [|discriminate].
  pose proof (deep_valleys_of_length _ _ _ _ Hdeep) as Hlen.
  destruct deep as [|a rest].
  { intros [= <-]. split; [cbn; lia|constructor]. }
  intros H. destruct (validate_valid _ _ _ _ _ _ H) as [Hl Hall].
  split; [lia|exact Hall].
Qed.

(** X11. Whatever indices the peak finder answers, a detection pass that
    returns gives at most one repetition per valley found, and every
    repetition it gives is a non-empty slice [angles[s:e]] of the series
    that holds an angle at or above the lockout threshold of the pass. *)
Theorem detect_reps_by_valleys_valid :
  forall (find_peaks : list Q -> Q -> nat -> list nat)
         (angles : list Q) (p : pass_params) (reps : list (list Q)),
    _detect_reps_by_valleys find_peaks angles p = Some reps ->
    (List.length reps
     <= List.length (find_peaks (map Qopp angles) (valley_prominence p)
                                (valley_min_distance p)))%nat
    /\ Forall (valid_slice angles (lockout_min_angle p)) reps.
Proof. exact detect_valid. Qed.

Lemma detect_reps_by_valleys_valid_witness :
  _detect_reps_by_valleys (fun _ _ _ => [2; 6; 10]%nat)
    [170; 150; 100; 150; 140; 130; 100; 130; 140; 150; 100; 150; 170]%Q
    PRIMARY
  = Some [[170; 150; 100; 150]; [140; 150; 100; 150; 170]]%Q
  /\ (List.length [[170; 150; 100; 150]; [140; 150; 100; 150; 170]]%Q
      <= List.length [2; 6; 10]%nat)%nat
  /\ Forall (valid_slice
               [170; 150; 100; 150; 140; 130; 100; 130; 140; 150; 100; 150;
                170]%Q 145)
            [[170; 150; 100; 150]; [140; 150; 100; 150; 170]]%Q.
Proof.
  assert (E : _detect_reps_by_valleys (fun _ _ _ => [2; 6; 10]%nat)
                [170; 150; 100; 150; 140; 130; 100; 130; 140; 150; 100; 150;
                 170]%Q PRIMARY
              = Some [[170; 150; 100; 150]; [140; 150; 100; 150; 170]]%Q)
    by reflexivity.
  split; [exact E|].
  exact (detect_reps_by_valleys_valid _ _ _ _ E).
Defined.

(** X12. Every repetition that [segment_reps] returns with the default
    thresholds is a non-empty slice of the repaired series and reaches
    [120] degrees; it reaches [145] degrees when only the primary pass ran.
    [count_reps] is the number of repetitions returned, and at most two
    passes run. *)
Theorem segment_reps_valid :
  forall (find_peaks : list Q -> Q -> nat -> list nat)
         (elbow_angles : list pyfloat) (passes : list pass_params)
         (reps : list (list Q)),
    segment_reps find_peaks elbow_angles PRIMARY = (passes, Some reps) ->
    Forall (valid_slice (prepared elbow_angles) 120) reps
    /\ (passes <> [PRIMARY; FALLBACK] ->
        Forall (valid_slice (prepared elbow_angles) 145) reps)
    /\ count_reps reps = List.length reps
    /\ (List.length passes <= 2)%nat.
Proof.
  intros find_peaks elbow_angles passes reps.
  unfold segment_reps. fold (prepared elbow_angles).
  assert (Hcount : forall l : list (list Q), count_reps l = List.length l)
    by (intros [|r l]; reflexivity).
  assert (Hweaken : forall l,
             Forall (valid_slice (prepared elbow_angles) 145) l ->
             Forall (valid_slice (prepared elbow_angles) 120) l).
  { intros l. apply Forall_impl. intros r (Hne & (q & Hq & Hle) & Hs).
    split; [exact Hne|]. split; [|exact Hs]. exists q. split; [exact Hq|].
    apply Qle_trans with 145%Q; [discriminate|exact Hle]. }
  destruct (List.length elbow_angles <? 2)%nat.
  { intros [= <- <-]. repeat split; try constructor. cbn. lia. }
  destruct (_detect_reps_by_valleys find_peaks (prepared elbow_angles) PRIMARY)
    as [[|r rs]|] eqn:Hprimary.
  - intros [= <- Hfb].
    destruct (detect_valid _ _ _ _ Hfb) as [_ Hall].
    split; [exact Hall|]. split; [congruence|].
    split; [apply Hcount|cbn; lia].
  - intros [= <- <-].
    destruct (detect_valid _ _ _ _ Hprimary) as [_ Hall].
    split; [apply Hweaken; exact Hall|]. split; [intros _; exact Hall|].
    split; [apply Hcount|cbn; lia].
  - intros H. discriminate H.
Qed.

Lemma segment_reps_valid_witness :
  segment_reps
    (fun _ prominence _ => if Qle_bool prominence 4 then [2]%nat else [])
    [Finite 170; NaN; Finite 160; Finite 165; PosInf; Finite 170] PRIMARY
  = ([PRIMARY; FALLBACK], Some [[170; 330 # 2; 160; 165; 335 # 2; 170]%Q])
  /\ Forall (valid_slice
               (prepared [Finite 170; NaN; Finite 160; Finite 165; PosInf;
                          Finite 170]) 120)
            [[170; 330 # 2; 160; 165; 335 # 2; 170]%Q].
Proof.
  assert (E : segment_reps
                (fun _ prominence _ =>
                   if Qle_bool prominence 4 then [2]%nat else [])
                [Finite 170; NaN; Finite 160; Finite 165; PosInf; Finite 170]
                PRIMARY
              = ([PRIMARY; FALLBACK],
                 Some [[170; 330 # 2; 160; 165; 335 # 2; 170]%Q]))
    by reflexivity.
  split; [exact E|].
  exact (proj1 (segment_reps_valid _ _ _ _ E)).
Defined.

(* ------------------------------------------------------------------ *)
(** ** The slices of a pass and the frames of the series               *)
(* ------------------------------------------------------------------ *)

Lemma firstn_plus {A : Type} (a b : nat) :
  forall l : list A, firstn (a + b) l = firstn a l ++ firstn b (skipn a l).
Proof.
  induction a as [|a IH]; intros l; [reflexivity|].
  destruct l as [|x l]; [destruct b; reflexivity|].
  cbn [Nat.add firstn skipn app]. rewrite IH. reflexivity.
Qed.

(** Two adjacent ranges of a list make up the range that spans them. *)
Lemma py_slice_app {A : Type} (l : list A) (s m e : nat) :
  (s <= m)%nat -> (m <= e)%nat ->
  py_slice l s m ++ py_slice l m e = py_slice l s e.
Proof.
  intros Hsm Hme. unfold py_slice.
  replace (e - s)%nat with ((m - s) + (e - m))%nat by lia.
  rewrite firstn_plus. f_equal. f_equal.
  rewrite skipn_skipn. f_equal. lia.
Qed.

Lemma slice_py_slice (angles : list Q) (s e : nat) :
  slice angles s e = py_slice angles s e.
Proof. reflexivity. Qed.

Lemma last_in {A : Type} (l : list A) :
  forall x d : A, In (last (x :: l) d) (x :: l).
Proof.
  induction l as [|y l IH]; intros x d.
  - left. reflexivity.
  - right. apply (IH y d).
Qed.

Lemma last_default {A : Type} (l : list A) :
  forall x d d' : A, last (x :: l) d = last (x :: l) d'.
Proof.
  induction l as [|y l IH]; intros x d d'; [reflexivity|].
  change (last (y :: l) d = last (y :: l) d'). apply IH.
Qed.

(** The ranges between consecutive elements of an increasing list span the
    range from its first to its last element. *)
Lemma consecutive_slices_concat {A : Type} (l : list A) (bs : list nat) :
  forall b0 : nat,
    StronglySorted Nat.lt (b0 :: bs) ->
    List.concat
      (map (fun c => py_slice l (fst c) (snd c)) (combine (b0 :: bs) bs))
    = py_slice l b0 (last bs b0).
Proof.
  induction bs as [|b1 r IH]; intros b0 Hs.
  - cbn. unfold py_slice. rewrite Nat.sub_diag. reflexivity.
  - change (combine (b0 :: b1 :: r) (b1 :: r))
      with ((b0, b1) :: combine (b1 :: r) r).
    cbn [map List.concat fst snd].
    inversion Hs as [|? ? Hs' Hall]; subst.
    rewrite (IH b1 Hs').
    assert (Hb01 : (b0 < b1)%nat) by (inversion Hall; assumption).
    assert (Hlast : (b1 <= last r b1)%nat).
    { destruct r as [|b2 r']; [apply Nat.le_refl|].
      inversion Hs' as [|? ? _ Hall']; subst.
      rewrite Forall_forall in Hall'.
      specialize (Hall' _ (last_in r' b2 b1)). unfold Nat.lt in Hall'. lia. }
    rewrite py_slice_app by lia.
    destruct r as [|b2 r']; [reflexivity|].
    cbn [last]. f_equal. apply (last_default r' b2).
Qed.

(** Under the contract of the peak finder, a pass with at least one deep
    valley returns the slices of the boundary pairs that reach the lockout
    threshold, the boundaries increasing strictly from [0] to the length of
    the series. *)
Lemma detect_by_boundaries (find_peaks : list Q -> Q -> nat -> list nat)
  (angles : list Q) (p : pass_params) :
  let n := List.length angles in
  let valleys :=
    find_peaks (map Qopp angles) (valley_prominence p)
               (valley_min_distance p) in
  let deep := deep_among angles (valley_depth_threshold p) valleys in
  let bs := (0%nat :: midpoints deep) ++ [n] in
  StronglySorted Nat.lt valleys ->
  Forall (fun i => (0 < i < n)%nat) valleys ->
  deep <> [] ->
  StronglySorted Nat.lt bs
  /\ candidates n deep = combine bs (tl bs)
  /\ List.length (candidates n deep) = List.length deep
  /\ Forall (fun c => (fst c < snd c <= n)%nat) (candidates n deep)
  /\ _detect_reps_by_valleys find_peaks angles p
     = Some (map (fun c => slice angles (fst c) (snd c))
                 (filter (reaches_lockout angles (lockout_min_angle p))
                         (candidates n deep))).
Proof.
  intros n valleys deep bs Hsorted Hinside Hne.
  assert (Hbelow : Forall (fun i => (i < n)%nat) valleys).
  { eapply Forall_impl; [|exact Hinside]. simpl. intros i Hi. lia. }
  assert (Hdeep_sorted : StronglySorted Nat.lt deep)
    by (apply filter_StronglySorted; exact Hsorted).
  assert (Hdeep_inside : Forall (fun i => (0 < i < n)%nat) deep)
    by (apply filter_Forall; exact Hinside).
  assert (Hcomp : deep_valleys_of angles (valley_depth_threshold p) valleys
                  = Some deep)
    by (apply deep_valleys_of_filter; exact Hbelow).
  assert (Hbs_len : List.length bs = S (List.length deep)).
  { unfold bs. rewrite length_app. cbn [List.length].
    rewrite midpoints_length. destruct deep; [congruence|].
    cbn [List.length]. lia. }
  assert (Hbs_sorted : StronglySorted Nat.lt bs)
    by (apply boundaries_sorted; assumption).
  assert (Hcand : candidates n deep = combine bs (tl bs)).
  { unfold candidates. destruct deep; [congruence|]. reflexivity. }
  destruct (consecutive_ranges n bs Hbs_sorted (sorted_below_last n _ Hbs_sorted))
    as [Hranges _].
  split; [exact Hbs_sorted|]. split; [exact Hcand|]. split.
  { rewrite Hcand, (combine_by_index _ bs Hbs_len), length_map, length_seq.
    reflexivity. }
  split; [rewrite Hcand; exact Hranges|].
  unfold _detect_reps_by_valleys. fold n. fold valleys. rewrite Hcomp.
  destruct valleys as [|v vs] eqn:Ev.
  { exfalso. apply Hne. reflexivity. }
  destruct deep as [|a rest] eqn:Ed; [congruence|].
  rewrite boundaries_of_midpoints. fold bs.
  rewrite validate_spec.
  - rewrite <- (combine_by_index _ bs Hbs_len), Hcand. reflexivity.
  - rewrite Hbs_len. lia.
  - rewrite <- (combine_by_index _ bs Hbs_len). exact Hranges.
Qed.

Lemma filter_all {A : Type} (f : A -> bool) (l : list A) :
  forallb f l = true -> filter f l = l.
Proof.
  induction l as [|x l IH]; [reflexivity|]. cbn [forallb filter].
  intros H. apply Bool.andb_true_iff in H. destruct H as [Hx Hl].
  rewrite Hx, (IH Hl). reflexivity.
Qed.

Lemma filter_concat_length {A B : Type} (f : A -> bool) (g : A -> list B)
  (l : list A) :
  (List.length (List.concat (map g (filter f l)))
   <= List.length (List.concat (map g l)))%nat.
Proof.
  induction l as [|x l IH]; [apply Nat.le_refl|].
  cbn [filter map List.concat]. rewrite length_app.
  destruct (f x); cbn [map List.concat]; [rewrite length_app|]; lia.
Qed.

(** The slices of all the candidates, put end to end, are the series. *)
Lemma candidates_concat (angles : list Q) (bs : list nat) :
  StronglySorted Nat.lt ((0%nat :: bs) ++ [List.length angles]) ->
  List.concat
    (map (fun c => slice angles (fst c) (snd c))
         (combine ((0%nat :: bs) ++ [List.length angles])
                  (tl ((0%nat :: bs) ++ [List.length angles]))))
  = angles.
Proof.
  intros Hs. cbn [app tl] in *.
  change (List.concat
            (map (fun c => py_slice angles (fst c) (snd c))
                 (combine (0%nat :: bs ++ [List.length angles])
                          (bs ++ [List.length angles])))
          = angles).
  rewrite (consecutive_slices_concat angles _ 0%nat Hs).
  rewrite last_last. unfold py_slice. rewrite Nat.sub_0_r.
  cbn [skipn]. apply firstn_all.
Qed.

(** X13. Under the contract of the peak finder, the repetitions a pass
    returns never hold more frames in total than the series.  When the pass
    finds a deep valley and every candidate reaches the lockout threshold,
    the repetitions put end to end are the series itself, frame for frame,
    one repetition per deep valley. *)
Theorem detect_reps_by_valleys_partition :
  forall (find_peaks : list Q -> Q -> nat -> list nat)
         (angles : list Q) (p : pass_params),
    let n := List.length angles in
    let valleys :=
      find_peaks (map Qopp angles) (valley_prominence p)
                 (valley_min_distance p) in
    let deep := deep_among angles (valley_depth_threshold p) valleys in
    StronglySorted Nat.lt valleys ->
    Forall (fun i => (0 < i < n)%nat) valleys ->
    exists reps,
      _detect_reps_by_valleys find_peaks angles p = Some reps
      /\ (List.length (List.concat reps) <= n)%nat
      /\ (deep <> [] ->
          forallb (reaches_lockout angles (lockout_min_angle p))
                  (candidates n deep) = true ->
          List.concat reps = angles
          /\ List.length reps = List.length deep).
Proof.
  intros find_peaks angles p n valleys deep Hsorted Hinside.
  destruct deep as [|a rest] eqn:Ed.
  { exists []. split.
    - unfold _detect_reps_by_valleys. fold n. fold valleys.
      assert (Hbelow : Forall (fun i => (i < n)%nat) valleys).
      { eapply Forall_impl; [|exact Hinside]. simpl. intros i Hi. lia. }
      rewrite (deep_valleys_of_filter _ _ _ Hbelow).
      fold deep. rewrite Ed. destruct valleys; reflexivity.
    - split; [cbn; lia|]. intros H. congruence. }
  assert (Hne : deep <> []) by (rewrite Ed; discriminate).
  destruct (detect_by_boundaries find_peaks angles p Hsorted Hinside Hne)
    as (Hbs & Hcand & Hlen & _ & Hret).
  fold n in Hbs, Hcand, Hlen, Hret. fold valleys in Hbs, Hcand, Hlen, Hret.
  fold deep in Hbs, Hcand, Hlen, Hret.
  assert (Hall : List.concat
                   (map (fun c => slice angles (fst c) (snd c))
                        (candidates n deep)) = angles).
  { rewrite Hcand. apply candidates_concat. exact Hbs. }
  rewrite <- Ed. eexists. split; [exact Hret|]. split.
  - eapply Nat.le_trans; [apply filter_concat_length|].
    rewrite Hall. apply Nat.le_refl.
  - intros _ Hkeep. rewrite (filter_all _ _ Hkeep).
    split; [exact Hall|]. rewrite length_map. exact Hlen.
Qed.

Lemma detect_reps_by_valleys_partition_witness :
  StronglySorted Nat.lt [2; 6]%nat
  /\ Forall (fun i => (0 < i < 9)%nat) [2; 6]%nat
  /\ exists reps,
      _detect_reps_by_valleys (fun _ _ _ => [2; 6]%nat)
        [170; 150; 100; 150; 170; 150; 100; 150; 170]%Q PRIMARY = Some reps
      /\ (List.length (List.concat reps) <= 9)%nat
      /\ (deep_among [170; 150; 100; 150; 170; 150; 100; 150; 170]%Q 165
            [2; 6]%nat <> [] ->
          forallb (reaches_lockout
                     [170; 150; 100; 150; 170; 150; 100; 150; 170]%Q 145)
                  (candidates 9
                     (deep_among
                        [170; 150; 100; 150; 170; 150; 100; 150; 170]%Q 165
                        [2; 6]%nat)) = true ->
          List.concat reps = [170; 150; 100; 150; 170; 150; 100; 150; 170]%Q
          /\ List.length reps
             = List.length
                 (deep_among [170; 150; 100; 150; 170; 150; 100; 150; 170]%Q
                    165 [2; 6]%nat)).
Proof.
  assert (Hs : StronglySorted Nat.lt [2; 6]%nat).
  { repeat constructor; unfold Nat.lt; lia. }
  assert (Hi : Forall (fun i => (0 < i < 9)%nat) [2; 6]%nat).
  { repeat constructor; lia. }
  refine (conj Hs (conj Hi _)).
  exact (detect_reps_by_valleys_partition (fun _ _ _ => [2; 6]%nat)
           [170; 150; 100; 150; 170; 150; 100; 150; 170]%Q PRIMARY Hs Hi).
Defined.

(* ------------------------------------------------------------------ *)
(** ** The hip slices of the repetitions                               *)
(* ------------------------------------------------------------------ *)

Lemma hip_slices_concat (raw_hip_angles : list pyfloat)
  (reps : list (list Q)) :
  forall cursor : nat,
    List.concat (hip_slices raw_hip_angles cursor reps)
    = py_slice raw_hip_angles cursor
               (cursor + List.length (List.concat reps)).
Proof.
  induction reps as [|r reps IH]; intros cursor.
  - cbn. unfold py_slice. rewrite Nat.add_0_r, Nat.sub_diag. reflexivity.
  - cbn [hip_slices List.concat]. rewrite IH, length_app.
    rewrite py_slice_app by lia. f_equal. lia.
Qed.

(** X14. The hip slices are cut one after the other from the first frame:
    put end to end they are the first frames of the hip series, as many as
    the repetitions hold, whichever frames of the elbow series the
    repetitions came from. *)
Theorem hip_slices_contiguous :
  forall (raw_hip_angles : list pyfloat) (segmented_reps : list (list Q)),
    List.concat (hip_slices raw_hip_angles 0 segmented_reps)
    = firstn (List.length (List.concat segmented_reps)) raw_hip_angles
    /\ List.length (hip_slices raw_hip_angles 0 segmented_reps)
       = List.length segmented_reps.
Proof.
  intros raw reps. split.
  - rewrite hip_slices_concat. unfold py_slice. cbn [Nat.add skipn].
    rewrite Nat.sub_0_r. reflexivity.
  - generalize 0%nat. induction reps as [|r reps IH]; intros c;
      [reflexivity|]. cbn [hip_slices List.length]. rewrite IH. reflexivity.
Qed.

Lemma hip_slices_consecutive (raw_hip_angles : list pyfloat)
  (angles : list Q) (bs : list nat) :
  forall b0 : nat,
    StronglySorted Nat.lt (b0 :: bs) ->
    Forall (fun b => (b <= List.length angles)%nat) (b0 :: bs) ->
    hip_slices raw_hip_angles b0
      (map (fun c => slice angles (fst c) (snd c)) (combine (b0 :: bs) bs))
    = map (fun c => py_slice raw_hip_angles (fst c) (snd c))
          (combine (b0 :: bs) bs).
Proof.
  induction bs as [|b1 r IH]; intros b0 Hs Hn; [reflexivity|].
  change (combine (b0 :: b1 :: r) (b1 :: r))
    with ((b0, b1) :: combine (b1 :: r) r).
  cbn [map hip_slices fst snd].
  inversion Hs as [|? ? Hs' Hall]; subst.
  inversion Hn as [|? ? _ Hn']; subst.
  assert (Hb01 : (b0 < b1)%nat) by (inversion Hall; assumption).
  assert (Hb1 : (b1 <= List.length angles)%nat) by (inversion Hn'; assumption).
  rewrite slice_length by exact Hb1.
  replace (b0 + (b1 - b0))%nat with b1 by lia.
  rewrite (IH b1 Hs' Hn'). reflexivity.
Qed.

(** X15. Under the contract of the peak finder, when a pass finds a deep
    valley and drops no candidate, every repetition and its hip slice cover
    the same range of frames: repetition [k] is [angles[s:e]] and hip slice
    [k] is [raw_hip_angles[s:e]] for the same candidate [(s, e)]. *)
Theorem hip_slices_aligned :
  forall (find_peaks : list Q -> Q -> nat -> list nat)
         (angles : list Q) (p : pass_params) (raw_hip_angles : list pyfloat),
    let n := List.length angles in
    let valleys :=
      find_peaks (map Qopp angles) (valley_prominence p)
                 (valley_min_distance p) in
    let deep := deep_among angles (valley_depth_threshold p) valleys in
    StronglySorted Nat.lt valleys ->
    Forall (fun i => (0 < i < n)%nat) valleys ->
    deep <> [] ->
    forallb (reaches_lockout angles (lockout_min_angle p))
            (candidates n deep) = true ->
    exists reps,
      _detect_reps_by_valleys find_peaks angles p = Some reps
      /\ reps = map (fun c => slice angles (fst c) (snd c)) (candidates n deep)
      /\ hip_slices raw_hip_angles 0 reps
         = map (fun c => py_slice raw_hip_angles (fst c) (snd c))
               (candidates n deep).
Proof.
  intros find_peaks angles p raw n valleys deep Hsorted Hinside Hne Hkeep.
  destruct (detect_by_boundaries find_peaks angles p Hsorted Hinside Hne)
    as (Hbs & Hcand & _ & _ & Hret).
  fold n in Hbs, Hcand, Hret. fold valleys in Hbs, Hcand, Hret.
  fold deep in Hbs, Hcand, Hret.
  rewrite (filter_all _ _ Hkeep) in Hret.
  eexists. split; [exact Hret|]. split; [reflexivity|].
  rewrite Hcand. cbn [app tl] in *.
  apply hip_slices_consecutive; [exact Hbs|].
  apply (sorted_below_last n (0%nat :: midpoints deep)). exact Hbs.
Qed.

Lemma hip_slices_aligned_witness :
  StronglySorted Nat.lt [2; 6]%nat
  /\ Forall (fun i => (0 < i < 9)%nat) [2; 6]%nat
  /\ hip_slices
       [Finite 178; Finite 177; Finite 150; Finite 151; Finite 176;
        Finite 175; Finite 174; Finite 173; Finite 172] 0
       [[170; 150; 100; 150]; [170; 150; 100; 150; 170]]%Q
     = [[Finite 178; Finite 177; Finite 150; Finite 151];
        [Finite 176; Finite 175; Finite 174; Finite 173; Finite 172]].
Proof.
  assert (Hs : StronglySorted Nat.lt [2; 6]%nat).
  { repeat constructor; unfold Nat.lt; lia. }
  assert (Hi : Forall (fun i => (0 < i < 9)%nat) [2; 6]%nat).
  { repeat constructor; lia. }
  refine (conj Hs (conj Hi _)).
  assert (Hne : deep_among [170; 150; 100; 150; 170; 150; 100; 150; 170]%Q 165
                  [2; 6]%nat <> []) by discriminate.
  destruct (hip_slices_aligned (fun _ _ _ => [2; 6]%nat)
              [170; 150; 100; 150; 170; 150; 100; 150; 170]%Q PRIMARY
              [Finite 178; Finite 177; Finite 150; Finite 151; Finite 176;
               Finite 175; Finite 174; Finite 173; Finite 172]
              Hs Hi Hne eq_refl)
    as (reps & _ & -> & Hhip).
  exact Hhip.
Defined.

(* ------------------------------------------------------------------ *)
(** ** The score of a set                                              *)
(* ------------------------------------------------------------------ *)

Lemma py_round_mono (q q' : Q) : (q <= q')%Q -> py_round q <= py_round q'.
Proof.
  intros H.
  pose proof (Qfloor_resp_le _ _ H) as Hf.
  pose proof (py_round_floor q) as Hr. pose proof (py_round_floor q') as Hr'.
  destruct (Z.eq_dec (Qfloor q) (Qfloor q')) as [E | Hneq]; [|lia].
  unfold py_round. rewrite <- E.
  destruct (Qcompare (q - inject_Z (Qfloor q)) (1 # 2)) eqn:Hc;
    destruct (Qcompare (q' - inject_Z (Qfloor q)) (1 # 2)) eqn:Hc';
    try (destruct (Z.even (Qfloor q)); lia); try lia;
    exfalso;
    repeat match goal with
      | H : (_ ?= _)%Q = Eq |- _ => apply Qeq_alt in H
      | H : (_ ?= _)%Q = Lt |- _ => apply Qlt_alt in H
      | H : (_ ?= _)%Q = Gt |- _ => apply Qgt_alt in H
      end; lra.
Qed.

Lemma py_sum_between (lo hi : Z) (l : list Z) :
  (forall s, In s l -> lo <= s <= hi) ->
  lo * Z.of_nat (List.length l) <= py_sum l <= hi * Z.of_nat (List.length l).
Proof.
  induction l as [|x l IH]; intros H.
  - unfold py_sum. simpl. lia.
  - rewrite py_sum_cons.
    assert (Hx : lo <= x <= hi) by (apply H; left; reflexivity).
    assert (Hl : lo * Z.of_nat (List.length l) <= py_sum l
                 <= hi * Z.of_nat (List.length l)).
    { apply IH. intros s Hs. apply H. right. exact Hs. }
    change (List.length (x :: l)) with (S (List.length l)). lia.
Qed.

Lemma mean_between (lo hi total len : Z) :
  0 < len -> lo * len <= total <= hi * len ->
  (inject_Z lo <= inject_Z total / inject_Z len)%Q
  /\ (inject_Z total / inject_Z len <= inject_Z hi)%Q.
Proof.
  intros Hlen [Hlo Hhi].
  assert (Hpos : (0 < inject_Z len)%Q).
  { change 0%Q with (inject_Z 0). rewrite <- Zlt_Qlt. exact Hlen. }
  split.
  - apply Qle_shift_div_l; [exact Hpos|].
    rewrite <- inject_Z_mult, <- Zle_Qle. exact Hlo.
  - apply Qle_shift_div_r; [exact Hpos|].
    rewrite <- inject_Z_mult, <- Zle_Qle. exact Hhi.
Qed.

(** The set-level score lies between any two bounds of the scores. *)
Lemma average_score_between (lo hi : Z) (l : list Z) :
  l <> [] ->
  (forall s, In s l -> lo <= s <= hi) ->
  exists overall, average_score l = Some overall /\ lo <= overall <= hi.
Proof.
  intros Hne Hrange. destruct l as [|s t]; [congruence|].
  destruct (fold_min_spec t s) as [Hin _].
  assert (Hlen : 0 < Z.of_nat (List.length (s :: t))) by (simpl; lia).
  destruct (mean_between lo hi _ _ Hlen (py_sum_between lo hi _ Hrange))
    as [Hm0 Hm1].
  assert (Hw : lo <= fold_left Z.min t s <= hi) by (apply Hrange; exact Hin).
  assert (Hw0 : (inject_Z lo <= inject_Z (fold_left Z.min t s))%Q)
    by (rewrite <- Zle_Qle; lia).
  assert (Hw1 : (inject_Z (fold_left Z.min t s) <= inject_Z hi)%Q)
    by (rewrite <- Zle_Qle; lia).
  eexists. split; [reflexivity|].
  apply py_round_between; lra.
Qed.

Lemma py_sum_lower (lo : Z) (l : list Z) :
  (forall s, In s l -> lo <= s) ->
  lo * Z.of_nat (List.length l) <= py_sum l.
Proof.
  induction l as [|x l IH]; intros H.
  - unfold py_sum. simpl. lia.
  - rewrite py_sum_cons.
    assert (Hx : lo <= x) by (apply H; left; reflexivity).
    assert (Hl : lo * Z.of_nat (List.length l) <= py_sum l).
    { apply IH. intros s Hs. apply H. right. exact Hs. }
    change (List.length (x :: l)) with (S (List.length l)). lia.
Qed.

Lemma py_round_lower (a : Z) (q : Q) :
  (inject_Z a <= q)%Q -> a <= py_round q.
Proof.
  intros H. pose proof (py_round_floor q) as Hr.
  assert (a <= Qfloor q).
  { rewrite <- (Qfloor_Z a). apply Qfloor_resp_le. exact H. }
  lia.
Qed.

(** X16. The set-level score is anchored on the worst repetition: it is
    never below the lowest per-repetition score and never above the rounded
    mean, and a set whose repetitions all have the same score gets that
    score. *)
Theorem average_score_anchored :
  forall all_scores : list Z,
    all_scores <> [] ->
    exists worst overall,
      average_score all_scores = Some overall
      /\ In worst all_scores
      /\ (forall s, In s all_scores -> worst <= s)
      /\ worst <= overall
      /\ overall
         <= py_round (inject_Z (py_sum all_scores)
                      / inject_Z (Z.of_nat (List.length all_scores)))%Q
      /\ (forall s, (forall x, In x all_scores -> x = s) -> overall = s).
Proof.
  intros l Hne. destruct l as [|s t]; [congruence|].
  destruct (fold_min_spec t s) as [Hin Hle].
  set (worst := fold_left Z.min t s) in *.
  set (mean := (inject_Z (py_sum (s :: t))
                / inject_Z (Z.of_nat (List.length (s :: t))))%Q).
  assert (Hlen : 0 < Z.of_nat (List.length (s :: t))) by (simpl; lia).
  assert (Hmean : (inject_Z worst <= mean)%Q).
  { unfold mean. apply Qle_shift_div_l.
    - change 0%Q with (inject_Z 0). rewrite <- Zlt_Qlt. exact Hlen.
    - rewrite <- inject_Z_mult, <- Zle_Qle. apply py_sum_lower. exact Hle. }
  exists worst, (py_round (mean * (7 # 10) + inject_Z worst * (3 # 10))%Q).
  split; [reflexivity|]. split; [exact Hin|]. split; [exact Hle|].
  split; [|split].
  - apply py_round_lower. lra.
  - apply py_round_mono. lra.
  - intros v Hv.
    destruct (average_score_between v v (s :: t) Hne) as (o & Ho & Hov).
    { intros x Hx. rewrite (Hv x Hx). lia. }
    assert (E : average_score (s :: t)
                = Some (py_round (mean * (7 # 10)
                                  + inject_Z worst * (3 # 10))%Q))
      by reflexivity.
    rewrite E in Ho. injection Ho as <-. lia.
Qed.

Lemma average_score_anchored_witness :
  [30; 30; 30; 30; 100] <> []
  /\ exists worst overall,
      average_score [30; 30; 30; 30; 100] = Some overall
      /\ In worst [30; 30; 30; 30; 100]
      /\ (forall s, In s [30; 30; 30; 30; 100] -> worst <= s)
      /\ worst <= overall
      /\ overall
         <= py_round (inject_Z (py_sum [30; 30; 30; 30; 100]%Z)
                      / inject_Z
                          (Z.of_nat (List.length [30; 30; 30; 30; 100]%Z)))%Q
      /\ (forall s, (forall x, In x [30; 30; 30; 30; 100] -> x = s) ->
                    overall = s).
Proof.
  assert (Hne : [30; 30; 30; 30; 100] <> []) by discriminate.
  split; [exact Hne|].
  exact (average_score_anchored [30; 30; 30; 30; 100] Hne).
Defined.

(* ------------------------------------------------------------------ *)
(** ** From the repetitions to the score of the set                    *)
(* ------------------------------------------------------------------ *)





(* ------------------------------------------------------------------ *)
(** ** The repair of non-finite frames                                 *)
(* ------------------------------------------------------------------ *)

Lemma patch_length (p0 : Q * Q) (pts : list (Q * Q)) (angles : list pyfloat) :
  forall i : nat, List.length (patch i p0 pts angles) = List.length angles.
Proof.
  induction angles as [|a angles IH]; intros i; [reflexivity|].
  destruct a; cbn [patch List.length]; rewrite IH; reflexivity.
Qed.

Lemma patch_keeps (p0 : Q * Q) (pts : list (Q * Q)) (angles : list pyfloat) :
  forall (i k : nat) (q : Q),
    nth_error angles k = Some (Finite q) ->
    nth_error (patch i p0 pts angles) k = Some q.
Proof.
  induction angles as [|a angles IH]; intros i k q H.
  - destruct k; discriminate H.
  - destruct k as [|k].
    + cbn in H. injection H as ->. reflexivity.
    + cbn [nth_error] in H. destruct a; cbn [patch nth_error];
        apply IH; exact H.
Qed.

Lemma finite_points_nil (angles : list pyfloat) :
  forall i : nat,
    finite_points i angles = [] <->
    (forall x, In x angles -> isfinite x = false).
Proof.
  induction angles as [|a angles IH]; intros i.
  - split; [intros _ x []|reflexivity].
  - destruct a as [q| | |]; cbn [finite_points].
    + split; [discriminate|]. intros H.
      specialize (H (Finite q) (or_introl eq_refl)). discriminate H.
    + rewrite IH. split.
      * intros H x [<- | Hx]; [reflexivity|apply H; exact Hx].
      * intros H x Hx. apply H. right. exact Hx.
    + rewrite IH. split.
      * intros H x [<- | Hx]; [reflexivity|apply H; exact Hx].
      * intros H x Hx. apply H. right. exact Hx.
    + rewrite IH. split.
      * intros H x [<- | Hx]; [reflexivity|apply H; exact Hx].
      * intros H x Hx. apply H. right. exact Hx.
Qed.

Lemma patch_finite_input (p0 : Q * Q) (pts : list (Q * Q)) (qs : list Q) :
  forall i : nat, patch i p0 pts (map Finite qs) = qs.
Proof.
  induction qs as [|q qs IH]; intros i; [reflexivity|].
  cbn [map patch]. rewrite IH. reflexivity.
Qed.

Lemma map_const_repeat {A B : Type} (b : B) (l : list A) :
  map (fun _ => b) l = repeat b (List.length l).
Proof.
  induction l as [|x l IH]; [reflexivity|]. cbn. rewrite IH. reflexivity.
Qed.

(** X18. [_interpolate_nans] keeps the length of the series and every
    finite frame in its place; a series without any finite frame becomes
    all zeros, and a finite series comes back unchanged. *)
Theorem interpolate_nans_keeps_finite :
  forall angles : list pyfloat,
    List.length (_interpolate_nans angles) = List.length angles
    /\ (forall k q,
           nth_error angles k = Some (Finite q) ->
           nth_error (_interpolate_nans angles) k = Some q)
    /\ ((forall x, In x angles -> isfinite x = false) ->
        _interpolate_nans angles = repeat 0%Q (List.length angles))
    /\ (forall qs, angles = map Finite qs -> _interpolate_nans angles = qs).
Proof.
  intros angles. unfold _interpolate_nans.
  destruct (finite_points 0 angles) as [|p0 pts] eqn:E.
  - pose proof (proj1 (finite_points_nil angles 0%nat) E) as E'.
    clear E. rename E' into E.
    split; [apply length_map|]. split.
    + intros k q H. apply nth_error_In in H. apply E in H. discriminate H.
    + split; [intros _; apply map_const_repeat|].
      intros qs ->. destruct qs as [|q qs]; [reflexivity|].
      specialize (E (Finite q) (or_introl eq_refl)). discriminate E.
  - split; [apply patch_length|]. split; [apply patch_keeps|]. split.
    + intros H. apply (proj2 (finite_points_nil angles 0%nat)) in H.
      congruence.
    + intros qs ->. apply patch_finite_input.
Qed.

Lemma interpolate_nans_keeps_finite_witness :
  nth_error [Finite 170; NaN; Finite 160; PosInf] 2 = Some (Finite 160)
  /\ nth_error (_interpolate_nans [Finite 170; NaN; Finite 160; PosInf]) 2
     = Some 160%Q
  /\ _interpolate_nans [Finite 170; NaN; Finite 160; PosInf]
     = [170; 330 # 2; 160; 160]%Q.
Proof.
  assert (E : nth_error [Finite 170; NaN; Finite 160; PosInf] 2
              = Some (Finite 160)) by reflexivity.
  refine (conj E (conj _ eq_refl)).
  exact (proj1 (proj2 (interpolate_nans_keeps_finite
                         [Finite 170; NaN; Finite 160; PosInf])) 2%nat _ E).
Defined.

(** A point of a segment lies between the values at its ends. *)
Lemma segment_between (lo hi x x0 x1 y0 y1 : Q) :
  (x0 <= x)%Q -> (x < x1)%Q ->
  (lo <= y0)%Q -> (y0 <= hi)%Q -> (lo <= y1)%Q -> (y1 <= hi)%Q ->
  (lo <= (y1 - y0) / (x1 - x0) * (x - x0) + y0)%Q
  /\ ((y1 - y0) / (x1 - x0) * (x - x0) + y0 <= hi)%Q.
Proof.
  intros Hx0 Hx1 Hl0 Hh0 Hl1 Hh1.
  assert (Hd : (0 < x1 - x0)%Q) by lra.
  set (t := ((x - x0) / (x1 - x0))%Q).
  assert (Ht0 : (0 <= t)%Q).
  { unfold t. apply Qle_shift_div_l; [exact Hd|]. lra. }
  assert (Ht1 : (t <= 1)%Q).
  { unfold t. apply Qle_shift_div_r; [exact Hd|]. lra. }
  assert (E : ((y1 - y0) / (x1 - x0) * (x - x0) + y0
               == y0 + (y1 - y0) * t)%Q).
  { unfold t. field. lra. }
  rewrite E.
  assert (Hlow : (0 <= (1 - t) * (y0 - lo) + t * (y1 - lo))%Q).
  { assert (0 <= (1 - t) * (y0 - lo))%Q by (apply Qmult_le_0_compat; lra).
    assert (0 <= t * (y1 - lo))%Q by (apply Qmult_le_0_compat; lra).
    lra. }
  assert (Hhigh : (0 <= (1 - t) * (hi - y0) + t * (hi - y1))%Q).
  { assert (0 <= (1 - t) * (hi - y0))%Q by (apply Qmult_le_0_compat; lra).
    assert (0 <= t * (hi - y1))%Q by (apply Qmult_le_0_compat; lra).
    lra. }
  assert (E1 : ((1 - t) * (y0 - lo) + t * (y1 - lo)
                == y0 + (y1 - y0) * t - lo)%Q) by ring.
  assert (E2 : ((1 - t) * (hi - y0) + t * (hi - y1)
                == hi - (y0 + (y1 - y0) * t))%Q) by ring.
  rewrite E1 in Hlow. rewrite E2 in Hhigh. split; lra.
Qed.

Lemma interp_from_between (lo hi x : Q) (pts : list (Q * Q)) :
  forall x0 y0 : Q,
    (x0 <= x)%Q -> (lo <= y0)%Q -> (y0 <= hi)%Q ->
    Forall (fun pt => (lo <= snd pt)%Q /\ (snd pt <= hi)%Q) pts ->
    (lo <= interp_from x x0 y0 pts)%Q /\ (interp_from x x0 y0 pts <= hi)%Q.
Proof.
  induction pts as [|[x1 y1] pts IH]; intros x0 y0 Hx Hl Hh Hall.
  - split; assumption.
  - inversion Hall as [|? ? [Hl1 Hh1] Hall']; subst. cbn [snd] in *.
    cbn [interp_from]. destruct (Qlt_bool x x1) eqn:E.
    + apply Qlt_bool_true in E. apply segment_between; assumption.
    + apply Qlt_bool_false in E. apply IH; assumption.
Qed.

Lemma np_interp_between (lo hi x : Q) (p0 : Q * Q) (pts : list (Q * Q)) :
  Forall (fun pt => (lo <= snd pt)%Q /\ (snd pt <= hi)%Q) (p0 :: pts) ->
  (lo <= np_interp x p0 pts)%Q /\ (np_interp x p0 pts <= hi)%Q.
Proof.
  intros Hall. inversion Hall as [|? ? [Hl Hh] Hall']; subst.
  unfold np_interp. destruct (Qle_bool x (fst p0)) eqn:E.
  - split; assumption.
  - apply Qle_bool_false in E. apply interp_from_between; try assumption.
    apply Qlt_le_weak. exact E.
Qed.

Lemma finite_points_values (angles : list pyfloat) :
  forall (i : nat) (pt : Q * Q),
    In pt (finite_points i angles) -> In (Finite (snd pt)) angles.
Proof.
  induction angles as [|a angles IH]; intros i pt H; [destruct H|].
  destruct a as [q| | |]; cbn [finite_points] in H.
  - destruct H as [<- | H]; [left; reflexivity|right; exact (IH _ _ H)].
  - right. exact (IH _ _ H).
  - right. exact (IH _ _ H).
  - right. exact (IH _ _ H).
Qed.

Lemma patch_between (lo hi : Q) (p0 : Q * Q) (pts : list (Q * Q))
  (angles : list pyfloat) :
  Forall (fun pt => (lo <= snd pt)%Q /\ (snd pt <= hi)%Q) (p0 :: pts) ->
  (forall q, In (Finite q) angles -> (lo <= q)%Q /\ (q <= hi)%Q) ->
  forall i : nat,
    Forall (fun v => (lo <= v)%Q /\ (v <= hi)%Q) (patch i p0 pts angles).
Proof.
  intros Hpts. induction angles as [|a angles IH]; intros Hin i.
  - constructor.
  - assert (Hrest : forall q, In (Finite q) angles ->
                              (lo <= q)%Q /\ (q <= hi)%Q).
    { intros q Hq. apply Hin. right. exact Hq. }
    destruct a as [q| | |]; cbn [patch]; constructor;
      try (apply IH; exact Hrest);
      try (apply np_interp_between; exact Hpts).
    apply Hin. left. reflexivity.
Qed.

(** X19. The repair never overshoots: when the series has a finite frame,
    every value of the repaired series lies between any two bounds of the
    finite frames. *)
Theorem interpolate_nans_within_bounds :
  forall (angles : list pyfloat) (lo hi : Q),
    (exists q, In (Finite q) angles) ->
    (forall q, In (Finite q) angles -> (lo <= q)%Q /\ (q <= hi)%Q) ->
    Forall (fun v => (lo <= v)%Q /\ (v <= hi)%Q) (_interpolate_nans angles).
Proof.
  intros angles lo hi [q0 Hq0] Hin. unfold _interpolate_nans.
  destruct (finite_points 0 angles) as [|p0 pts] eqn:E.
  - pose proof (proj1 (finite_points_nil angles 0%nat) E _ Hq0) as Hcontra.
    discriminate Hcontra.
  - apply patch_between; [|exact Hin].
    apply Forall_forall. intros pt Hpt. apply Hin.
    apply (finite_points_values angles 0%nat). rewrite E. exact Hpt.
Qed.

Lemma interpolate_nans_within_bounds_witness :
  (exists q, In (Finite q) [NaN; Finite 170; NaN; NaN; Finite 110; NegInf])
  /\ (forall q, In (Finite q) [NaN; Finite 170; NaN; NaN; Finite 110; NegInf] ->
                (110 <= q)%Q /\ (q <= 170)%Q)
  /\ Forall (fun v => (110 <= v)%Q /\ (v <= 170)%Q)
            (_interpolate_nans
               [NaN; Finite 170; NaN; NaN; Finite 110; NegInf]).
Proof.
  assert (Hex : exists q,
             In (Finite q) [NaN; Finite 170; NaN; NaN; Finite 110; NegInf]).
  { exists 170%Q. simpl. right. left. reflexivity. }
  assert (Hin : forall q,
             In (Finite q) [NaN; Finite 170; NaN; NaN; Finite 110; NegInf] ->
             (110 <= q)%Q /\ (q <= 170)%Q).
  { simpl. intros q [H|[H|[H|[H|[H|[H|[]]]]]]]; try discriminate H;
      injection H as <-; split; vm_compute; discriminate. }
  refine (conj Hex (conj Hin _)).
  exact (interpolate_nans_within_bounds _ 110%Q 170%Q Hex Hin).
Defined.

(* ------------------------------------------------------------------ *)
(** ** Landmarks and joint angles                                      *)
(* ------------------------------------------------------------------ *)

Lemma has_key_get_item (d : landmarks_dict) (key : string) :
  has_key d key = true <-> exists pt, get_item d key = Some pt.
Proof.
  unfold has_key. induction d as [|[k v] d IH]; cbn [map existsb get_item fst].
  - split; [discriminate|]. intros [pt H]. discriminate H.
  - rewrite (String.eqb_sym key k). destruct (String.eqb k key).
    + split; [intros _; exists v; reflexivity|reflexivity].
    + cbn [orb]. exact IH.
Qed.

Lemma has_key_false (d : landmarks_dict) (key : string) :
  has_key d key = false <-> get_item d key = None.
Proof.
  destruct (has_key d key) eqn:E.
  - apply has_key_get_item in E. destruct E as [pt ->].
    split; discriminate.
  - split; [|reflexivity]. intros _.
    destruct (get_item d key) as [pt|] eqn:G; [|reflexivity].
    assert (H : has_key d key = true)
      by (apply has_key_get_item; exists pt; exact G).
    congruence.
Qed.

(** The guarded angle of three joints: a value when the three keys are
    present, the return value [None] otherwise, and no exception. *)
Lemma guarded_angle (calculate_angle : point -> point -> point -> pyfloat)
  (d : landmarks_dict) (a b c : string) :
  (if negb (_validate_landmarks (Some d) [a; b; c]) then Some None
   else option_map Some (angle_at calculate_angle d a b c))
  = match get_item d a, get_item d b, get_item d c with
    | Some pa, Some pb, Some pc => Some (Some (calculate_angle pa pb pc))
    | _, _, _ => Some None
    end.
Proof.
  unfold _validate_landmarks, angle_at. cbn [forallb].
  destruct (get_item d a) as [pa|] eqn:Ga.
  - assert (Ha : has_key d a = true)
      by (apply has_key_get_item; exists pa; exact Ga).
    rewrite Ha. cbn [andb].
    destruct (get_item d b) as [pb|] eqn:Gb.
    + assert (Hb : has_key d b = true)
        by (apply has_key_get_item; exists pb; exact Gb).
      rewrite Hb. cbn [andb].
      destruct (get_item d c) as [pc|] eqn:Gc.
      * assert (Hc : has_key d c = true)
          by (apply has_key_get_item; exists pc; exact Gc).
        rewrite Hc. reflexivity.
      * apply has_key_false in Gc. rewrite Gc. reflexivity.
    + apply has_key_false in Gb. rewrite Gb. reflexivity.
  - apply has_key_false in Ga. rewrite Ga. reflexivity.
Qed.

(** X20. [get_elbow_angle] and [get_body_alignment_angle] never raise.
    Each returns [None] exactly when the landmarks are [None] or one of its
    three keys is missing, and otherwise the angle that [calculate_angle]
    gives at the middle joint: shoulder, elbow, wrist for the one and
    shoulder, hip, ankle for the other. *)
Theorem landmark_angles_guarded :
  forall (calculate_angle : point -> point -> point -> pyfloat)
         (d : landmarks_dict),
    get_elbow_angle calculate_angle None = Some None
    /\ get_body_alignment_angle calculate_angle None = Some None
    /\ get_elbow_angle calculate_angle (Some d)
       = match get_item d "shoulder", get_item d "elbow",
               get_item d "wrist" with
         | Some pa, Some pb, Some pc => Some (Some (calculate_angle pa pb pc))
         | _, _, _ => Some None
         end
    /\ get_body_alignment_angle calculate_angle (Some d)
       = match get_item d "shoulder", get_item d "hip",
               get_item d "ankle" with
         | Some pa, Some pb, Some pc => Some (Some (calculate_angle pa pb pc))
         | _, _, _ => Some None
         end.
Proof.
  intros calculate_angle d.
  split; [reflexivity|]. split; [reflexivity|]. split.
  - exact (guarded_angle calculate_angle d "shoulder" "elbow" "wrist").
  - exact (guarded_angle calculate_angle d "shoulder" "hip" "ankle").
Qed.

(** The landmarks extracted from a pose with enough points hold the five
    joints. *)
Lemma extract_items_keys (all_landmarks : list point) :
  forall (indices : list (string * nat)),
    Forall (fun item => (snd item < List.length all_landmarks)%nat) indices ->
    exists d,
      extract_items all_landmarks indices = Some d
      /\ map fst d = map fst indices.
Proof.
  induction indices as [|[name idx] indices IH]; intros Hall.
  - exists []. split; reflexivity.
  - inversion Hall as [|? ? Hidx Hall']; subst. cbn [snd] in Hidx.
    destruct (IH Hall') as (d & Hd & Hkeys).
    cbn [extract_items].
    rewrite (nth_error_nth' all_landmarks (NaN, NaN) Hidx), Hd.
    eexists. split; [reflexivity|]. cbn [map fst]. rewrite Hkeys. reflexivity.
Qed.

Lemma get_item_of_key (d : landmarks_dict) (key : string) :
  In key (map fst d) -> exists pt, get_item d key = Some pt.
Proof.
  intros Hin. apply has_key_get_item. unfold has_key.
  apply existsb_exists. exists key. split; [exact Hin|apply String.eqb_refl].
Qed.

Lemma extract_landmarks_detected (all_landmarks : list point) :
  (28 < List.length all_landmarks)%nat ->
  exists d,
    extract_landmarks (Some all_landmarks) = Some (Some d)
    /\ map fst d = ["shoulder"; "elbow"; "wrist"; "hip"; "ankle"]%string.
Proof.
  intros Hlen. unfold extract_landmarks.
  destruct (extract_items_keys all_landmarks LANDMARK_INDICES) as (d & -> & Hk).
  { unfold LANDMARK_INDICES. repeat constructor; cbn [snd]; lia. }
  exists d. split; [reflexivity|exact Hk].
Qed.

Lemma collect_angles_acc
  (calculate_angle : point -> point -> point -> pyfloat)
  (poses : list (option (list point))) :
  Forall (fun pose => match pose with
                      | Some l => (28 < List.length l)%nat
                      | None => True
                      end) poses ->
  forall elbow hip : list pyfloat,
    exists elbow' hip',
      collect_angles calculate_angle poses elbow hip
      = Some (elbow ++ elbow', hip ++ hip')
      /\ List.length elbow'
         = List.length (filter (fun pose => match pose with
                                            | Some _ => true
                                            | None => false
                                            end) poses)
      /\ List.length hip' = List.length elbow'.
Proof.
  induction 1 as [|pose poses Hpose _ IH]; intros elbow hip.
  - exists [], []. rewrite !app_nil_r. repeat split.
  - destruct pose as [l|].
    + destruct (extract_landmarks_detected l Hpose) as (d & Hd & Hkeys).
      cbn [collect_angles]. rewrite Hd.
      destruct (get_item_of_key d "shoulder") as [ps Hs].
      { rewrite Hkeys. cbn. auto. }
      destruct (get_item_of_key d "elbow") as [pe He].
      { rewrite Hkeys. cbn. auto. }
      destruct (get_item_of_key d "wrist") as [pw Hw].
      { rewrite Hkeys. cbn. auto. }
      destruct (get_item_of_key d "hip") as [ph Hh].
      { rewrite Hkeys. cbn. auto. }
      destruct (get_item_of_key d "ankle") as [pa Ha].
      { rewrite Hkeys. cbn. auto 6. }
      change (get_elbow_angle calculate_angle (Some d))
        with (if negb (_validate_landmarks (Some d)
                         ["shoulder"; "elbow"; "wrist"]%string)
              then Some None
              else option_map Some
                     (angle_at calculate_angle d "shoulder" "elbow" "wrist")).
      change (get_body_alignment_angle calculate_angle (Some d))
        with (if negb (_validate_landmarks (Some d)
                         ["shoulder"; "hip"; "ankle"]%string)
              then Some None
              else option_map Some
                     (angle_at calculate_angle d "shoulder" "hip" "ankle")).
      rewrite !guarded_angle, Hs, He, Hw, Hh, Ha.
      destruct (IH (elbow ++ [calculate_angle ps pe pw])
                   (hip ++ [calculate_angle ps ph pa]))
        as (e' & h' & -> & Hle & Hlh).
      exists (calculate_angle ps pe pw :: e'), (calculate_angle ps ph pa :: h').
      rewrite <- !app_assoc. cbn [app filter List.length].
      split; [reflexivity|]. split; lia.
    + cbn [collect_angles extract_landmarks filter].
      destruct (IH elbow hip) as (e' & h' & -> & Hle & Hlh).
      exists e', h'. repeat split; assumption.
Qed.

(** X21. When every detected pose holds the [33] points of the pose model
    (at least [29] suffice), the loop over the frames never raises, and it
    appends one elbow angle and one hip angle for every frame with a
    detected pose: the two series have the same length, the number of
    detections, so they stay aligned frame for frame. *)
Theorem collect_angles_aligned :
  forall (calculate_angle : point -> point -> point -> pyfloat)
         (poses : list (option (list point))),
    Forall (fun pose => match pose with
                        | Some l => (28 < List.length l)%nat
                        | None => True
                        end) poses ->
    exists raw_elbow_angles raw_hip_angles,
      collect_angles calculate_angle poses [] []
      = Some (raw_elbow_angles, raw_hip_angles)
      /\ List.length raw_elbow_angles
         = List.length (filter (fun pose => match pose with
                                            | Some _ => true
                                            | None => false
                                            end) poses)
      /\ List.length raw_hip_angles = List.length raw_elbow_angles.
Proof.
  intros calculate_angle poses Hall.
  destruct (collect_angles_acc calculate_angle poses Hall [] [])
    as (e & h & E & Hle & Hlh).
  exists e, h. split; [exact E|]. split; assumption.
Qed.

Lemma collect_angles_aligned_witness :
  Forall (fun pose : option (list point) =>
            match pose with
            | Some l => (28 < List.length l)%nat
            | None => True
            end)
         [Some (repeat (Finite (1 # 2), Finite (1 # 3)) 33); None;
          Some (repeat (Finite (1 # 4), Finite (1 # 5)) 33)]
  /\ exists raw_elbow_angles raw_hip_angles,
      collect_angles (fun _ b _ => fst b)
        [Some (repeat (Finite (1 # 2), Finite (1 # 3)) 33); None;
         Some (repeat (Finite (1 # 4), Finite (1 # 5)) 33)] [] []
      = Some (raw_elbow_angles, raw_hip_angles)
      /\ List.length raw_elbow_angles
         = List.length
             (filter (fun pose : option (list point) =>
                        match pose with
                        | Some _ => true
                        | None => false
                        end)
                [Some (repeat (Finite (1 # 2), Finite (1 # 3)) 33); None;
                 Some (repeat (Finite (1 # 4), Finite (1 # 5)) 33)])
      /\ List.length raw_hip_angles = List.length raw_elbow_angles.
Proof.
  assert (Hall : Forall (fun pose : option (list point) =>
                           match pose with
                           | Some l => (28 < List.length l)%nat
                           | None => True
                           end)
                   [Some (repeat (Finite (1 # 2), Finite (1 # 3)) 33); None;
                    Some (repeat (Finite (1 # 4), Finite (1 # 5)) 33)]).
  { repeat constructor; cbn; lia. }
  split; [exact Hall|].
  exact (collect_angles_aligned (fun _ b _ => fst b) _ Hall).
Defined.

(* ------------------------------------------------------------------ *)
(** ** Downsampling of the frames                                      *)
(* ------------------------------------------------------------------ *)

(** X22. Whenever [extract_frames] computes a frame interval, the interval
    is at least [1].  It is [1] when the reported frame rate is not
    positive, and when a finite positive frame rate does not exceed the
    target.  A target of [0] with a positive or [NaN] frame rate raises, and
    so does a frame rate of [+inf] or [NaN] with any non-zero target. *)
Theorem frame_interval_at_least_one :
  forall (native_fps : pyfloat) (target_fps : Z),
    (forall k, frame_interval_of native_fps target_fps = Some k -> 1 <= k)
    /\ (fle native_fps (Finite 0) = true ->
        frame_interval_of native_fps target_fps = Some 1)
    /\ (forall n, native_fps = Finite n -> (0 < n)%Q ->
                  (n <= inject_Z target_fps)%Q ->
                  frame_interval_of native_fps target_fps = Some 1)
    /\ (fle native_fps (Finite 0) = false -> target_fps = 0 ->
        frame_interval_of native_fps target_fps = None)
    /\ (native_fps = PosInf \/ native_fps = NaN -> target_fps <> 0 ->
        frame_interval_of native_fps target_fps = None).
Proof.
  intros native target. unfold frame_interval_of.
  split; [|split; [|split; [|split]]].
  - intros k. destruct (fle native (Finite 0)); [intros [= <-]; lia|].
    destruct (target =? 0); [discriminate|].
    destruct (py_round_float _); [|discriminate].
    cbn [option_map]. intros [= <-]. lia.
  - intros ->. reflexivity.
  - intros n -> Hn Ht. cbn [fle].
    rewrite (Qle_bool_of_lt _ _ Hn).
    assert (Htpos : (0 < inject_Z target)%Q)
      by (apply Qlt_le_trans with n; assumption).
    assert (Hz : target <> 0).
    { intros ->. exact (Qlt_irrefl _ Htpos). }
    apply Z.eqb_neq in Hz. rewrite Hz.
    rewrite fdiv_finite by (apply Qeq_bool_of_lt; exact Htpos).
    cbn [py_round_float option_map]. f_equal.
    assert (H : 0 <= py_round (n / inject_Z target) <= 1).
    { apply py_round_between.
      - apply Qle_shift_div_l; [exact Htpos|]. change (inject_Z 0) with 0%Q.
        lra.
      - apply Qle_shift_div_r; [exact Htpos|]. change (inject_Z 1) with 1%Q.
        lra. }
    lia.
  - intros -> ->. reflexivity.
  - intros [-> | ->] Hz; apply Z.eqb_neq in Hz; cbn [fle]; rewrite Hz;
      [|reflexivity].
    cbn [fdiv]. destruct (Qeq_bool (inject_Z target) 0); [reflexivity|].
    unfold inf_of_sign.
    destruct (Qlt_bool 0 (inject_Z target)); [reflexivity|].
    destruct (Qlt_bool (inject_Z target) 0); reflexivity.
Qed.

Lemma frame_interval_at_least_one_witness :
  frame_interval_of (Finite 30) 15 = Some 2
  /\ 1 <= 2
  /\ (0 < 12)%Q /\ (12 <= inject_Z 15)%Q
  /\ frame_interval_of (Finite 12) 15 = Some 1.
Proof.
  assert (E : frame_interval_of (Finite 30) 15 = Some 2) by reflexivity.
  assert (H0 : (0 < 12)%Q) by reflexivity.
  assert (H1 : (12 <= inject_Z 15)%Q) by (vm_compute; discriminate).
  destruct (frame_interval_at_least_one (Finite 30) 15) as (Hk & _).
  destruct (frame_interval_at_least_one (Finite 12) 15) as (_ & _ & Hone & _).
  exact (conj E (conj (Hk 2 E) (conj H0 (conj H1 (Hone 12%Q eq_refl H0 H1))))).
Defined.

(** The distance from a frame index to the next multiple of the interval. *)
Lemma next_multiple_here (k i : Z) :
  0 < k -> i mod k = 0 -> (- i) mod k = 0 /\ (- (i + 1)) mod k = k - 1.
Proof.
  intros Hk Hi.
  pose proof (Z.div_mod i k ltac:(lia)) as Ediv. rewrite Hi in Ediv.
  split.
  - symmetry. apply (Zmod_unique (- i) k (- (i / k))); lia.
  - symmetry. apply (Zmod_unique (- (i + 1)) k (- (i / k) - 1)); lia.
Qed.

Lemma next_multiple_later (k i : Z) :
  0 < k -> i mod k <> 0 -> (- i) mod k = (- (i + 1)) mod k + 1.
Proof.
  intros Hk Hi.
  pose proof (Z.div_mod i k ltac:(lia)) as Ediv.
  pose proof (Z.mod_pos_bound i k Hk) as Hb.
  assert (E1 : (- i) mod k = k - i mod k).
  { symmetry. apply (Zmod_unique (- i) k (- (i / k) - 1)); lia. }
  assert (E2 : (- (i + 1)) mod k = k - i mod k - 1).
  { symmetry. apply (Zmod_unique (- (i + 1)) k (- (i / k) - 1)); lia. }
  lia.
Qed.

Section ReadLoop.

Context {frame : Type}.
Variable cvtColor : frame -> frame.

(** The loop yields the frames whose index is a multiple of the interval. *)
Lemma read_loop_nth (k : Z) (source : list frame) :
  0 < k ->
  forall (i : Z) (j : nat),
    0 <= i ->
    nth_error (read_loop cvtColor k i source) j
    = option_map cvtColor
        (nth_error source (Z.to_nat ((- i) mod k) + j * Z.to_nat k)).
Proof.
  intros Hk. induction source as [|f rest IH]; intros i j Hi.
  - cbn [read_loop]. rewrite !nth_error_nil. reflexivity.
  - cbn [read_loop]. destruct (i mod k =? 0) eqn:E.
    + apply Z.eqb_eq in E.
      destruct (next_multiple_here k i Hk E) as [E0 E1]. rewrite E0.
      destruct j as [|j]; [reflexivity|].
      cbn [nth_error]. rewrite IH by lia. rewrite E1. f_equal.
      replace (Z.to_nat 0 + S j * Z.to_nat k)%nat
        with (S (Z.to_nat (k - 1) + j * Z.to_nat k)) by lia.
      reflexivity.
    + apply Z.eqb_neq in E.
      rewrite IH by lia. rewrite (next_multiple_later k i Hk E). f_equal.
      pose proof (Z.mod_pos_bound (- (i + 1)) k Hk) as Hb.
      replace (Z.to_nat ((- (i + 1)) mod k + 1) + j * Z.to_nat k)%nat
        with (S (Z.to_nat ((- (i + 1)) mod k) + j * Z.to_nat k)) by lia.
      reflexivity.
Qed.

End ReadLoop.

Lemma length_by_nth_error {A : Type} (l : list A) (n : nat) :
  (forall j, nth_error l j = None <-> (n <= j)%nat) -> List.length l = n.
Proof.
  intros H.
  assert (H1 : (List.length l <= n)%nat).
  { apply nth_error_None. apply H. apply Nat.le_refl. }
  assert (H2 : (n <= List.length l)%nat).
  { apply H. apply nth_error_None. apply Nat.le_refl. }
  lia.
Qed.

(** X23. With a frame interval [k >= 1], the extraction loop yields the
    converted source frames number [0], [k], [2k], ... in order, and
    nothing else: frame [j] of the output is source frame [j * k], and the
    output has [ceil (n / k)] frames for [n] source frames. *)
Theorem read_loop_every_kth :
  forall (frame : Type) (cvtColor : frame -> frame) (k : Z)
         (source : list frame),
    1 <= k ->
    (forall j,
        nth_error (read_loop cvtColor k 0 source) j
        = option_map cvtColor (nth_error source (j * Z.to_nat k)))
    /\ List.length (read_loop cvtColor k 0 source)
       = ((List.length source + Z.to_nat k - 1) / Z.to_nat k)%nat.
Proof.
  intros frame cvtColor k source Hk.
  assert (Hnth : forall j,
             nth_error (read_loop cvtColor k 0 source) j
             = option_map cvtColor (nth_error source (j * Z.to_nat k))).
  { intros j. rewrite (read_loop_nth cvtColor k source) by lia.
    cbn [Z.opp]. rewrite Z.mod_0_l by lia. reflexivity. }
  split; [exact Hnth|].
  apply length_by_nth_error. intros j. rewrite Hnth.
  set (K := Z.to_nat k). set (n := List.length source).
  assert (HK : (0 < K)%nat) by (unfold K; lia).
  assert (Hceil : ((n + K - 1) / K <= j <-> n <= j * K)%nat).
  { pose proof (Nat.div_mod_eq (n + K - 1) K) as Ediv.
    pose proof (Nat.mod_upper_bound (n + K - 1) K ltac:(lia)) as Hb.
    split; intros H; nia. }
  rewrite Hceil.
  destruct (nth_error source (j * K)) as [f|] eqn:E.
  - cbn [option_map]. split; [discriminate|]. intros H.
    assert (Hnone : nth_error source (j * K) = None)
      by (apply nth_error_None; exact H).
    congruence.
  - split; [|reflexivity]. intros _. apply nth_error_None. exact E.
Qed.

Lemma read_loop_every_kth_witness :
  1 <= 2
  /\ read_loop (fun f : nat => (f + 100)%nat) 2 0 [0; 1; 2; 3; 4]%nat
     = [100; 102; 104]%nat
  /\ List.length (read_loop (fun f : nat => (f + 100)%nat) 2 0
                    [0; 1; 2; 3; 4]%nat)
     = ((List.length [0; 1; 2; 3; 4]%nat + Z.to_nat 2 - 1) / Z.to_nat 2)%nat.
Proof.
  assert (Hk : 1 <= 2) by lia.
  refine (conj Hk (conj eq_refl _)).
  exact (proj2 (read_loop_every_kth nat (fun f => (f + 100)%nat) 2
                  [0; 1; 2; 3; 4]%nat Hk)).
Defined.

(* ------------------------------------------------------------------ *)
(** ** Non-finite frames in the heuristic scorer                       *)
(* ------------------------------------------------------------------ *)

Lemma py_min_from_skips_nan (l1 l2 : list pyfloat) :
  forall cur : pyfloat,
    py_min_from cur (l1 ++ NaN :: l2) = py_min_from cur (l1 ++ l2).
Proof.
  induction l1 as [|x l1 IH]; intros cur.
  - cbn [app py_min_from flt]. reflexivity.
  - cbn [app py_min_from]. apply IH.
Qed.

Lemma py_max_from_skips_nan (l1 l2 : list pyfloat) :
  forall cur : pyfloat,
    py_max_from cur (l1 ++ NaN :: l2) = py_max_from cur (l1 ++ l2).
Proof.
  induction l1 as [|x l1 IH]; intros cur.
  - cbn [app py_max_from fgt flt]. destruct cur; reflexivity.
  - cbn [app py_max_from]. apply IH.
Qed.

Lemma py_min_from_nan (l : list pyfloat) : py_min_from NaN l = NaN.
Proof.
  induction l as [|x l IH]; [reflexivity|]. cbn [py_min_from].
  destruct x; cbn [flt]; exact IH.
Qed.

Lemma py_max_from_nan (l : list pyfloat) : py_max_from NaN l = NaN.
Proof.
  induction l as [|x l IH]; [reflexivity|]. cbn [py_max_from fgt flt]. exact IH.
Qed.

(** X24. The heuristic scorer treats a [NaN] frame by position, as the
    builtin [min] and [max] do: a repetition that starts with [NaN] makes
    the scorer raise, while a [NaN] at any later position is ignored, the
    result being that of the repetition without it. *)
Theorem score_rep_heuristic_nan :
  forall (x : pyfloat) (l1 l2 : list pyfloat),
    score_rep_heuristic (NaN :: l1) = None
    /\ score_rep_heuristic (x :: l1 ++ NaN :: l2)
       = score_rep_heuristic (x :: l1 ++ l2).
Proof.
  intros x l1 l2. split.
  - unfold score_rep_heuristic. rewrite py_min_from_nan, py_max_from_nan.
    reflexivity.
  - unfold score_rep_heuristic.
    rewrite py_min_from_skips_nan, py_max_from_skips_nan. reflexivity.
Qed.

(* ------------------------------------------------------------------ *)
(** ** The hip-sag flag                                                *)
(* ------------------------------------------------------------------ *)

(** X25. A repetition is flagged as sagging exactly when its hip slice is
    not empty and at least three in ten of its frames compare below [160]
    degrees, the boundary included; an empty hip slice is never flagged. *)
Theorem hip_sag_three_in_ten :
  forall rep_hip_slice : list pyfloat,
    hip_sag_this_rep rep_hip_slice = true
    <-> rep_hip_slice <> []
        /\ (3 * List.length rep_hip_slice
            <= 10 * List.length
                      (filter (fun a => flt a HIP_SAG_THRESHOLD)
                              rep_hip_slice))%nat.
Proof.
  intros l. unfold hip_sag_this_rep.
  destruct l as [|a l]; [split; [discriminate|intros [H _]; congruence]|].
  set (c := List.length (filter (fun a => flt a HIP_SAG_THRESHOLD) (a :: l))).
  set (n := List.length (a :: l)).
  assert (Hn : (0 < n)%nat) by (unfold n; cbn; lia).
  assert (Hpos : (0 < inject_Z (Z.of_nat n))%Q).
  { change 0%Q with (inject_Z 0). rewrite <- Zlt_Qlt. lia. }
  rewrite Qle_bool_iff. unfold HIP_SAG_FREQUENCY_THRESHOLD.
  split.
  - intros H. split; [discriminate|].
    assert (H' : ((30 # 100) * inject_Z (Z.of_nat n)
                  <= inject_Z (Z.of_nat c))%Q).
    { apply Qmult_le_compat_r with (z := inject_Z (Z.of_nat n)) in H;
        [|apply Qlt_le_weak; exact Hpos].
      unfold Qdiv in H. rewrite <- Qmult_assoc in H.
      rewrite (Qmult_comm (/ inject_Z (Z.of_nat n))) in H.
      rewrite Qmult_inv_r in H by (intros E; rewrite E in Hpos;
                                   exact (Qlt_irrefl _ Hpos)).
      rewrite Qmult_1_r in H. exact H. }
    unfold Qle, Qmult, inject_Z in H'. cbn [Qnum Qden] in H'. lia.
  - intros [_ H]. apply Qle_shift_div_l; [exact Hpos|].
    unfold Qle, Qmult, inject_Z. cbn [Qnum Qden]. lia.
Qed.
